(** * A recursive ray tracer (raytrace.cpp): shallow embedding and verification

    The program is floating-point C++.  Its functions are embedded once,
    generically over a record [arith] of the arithmetic the source uses
    (the C++ types [float] and [double], their operations, comparisons and
    conversions).  Two instances are given:

    - [ieee]: IEEE-754 binary32 for [float] and binary64 for [double], with
      round-to-nearest-even, signed zeros, infinities and NaN, built on the
      executable specification [SpecFloat] of the Standard Library.  Every
      statement about what the compiled program does is made on this
      instance.  It assumes what a conforming x86-64 build gives: each
      [float] operation is rounded to binary32 (FLT_EVAL_METHOD = 0), no
      fused multiply-add contraction, no fast-math.
    - [ideal]: the real numbers, used only for statements of exact geometry.
*)

From Stdlib Require Import ZArith List Bool Lia Ascii String DecimalString.
From Stdlib Require Import Floats.SpecFloat.
From Stdlib Require Import Reals Lra.
Import ListNotations.

Local Open Scope Z_scope.

(* ================================================================== *)
(** ** Arithmetic interface *)

(** What the source needs from [float] (carrier [F]) and [double]
    (carrier [D]).  Comparisons are the C++ operators: they answer [false]
    as soon as one side is NaN. *)
Record arith : Type := {
  F : Type;
  D : Type;
  (* float *)
  fadd : F -> F -> F;
  fsub : F -> F -> F;
  fmul : F -> F -> F;
  fdiv : F -> F -> F;
  fopp : F -> F;
  fabs : F -> F;              (* std::abs(float) *)
  fsqrt : F -> F;             (* std::sqrt(float) *)
  flt : F -> F -> bool;       (* a < b *)
  feq : F -> F -> bool;       (* a == b *)
  f_of_Z : Z -> F;            (* int -> float *)
  f_of_d : D -> F;            (* double -> float (narrowing) *)
  f_trunc : F -> Z;           (* float -> integer, toward zero *)
  (* double *)
  d_of_f : F -> D;            (* float -> double (promotion) *)
  d_of_Z : Z -> D;            (* int -> double *)
  d_lit : Z -> Z -> D;        (* the decimal literal n/d *)
  dadd : D -> D -> D;
  dsub : D -> D -> D;
  dmul : D -> D -> D;
  dopp : D -> D;
  dlt : D -> D -> bool;
  d_trunc : D -> Z            (* double -> int, toward zero *)
}.

(* ================================================================== *)
(** ** The IEEE-754 instance *)

Module B32.
Definition prec := 24.
Definition emax := 128.
Definition add := SFadd prec emax.
Definition sub := SFsub prec emax.
Definition mul := SFmul prec emax.
Definition div := SFdiv prec emax.
Definition sqrt := SFsqrt prec emax.
Definition ltb := SFltb.
Definition eqb := SFeqb.
Definition of_Z (z : Z) : spec_float := binary_normalize prec emax z 0 false.
(** Rounding of any finite value to binary32. *)
Definition round (x : spec_float) : spec_float :=
  match x with
  | S754_finite s m e => binary_round prec emax s m e
  | _ => x
  end.
End B32.

Module B64.
Definition prec := 53.
Definition emax := 1024.
Definition add := SFadd prec emax.
Definition sub := SFsub prec emax.
Definition mul := SFmul prec emax.
Definition div := SFdiv prec emax.
Definition ltb := SFltb.
Definition of_Z (z : Z) : spec_float := binary_normalize prec emax z 0 false.
(** A binary32 value seen as a binary64 value: exact, only the
    representation (mantissa width) changes. *)
Definition of_b32 (x : spec_float) : spec_float :=
  match x with
  | S754_finite s m e => binary_round prec emax s m e
  | _ => x
  end.
(** The double nearest to the decimal [n/d], for literals such as
    [.001 = 1/1000]: numerator and denominator are exact, and the
    division is correctly rounded. *)
Definition lit (n d : Z) : spec_float := div (of_Z n) (of_Z d).
End B64.

(** The integer part of a float, rounding toward zero (C++ conversion of a
    floating value to an integer type).  The conversion is undefined in C++
    when the value is NaN, infinite or out of the range of [int]; x86-64
    then yields the "integer indefinite" value -2^31, which is what the
    model returns. *)
Definition int_indefinite : Z := - 2 ^ 31.

Definition trunc_finite (s : bool) (m : positive) (e : Z) : Z :=
  cond_Zopp s (match e with
               | Z0 => Zpos m
               | Zpos p => Zpos m * 2 ^ Zpos p
               | Zneg p => Zpos m / 2 ^ Zpos p
               end).

Definition sf_trunc (x : spec_float) : Z :=
  match x with
  | S754_zero _ => 0
  | S754_finite s m e =>
      let z := trunc_finite s m e in
      if (- 2 ^ 31 <=? z) && (z <? 2 ^ 31) then z else int_indefinite
  | _ => int_indefinite
  end.

Arguments B32.add : simpl never.
Arguments B32.sub : simpl never.
Arguments B32.mul : simpl never.
Arguments B32.div : simpl never.
Arguments B32.sqrt : simpl never.
Arguments B32.of_Z : simpl never.
Arguments B32.round : simpl never.
Arguments B64.add : simpl never.
Arguments B64.sub : simpl never.
Arguments B64.mul : simpl never.
Arguments B64.of_Z : simpl never.
Arguments B64.lit : simpl never.
Arguments sf_trunc : simpl never.

Definition ieee : arith := {|
  F := spec_float;
  D := spec_float;
  fadd := B32.add;
  fsub := B32.sub;
  fmul := B32.mul;
  fdiv := B32.div;
  fopp := SFopp;
  fabs := SFabs;
  fsqrt := B32.sqrt;
  flt := B32.ltb;
  feq := B32.eqb;
  f_of_Z := B32.of_Z;
  f_of_d := B32.round;
  f_trunc := sf_trunc;
  d_of_f := B64.of_b32;
  d_of_Z := B64.of_Z;
  d_lit := B64.lit;
  dadd := B64.add;
  dsub := B64.sub;
  dmul := B64.mul;
  dopp := SFopp;
  dlt := B64.ltb;
  d_trunc := sf_trunc
|}.

(* ================================================================== *)
(** ** The ideal instance: real numbers *)

Module Ideal.
Local Open Scope R_scope.
Definition ltb (x y : R) : bool := if Rlt_dec x y then true else false.
Definition eqb (x y : R) : bool := if Req_dec_T x y then true else false.
Definition lit (n d : Z) : R := IZR n / IZR d.
Definition trunc (x : R) : Z :=
  if Rle_dec 0 x then Int_part x else (- Int_part (- x))%Z.
End Ideal.

Definition ideal : arith := {|
  F := R;
  D := R;
  fadd := Rplus;
  fsub := Rminus;
  fmul := Rmult;
  fdiv := Rdiv;
  fopp := Ropp;
  fabs := Rabs;
  fsqrt := R_sqrt.sqrt;
  flt := Ideal.ltb;
  feq := Ideal.eqb;
  f_of_Z := IZR;
  f_of_d := fun x => x;
  f_trunc := Ideal.trunc;
  d_of_f := fun x => x;
  d_of_Z := IZR;
  d_lit := Ideal.lit;
  dadd := Rplus;
  dsub := Rminus;
  dmul := Rmult;
  dopp := Ropp;
  dlt := Ideal.ltb;
  d_trunc := Ideal.trunc
|}.

(* ================================================================== *)
(** ** Data: struct vec3, Material, Sphere, Cube *)

(** The structs of the source, over the type [T] of their [float]
    members. *)
Section Data.
Variable T : Type.

Record vec3 : Type := mk_vec3 { vx : T; vy : T; vz : T }.

Record Material : Type := mk_Material {
  refractive_index : T;
  albedo : T * T * T * T;
  diffuse_color : vec3;
  specular_exponent : T
}.

Record Sphere : Type := mk_Sphere {
  s_center : vec3; radius : T; s_material : Material }.

Record Cube : Type := mk_Cube {
  c_center : vec3; size : T; c_material : Material }.

(** The locals [nearest_dist], [pt], [N] and [material] of
    [scene_intersect], which its three tests update in turn. *)
Record scene_state : Type := mk_scene_state {
  nearest_dist : T; pt : vec3; N : vec3; material : Material }.
End Data.

Arguments mk_vec3 {T}.
Arguments vx {T}.
Arguments vy {T}.
Arguments vz {T}.
Arguments mk_Material {T}.
Arguments refractive_index {T}.
Arguments albedo {T}.
Arguments diffuse_color {T}.
Arguments specular_exponent {T}.
Arguments mk_Sphere {T}.
Arguments s_center {T}.
Arguments radius {T}.
Arguments s_material {T}.
Arguments mk_Cube {T}.
Arguments c_center {T}.
Arguments size {T}.
Arguments c_material {T}.
Arguments mk_scene_state {T}.
Arguments nearest_dist {T}.
Arguments pt {T}.
Arguments N {T}.
Arguments material {T}.

(* ================================================================== *)
(** ** The program, over any arithmetic *)

Section Program.
Variable A : arith.

Local Notation "'flt_t'" := (F A).

(** [a > b] is [b < a]; a double literal [n/d] narrowed into a [float]
    initialiser; a [float] compared with a double literal (the float is
    promoted, the comparison is done in [double]). *)
Definition fgt (a b : flt_t) : bool := flt A b a.
Definition flit (n d : Z) : flt_t := f_of_d A (d_lit A n d).
Definition gt_dlit (x : flt_t) (n d : Z) : bool :=
  dlt A (d_lit A n d) (d_of_f A x).

(** [std::max(a, b)] is [(a < b) ? b : a] and [std::min(a, b)] is
    [(b < a) ? b : a]: with a NaN second argument both return the
    first. *)
Definition std_max (a b : flt_t) : flt_t := if flt A a b then b else a.
Definition std_min (a b : flt_t) : flt_t := if flt A b a then b else a.

Local Notation "x + y" := (fadd A x y).
Local Notation "x - y" := (fsub A x y).
Local Notation "x * y" := (fmul A x y).
Local Notation "x / y" := (fdiv A x y).
Local Notation "- x" := (fopp A x).
Local Notation "'i2f' z" := (f_of_Z A z) (at level 9, z at level 9).

(** *** The operators of vec3 *)

Definition vec3_index (v : vec3 flt_t) (i : Z) : flt_t :=
  if Z.eqb i 0 then vx v else if Z.eqb 1 i then vy v else vz v.
Definition vscale (v : vec3 flt_t) (s : flt_t) : vec3 flt_t :=
  mk_vec3 (vx v * s) (vy v * s) (vz v * s).
Definition dot (v w : vec3 flt_t) : flt_t :=
  vx v * vx w + vy v * vy w + vz v * vz w.
Definition vadd (v w : vec3 flt_t) : vec3 flt_t :=
  mk_vec3 (vx v + vx w) (vy v + vy w) (vz v + vz w).
Definition vsub (v w : vec3 flt_t) : vec3 flt_t :=
  mk_vec3 (vx v - vx w) (vy v - vy w) (vz v - vz w).
Definition vneg (v : vec3 flt_t) : vec3 flt_t := mk_vec3 (- vx v) (- vy v) (- vz v).
Definition norm (v : vec3 flt_t) : flt_t :=
  fsqrt A (vx v * vx v + vy v * vy v + vz v * vz v).
Definition normalized (v : vec3 flt_t) : vec3 flt_t := vscale v (i2f 1 / norm v).
Definition vec3_zero : vec3 flt_t := mk_vec3 (i2f 0) (i2f 0) (i2f 0).

Definition cross (v1 v2 : vec3 flt_t) : vec3 flt_t :=
  mk_vec3 (vy v1 * vz v2 - vz v1 * vy v2)
          (vz v1 * vx v2 - vx v1 * vz v2)
          (vx v1 * vy v2 - vy v1 * vx v2).

(** *** Material accessors *)
Definition albedo0 (m : Material flt_t) := let '(a, _, _, _) := albedo m in a.
Definition albedo1 (m : Material flt_t) := let '(_, a, _, _) := albedo m in a.
Definition albedo2 (m : Material flt_t) := let '(_, _, a, _) := albedo m in a.
Definition albedo3 (m : Material flt_t) := let '(_, _, _, a) := albedo m in a.

(** The default member initialisers of [Material]. *)
Definition Material_default : Material flt_t :=
  mk_Material (i2f 1) (i2f 2, i2f 0, i2f 0, i2f 0) vec3_zero (i2f 0).

Definition set_diffuse_color (m : Material flt_t) (c : vec3 flt_t) : Material flt_t :=
  mk_Material (refractive_index m) (albedo m) c (specular_exponent m).

(** *** The compiled-in scene *)
Definition marble : Material flt_t :=
  mk_Material (flit 1 1) (flit 8 10, flit 2 10, flit 0 1, flit 0 1)
    (mk_vec3 (flit 5 10) (flit 5 10) (flit 5 10)) (flit 30 1).
Definition water : Material flt_t :=
  mk_Material (flit 13 10) (flit 1 10, flit 4 10, flit 7 10, flit 5 10)
    (mk_vec3 (flit 2 10) (flit 5 10) (flit 8 10)) (flit 100 1).
Definition shiny_red : Material flt_t :=
  mk_Material (flit 1 1) (flit 12 10, flit 3 10, flit 0 1, flit 1 10)
    (mk_vec3 (flit 7 10) (flit 1 10) (flit 1 10)) (flit 200 1).
Definition bronze : Material flt_t :=
  mk_Material (flit 1 1) (flit 4 10, flit 3 10, flit 2 10, flit 1 10)
    (mk_vec3 (flit 8 10) (flit 7 10) (flit 5 10)) (flit 500 1).

Definition vec3_of_Z (x y z : Z) : vec3 flt_t := mk_vec3 (i2f x) (i2f y) (i2f z).

Definition spheres : list (Sphere flt_t) :=
  [ mk_Sphere (vec3_of_Z (-2) 1 (-15)) (flit 15 10) marble;
    mk_Sphere (vec3_of_Z 0 4 (-12)) (flit 2 1) water;
    mk_Sphere (vec3_of_Z 2 0 (-18)) (flit 25 10) shiny_red;
    mk_Sphere (vec3_of_Z 5 3 (-20)) (flit 35 10) bronze ].

Definition cube : Cube flt_t := mk_Cube (vec3_of_Z 0 (-1) (-10)) (flit 2 1) water.

Definition lights : list (vec3 flt_t) :=
  [ vec3_of_Z (-15) 10 25; vec3_of_Z 20 30 (-30); vec3_of_Z 10 10 15 ].

(** *** reflect and refract *)
Definition reflect (I N : vec3 flt_t) : vec3 flt_t :=
  vsub I (vscale (vscale N (i2f 2)) (dot I N)).

(** [cosi] of [refract], from the dot product [I * N]. *)
Definition refract_cosi (I N : vec3 flt_t) : flt_t :=
  - std_max (i2f (-1)) (std_min (i2f 1) (dot I N)).

Definition refract_k (eta cosi : flt_t) : flt_t :=
  i2f 1 - eta * eta * (i2f 1 - cosi * cosi).

(** The body of [refract] once [cosi < 0] has been excluded. *)
Definition refract_body (I N : vec3 flt_t) (eta_t eta_i cosi : flt_t) : vec3 flt_t :=
  let eta := eta_i / eta_t in
  let k := refract_k eta cosi in
  if flt A k (i2f 0) then vec3_of_Z 1 0 0
  else vadd (vscale I eta) (vscale N (eta * cosi - fsqrt A k)).

(** [refract] calls itself; [fuel] bounds the nesting of calls, and
    [None] says that the nesting allowed was not enough. *)
Fixpoint refract_fuel (fuel : nat) (I N : vec3 flt_t) (eta_t eta_i : flt_t)
  : option (vec3 flt_t) :=
  match fuel with
  | O => None
  | S fuel' =>
      let cosi := refract_cosi I N in
      if flt A cosi (i2f 0) then refract_fuel fuel' I (vneg N) eta_i eta_t
      else Some (refract_body I N eta_t eta_i cosi)
  end.

(** *** ray_sphere_intersect *)
Definition ray_sphere_intersect (orig dir : vec3 flt_t) (s : Sphere flt_t)
  : bool * flt_t :=
  let L := vsub (s_center s) orig in
  let tca := dot L dir in
  let d2 := dot L L - tca * tca in
  if fgt d2 (radius s * radius s) then (false, i2f 0)
  else
    let thc := fsqrt A (radius s * radius s - d2) in
    let t0 := tca - thc in
    let t1 := tca + thc in
    if gt_dlit t0 1 1000 then (true, t0)
    else if gt_dlit t1 1 1000 then (true, t1)
    else (false, i2f 0).

(** *** ray_cube_intersect *)
(** The two slab parameters of one axis, before they are ordered:
    [(center - size / 2 - orig) / dir] and [(center + size / 2 - orig) / dir]. *)
Definition slab_lo (c o d sz : flt_t) : flt_t := (c - sz / i2f 2 - o) / d.
Definition slab_hi (c o d sz : flt_t) : flt_t := (c + sz / i2f 2 - o) / d.

(** [if (a > b) std::swap(a, b)] *)
Definition order_pair (a b : flt_t) : flt_t * flt_t :=
  if fgt a b then (b, a) else (a, b).

Definition cube_miss : bool * flt_t * vec3 flt_t := (false, i2f 0, vec3_zero).

Definition ray_cube_intersect (orig dir : vec3 flt_t) (c : Cube flt_t)
  : bool * flt_t * vec3 flt_t :=
  let cc := c_center c in
  let sz := size c in
  let '(tmin, tmax) :=
    order_pair (slab_lo (vx cc) (vx orig) (vx dir) sz)
               (slab_hi (vx cc) (vx orig) (vx dir) sz) in
  let '(tymin, tymax) :=
    order_pair (slab_lo (vy cc) (vy orig) (vy dir) sz)
               (slab_hi (vy cc) (vy orig) (vy dir) sz) in
  if fgt tmin tymax || fgt tymin tmax then cube_miss
  else
    let tmin := if fgt tymin tmin then tymin else tmin in
    let tmax := if flt A tymax tmax then tymax else tmax in
    let '(tzmin, tzmax) :=
      order_pair (slab_lo (vz cc) (vz orig) (vz dir) sz)
                 (slab_hi (vz cc) (vz orig) (vz dir) sz) in
    if fgt tmin tzmax || fgt tzmin tmax then cube_miss
    else
      let tmin := if fgt tzmin tmin then tzmin else tmin in
      let tmax := if flt A tzmax tmax then tzmax else tmax in
      if fgt tmin (i2f 0) then
        let axis (cq oq dq : flt_t) : flt_t :=
          if feq A tmin (slab_lo cq oq dq sz)
             || feq A tmin (slab_hi cq oq dq sz)
          then i2f 1 else i2f 0 in
        (true, tmin,
         mk_vec3 (axis (vx cc) (vx orig) (vx dir))
                 (axis (vy cc) (vy orig) (vy dir))
                 (axis (vz cc) (vz orig) (vz dir)))
      else cube_miss.

(** *** scene_intersect *)
(** The locals before the first test: [nearest_dist = 1e10], and the
    default [vec3] and [Material]. *)
Definition scene_init : scene_state flt_t :=
  mk_scene_state (flit 10000000000 1) vec3_zero vec3_zero Material_default.

(** [(int(.5 * pt.x + 1000) + int(.5 * pt.z)) & 1], computed in
    [double] and converted to [int] by truncation. *)
Definition checker_index (p : vec3 flt_t) : Z :=
  d_trunc A (dadd A (dmul A (d_lit A 5 10) (d_of_f A (vx p))) (d_of_Z A 1000))
  + d_trunc A (dmul A (d_lit A 5 10) (d_of_f A (vz p))).

Definition checker_color (p : vec3 flt_t) : vec3 flt_t :=
  if negb (Z.eqb (Z.land (checker_index p) 1) 0)
  then mk_vec3 (flit 4 10) (flit 4 10) (flit 4 10)
  else mk_vec3 (flit 4 10) (flit 3 10) (flit 2 10).

Definition plane_dist (orig dir : vec3 flt_t) : flt_t :=
  (- (vy orig + i2f 3)) / vy dir.

Definition plane_step (orig dir : vec3 flt_t) (st : scene_state flt_t) : scene_state flt_t :=
  if gt_dlit (fabs A (vy dir)) 1 1000 then
    let d := plane_dist orig dir in
    let p := vadd orig (vscale dir d) in
    if gt_dlit d 1 1000 && flt A d (nearest_dist st)
       && flt A (fabs A (vx p)) (i2f 12)
       && flt A (vz p) (i2f (-12)) && fgt (vz p) (i2f (-28))
    then mk_scene_state d p (vec3_of_Z 0 1 0)
           (set_diffuse_color (material st) (checker_color p))
    else st
  else st.

Definition sphere_step (orig dir : vec3 flt_t) (st : scene_state flt_t) (s : Sphere flt_t)
  : scene_state flt_t :=
  let '(intersection, d) := ray_sphere_intersect orig dir s in
  if negb intersection || fgt d (nearest_dist st) then st
  else
    let p := vadd orig (vscale dir d) in
    mk_scene_state d p (normalized (vsub p (s_center s))) (s_material s).

Definition cube_step (orig dir : vec3 flt_t) (st : scene_state flt_t) : scene_state flt_t :=
  let '(cube_hit, cube_dist, cube_norm) := ray_cube_intersect orig dir cube in
  if cube_hit && flt A cube_dist (nearest_dist st)
  then mk_scene_state cube_dist (vadd orig (vscale dir cube_dist))
         cube_norm (c_material cube)
  else st.

Definition scene_final (orig dir : vec3 flt_t) : scene_state flt_t :=
  cube_step orig dir
    (fold_left (sphere_step orig dir) spheres (plane_step orig dir scene_init)).

Definition scene_intersect (orig dir : vec3 flt_t)
  : bool * vec3 flt_t * vec3 flt_t * Material flt_t :=
  let st := scene_final orig dir in
  (flt A (nearest_dist st) (i2f 1000), pt st, N st, material st).

(** *** cast_ray *)
(** [std::pow] on [float] belongs to the C library, not to the program:
    it is a parameter. *)
Variable powf : flt_t -> flt_t -> flt_t.

Definition background : vec3 flt_t := mk_vec3 (flit 2 10) (flit 7 10) (flit 8 10).

(** A call of [refract] from [cast_ray].  Two nested calls are all that
    [refract] can use when it returns at all (on [ieee] this is
    [refract_fuel_stable] below), so [None] stands for a call that never
    returns. *)
Definition refract (I N : vec3 flt_t) (eta_t eta_i : flt_t) : option (vec3 flt_t) :=
  refract_fuel 2 I N eta_t eta_i.

(** One turn of the loop over the lights, on the pair
    [(diffuse_light_intensity, specular_light_intensity)]. *)
Definition light_step (point Nrm dir : vec3 flt_t) (m : Material flt_t)
    (acc : flt_t * flt_t) (light : vec3 flt_t) : flt_t * flt_t :=
  let light_dir := normalized (vsub light point) in
  let '(hit, shadow_pt, _, _) := scene_intersect point light_dir in
  if hit && flt A (norm (vsub shadow_pt point)) (norm (vsub light point))
  then acc
  else
    (fst acc + std_max (i2f 0) (dot light_dir Nrm),
     snd acc + powf (std_max (i2f 0)
                       (dot (vneg (reflect (vneg light_dir) Nrm)) dir))
                    (specular_exponent m)).

Definition shade (m : Material flt_t) (diffuse specular : flt_t)
    (reflect_color refract_color : vec3 flt_t) : vec3 flt_t :=
  vadd (vadd (vadd (vscale (vscale (diffuse_color m) diffuse) (albedo0 m))
                   (vscale (vscale (mk_vec3 (flit 1 1) (flit 1 1) (flit 1 1))
                                   specular) (albedo1 m)))
             (vscale reflect_color (albedo2 m)))
       (vscale refract_color (albedo3 m)).

(** [fuel] bounds the nesting of [cast_ray] calls; [None] says that the
    call has not returned within that nesting (or that [refract] never
    returns).  [depth] is an [int]: it is only incremented when it is at
    most 4, so that [depth + 1] never overflows. *)
Fixpoint cast_ray_fuel (fuel : nat) (orig dir : vec3 flt_t) (depth : Z)
  : option (vec3 flt_t) :=
  match fuel with
  | O => None
  | S fuel' =>
      let '(hit, point, Nrm, m) := scene_intersect orig dir in
      if (depth >? 4) || negb hit then Some background
      else
        let reflect_dir := normalized (reflect dir Nrm) in
        match refract dir Nrm (refractive_index m) (i2f 1) with
        | None => None
        | Some r =>
            let refract_dir := normalized r in
            match cast_ray_fuel fuel' point reflect_dir (depth + 1) with
            | None => None
            | Some reflect_color =>
                match cast_ray_fuel fuel' point refract_dir (depth + 1) with
                | None => None
                | Some refract_color =>
                    let '(diffuse, specular) :=
                      fold_left (light_step point Nrm dir m) lights
                                (i2f 0, i2f 0) in
                    Some (shade m diffuse specular reflect_color refract_color)
                end
            end
        end
  end.

(** [cast_ray] with the nesting that the depth ceiling allows: depths
    [depth .. 5]. *)
Definition cast_ray (orig dir : vec3 flt_t) (depth : Z) : option (vec3 flt_t) :=
  cast_ray_fuel (S (Z.to_nat (5 - depth))) orig dir depth.

(** *** main: writing the framebuffer to out.ppm *)
Definition width : Z := 1024.
Definition height : Z := 768.

(** The loop over the pixels: [pix % width] is the column and
    [pix / width] the row of pixel [pix]; the components of the camera ray
    that depend on them are computed in [double] and narrowed:
    [dir_x = (pix % width + 0.5) - width / 2.] and
    [dir_y = -(pix / width + 0.5) + height / 2.]. *)
Definition pixel_col (pix : Z) : Z := Z.rem pix width.
Definition pixel_row (pix : Z) : Z := Z.quot pix width.

Definition pixel_dir_x (pix : Z) : flt_t :=
  f_of_d A (dsub A (dadd A (d_of_Z A (pixel_col pix)) (d_lit A 5 10))
                   (d_lit A width 2)).
Definition pixel_dir_y (pix : Z) : flt_t :=
  f_of_d A (dadd A (dopp A (dadd A (d_of_Z A (pixel_row pix)) (d_lit A 5 10)))
                   (d_lit A height 2)).

(** [ofs << "P6\n" << width << " " << height << "\n255\n"] *)
Definition decimal (z : Z) : string :=
  DecimalString.NilZero.string_of_int (Z.to_int z).
Definition nl : string := String (ascii_of_nat 10) EmptyString.
Definition ppm_header : list ascii :=
  list_ascii_of_string
    ("P6" ++ nl ++ decimal width ++ " " ++ decimal height ++ nl
          ++ "255" ++ nl)%string.

(** [(char)x] for a [float] [x]: the integer part toward zero, of which
    the stream receives the low eight bits. *)
Definition to_char (x : flt_t) : ascii :=
  ascii_of_N (Z.to_N (f_trunc A x mod 256)).

Definition pixel_max (color : vec3 flt_t) : flt_t :=
  std_max (i2f 1)
    (std_max (vec3_index color 0)
       (std_max (vec3_index color 1) (vec3_index color 2))).

Definition pixel_bytes (color : vec3 flt_t) : list ascii :=
  map (fun chan => to_char (i2f 255 * vec3_index color chan / pixel_max color))
      [0; 1; 2].

Definition ppm_body (framebuffer : list (vec3 flt_t)) : list ascii :=
  flat_map pixel_bytes framebuffer.

Definition ppm_output (framebuffer : list (vec3 flt_t)) : list ascii :=
  ppm_header ++ ppm_body framebuffer.
End Program.

(* ================================================================== *)
(** ** Definitions for the statements and the proofs *)

(** *** The candidates of scene_intersect, as the specification lists them *)

Section CandidateDefs.
Variable A : arith.

(** The ground plane y = -3, tested only when |dir.y| > 0.001, accepted
    for a distance above 0.001 and a hit point with x in (-12, 12) and
    z in (-28, -12). *)
Definition plane_hit (orig dir : vec3 (F A)) : option (F A * vec3 (F A)) :=
  if gt_dlit A (fabs A (vy dir)) 1 1000 then
    let d := plane_dist A orig dir in
    let p := vadd A orig (vscale A dir d) in
    if gt_dlit A d 1 1000
       && flt A (fabs A (vx p)) (f_of_Z A 12)
       && flt A (vz p) (f_of_Z A (-12)) && fgt A (vz p) (f_of_Z A (-28))
    then Some (d, p) else None
  else None.

Definition plane_record (d : F A) (p : vec3 (F A)) : scene_state (F A) :=
  mk_scene_state d p (vec3_of_Z A 0 1 0)
    (set_diffuse_color A (Material_default A) (checker_color A p)).

Definition sphere_record (orig dir : vec3 (F A)) (s : Sphere (F A)) (d : F A)
  : scene_state (F A) :=
  let p := vadd A orig (vscale A dir d) in
  mk_scene_state d p (normalized A (vsub A p (s_center s)))
    (s_material s).

Definition cube_record (orig dir : vec3 (F A)) (d : F A) (n : vec3 (F A))
  : scene_state (F A) :=
  mk_scene_state d (vadd A orig (vscale A dir d)) n (c_material (cube A)).

Definition plane_candidates (orig dir : vec3 (F A)) : list (scene_state (F A)) :=
  match plane_hit orig dir with
  | Some (d, p) => [plane_record d p]
  | None => []
  end.

Definition sphere_candidate (orig dir : vec3 (F A)) (s : Sphere (F A))
  : list (scene_state (F A)) :=
  let '(hit, d) := ray_sphere_intersect A orig dir s in
  if hit then [sphere_record orig dir s d] else [].

Definition cube_candidates (orig dir : vec3 (F A)) : list (scene_state (F A)) :=
  let '(hit, d, n) := ray_cube_intersect A orig dir (cube A) in
  if hit then [cube_record orig dir d n] else [].

(** Every primitive the ray meets, in the order of the tests. *)
Definition candidates (orig dir : vec3 (F A)) : list (scene_state (F A)) :=
  plane_candidates orig dir
  ++ flat_map (sphere_candidate orig dir) (spheres A)
  ++ cube_candidates orig dir.

(** A sphere leaves a running nearest distance [d] alone: the ray misses
    it, or meets it beyond [d].  Likewise for the box. *)
Definition sphere_farther (orig dir : vec3 (F A)) (d : F A) (s : Sphere (F A)) : Prop :=
  fst (ray_sphere_intersect A orig dir s) = false
  \/ fgt A (snd (ray_sphere_intersect A orig dir s)) d = true.

Definition cube_not_nearer (orig dir : vec3 (F A)) (d : F A) : Prop :=
  fst (fst (ray_cube_intersect A orig dir (cube A))) = false
  \/ flt A (snd (fst (ray_cube_intersect A orig dir (cube A)))) d = false.

(** One component of the normal of a box hit at distance [t]: 1 when a
    slab parameter of that axis equals [t], and 0 otherwise. *)
Definition cube_axis (t c o d sz : F A) : F A :=
  if feq A t (slab_lo A c o d sz) || feq A t (slab_hi A c o d sz)
  then f_of_Z A 1 else f_of_Z A 0.

End CandidateDefs.

(** *** IEEE comparisons *)

Definition is_nan (x : spec_float) : bool :=
  match x with S754_nan => true | _ => false end.

(** The lexicographic comparison of two finite magnitudes. *)
Definition mag (e1 : Z) (m1 : positive) (e2 : Z) (m2 : positive)
  : comparison :=
  match Z.compare e1 e2 with
  | Lt => Lt
  | Gt => Gt
  | Eq => Pos.compare m1 m2
  end.

(** A rank that SFcompare orders lexicographically: the class of the
    value first (-inf, negative, zero, positive, +inf), then exponent and
    mantissa, mirrored for negative values. *)
Definition rank (x : spec_float) : Z * Z * Z :=
  match x with
  | S754_nan => (0, 0, 0)
  | S754_zero _ => (0, 0, 0)
  | S754_infinity true => (-2, 0, 0)
  | S754_infinity false => (2, 0, 0)
  | S754_finite true m e => (-1, - e, - Zpos m)
  | S754_finite false m e => (1, e, Zpos m)
  end.

Definition lex_lt (p q : Z * Z * Z) : Prop :=
  let '(a1, b1, c1) := p in
  let '(a2, b2, c2) := q in
  a1 < a2 \/ (a1 = a2 /\ (b1 < b2 \/ (b1 = b2 /\ c1 < c2))).

Definition lex_le (p q : Z * Z * Z) : Prop := lex_lt p q \/ p = q.

(** *** The running state of scene_intersect *)

(** The sentinel [1e10] of [nearest_dist]. *)
Definition sentinel : spec_float := flit ieee 10000000000 1.

(** What the running state satisfies after some of the tests, [cs] being
    the candidates met so far. *)
Definition keeps (cs : list (scene_state (F ieee))) (st : scene_state (F ieee))
  : Prop :=
  is_nan (nearest_dist st) = false
  /\ (st = scene_init ieee \/ In st cs)
  /\ SFleb (nearest_dist st) sentinel = true
  /\ forall c, In c cs ->
       SFleb (nearest_dist st) (nearest_dist c) = true.

(** *** Zeros of either sign *)

Definition is_zero (x : spec_float) : bool :=
  match x with S754_zero _ => true | _ => false end.

(** Equal, or both zero. *)
Definition zeq (x y : spec_float) : Prop :=
  x = y \/ (is_zero x = true /\ is_zero y = true).

(** *** Results of the recursive functions *)

(** [refract I N eta_t eta_i] returns [r]: some nesting of calls is enough
    for the result [r]. *)
Definition refract_returns (A : arith) (I Nrm : vec3 (F A)) (eta_t eta_i : F A)
    (r : vec3 (F A)) : Prop :=
  exists fuel, refract_fuel A fuel I Nrm eta_t eta_i = Some r.

(** [dot_nan_reached fuel orig dir depth]: within [fuel] nested calls,
    cast_ray reaches a shading level where the dot product of the ray
    direction and the hit normal, which [refract] clamps, is NaN. *)
Fixpoint dot_nan_reached (fuel : nat) (orig dir : vec3 (F ieee)) (depth : Z)
  : bool :=
  match fuel with
  | O => false
  | S fuel' =>
      let '(hit, point, Nrm, m) := scene_intersect ieee orig dir in
      if (depth >? 4) || negb hit then false
      else if is_nan (dot ieee dir Nrm) then true
      else
        match refract ieee dir Nrm (refractive_index m) (f_of_Z ieee 1) with
        | None => true
        | Some r =>
            dot_nan_reached fuel' point
              (normalized ieee (reflect ieee dir Nrm)) (depth + 1)
            || dot_nan_reached fuel' point (normalized ieee r) (depth + 1)
        end
  end.

(** *** The checkerboard and the output bytes, as the specification words them *)

(** The specification keys the checkerboard by the floor of the two
    half coordinates.  [sf_floor] is the floor of a finite value; the
    source converts with [int(...)], which is [sf_trunc]. *)
Definition floor_finite (s : bool) (m : positive) (e : Z) : Z :=
  match e with
  | Zneg q => cond_Zopp s (Zpos m) / 2 ^ Zpos q
  | _ => trunc_finite s m e
  end.

Definition sf_floor (x : spec_float) : Z :=
  match x with
  | S754_finite s m e => floor_finite s m e
  | _ => 0
  end.

Definition checker_index_floor (p : vec3 (F ieee)) : Z :=
  sf_floor (B64.add (B64.mul (B64.lit 5 10) (B64.of_b32 (vx p)))
                    (B64.of_Z 1000))
  + sf_floor (B64.mul (B64.lit 5 10) (B64.of_b32 (vz p))).

Definition checker_color_floor (p : vec3 (F ieee)) : vec3 (F ieee) :=
  if Z.odd (checker_index_floor p)
  then mk_vec3 (flit ieee 4 10) (flit ieee 4 10) (flit ieee 4 10)
  else mk_vec3 (flit ieee 4 10) (flit ieee 3 10) (flit ieee 2 10).

(** The specification writes [round(255 * channel / scale)].  [sf_round]
    is rounding to the nearest integer (ties away from zero) of a finite
    value; the source converts with [(char)], which is [sf_trunc]. *)
Definition sf_round (x : spec_float) : Z :=
  match x with
  | S754_finite s m (Zneg q) =>
      cond_Zopp s ((2 * Zpos m + 2 ^ Zpos q) / (2 * 2 ^ Zpos q))
  | S754_finite s m e => trunc_finite s m e
  | _ => 0
  end.

(** *** The box *)

(** The normal of a box hit: every component is 0 or 1 and at least one
    is 1. *)
Definition axis_indicator (n : vec3 (F ieee)) : Prop :=
  (vx n = B32.of_Z 1 \/ vx n = B32.of_Z 0)
  /\ (vy n = B32.of_Z 1 \/ vy n = B32.of_Z 0)
  /\ (vz n = B32.of_Z 1 \/ vz n = B32.of_Z 0)
  /\ (vx n = B32.of_Z 1 \/ vy n = B32.of_Z 1 \/ vz n = B32.of_Z 1).

(** The eight corners of a box. *)
Definition cube_corners (c : Cube (F ieee)) : list (vec3 (F ieee)) :=
  let h := B32.div (size c) (B32.of_Z 2) in
  let cc := c_center c in
  flat_map (fun x => flat_map (fun y => map (fun z => mk_vec3 x y z)
                                           [B32.sub (vz cc) h; B32.add (vz cc) h])
                              [B32.sub (vy cc) h; B32.add (vy cc) h])
           [B32.sub (vx cc) h; B32.add (vx cc) h].

(** [tighten] is what the source does twice: the test that two intervals
    are disjoint, then the intersection. *)
Definition tighten (i j : spec_float * spec_float)
  : option (spec_float * spec_float) :=
  if fgt ieee (fst i) (snd j) || fgt ieee (fst j) (snd i) then None
  else Some (if fgt ieee (fst j) (fst i) then fst j else fst i,
             if flt ieee (snd j) (snd i) then snd j else snd i).

Definition slab_interval (c o d sz : spec_float) : spec_float * spec_float :=
  order_pair ieee (slab_lo ieee c o d sz) (slab_hi ieee c o d sz).

(** An interval without NaN whose ends are in order. *)
Definition ordered (i : spec_float * spec_float) : Prop :=
  is_nan (fst i) = false /\ is_nan (snd i) = false
  /\ SFleb (fst i) (snd i) = true.

(** Two slab parameters of opposite strict signs, as an origin strictly
    inside the box gives on every axis (one of them -inf and the other
    +inf when the direction component is zero). *)
Definition straddles (lo hi : spec_float) : Prop :=
  (SFltb lo (B32.of_Z 0) = true /\ SFltb (B32.of_Z 0) hi = true)
  \/ (SFltb hi (B32.of_Z 0) = true /\ SFltb (B32.of_Z 0) lo = true).

(** *** Rays and colours used as examples *)

(** A ray straight down onto the plane at (0, -3, -13). *)
Definition down_orig : vec3 (F ieee) := vec3_of_Z ieee 0 (-2) (-13).
Definition down_dir : vec3 (F ieee) := vec3_of_Z ieee 0 (-1) 0.
Definition down_point : vec3 (F ieee) := vec3_of_Z ieee 0 (-3) (-13).

(** A two-pixel framebuffer: the background colour, then {0.25, 0, 1}. *)
Definition two_pixels : list (vec3 (F ieee)) :=
  [ background ieee; mk_vec3 (flit ieee 25 100) (B32.of_Z 0) (B32.of_Z 1) ].

(** A ray that starts 2^-11 (about 0.00049) in front of the face z = -9
    of the box and runs into it. *)
Definition near_orig : vec3 (F ieee) :=
  mk_vec3 (B32.of_Z 0) (B32.of_Z (-1))
          (B32.add (B32.of_Z (-9)) (B32.div (B32.of_Z 1) (B32.of_Z 2048))).
Definition near_dir : vec3 (F ieee) := vec3_of_Z ieee 0 0 (-1).
Definition near_dist : spec_float := B32.div (B32.of_Z 1) (B32.of_Z 2048).

(** Two rays onto the box: one into the face x = -1 from the left, one
    onto the edge x = 1, y = 0 along a diagonal. *)
Definition left_orig : vec3 (F ieee) := vec3_of_Z ieee (-5) (-1) (-10).
Definition left_dir : vec3 (F ieee) := vec3_of_Z ieee 1 0 0.
Definition edge_orig : vec3 (F ieee) := vec3_of_Z ieee 2 1 (-10).
Definition edge_dir : vec3 (F ieee) := vec3_of_Z ieee (-1) (-1) 0.

(** A ray that starts at (1, 100, 0), in the plane x = 1 of a face of the
    box and far above it, and goes up and slowly toward -z. *)
Definition behind_orig : vec3 (F ieee) := vec3_of_Z ieee 1 100 0.
Definition behind_dir : vec3 (F ieee) :=
  mk_vec3 (B32.of_Z 0) (B32.of_Z 1) (B32.div (B32.of_Z (-1)) (B32.of_Z 64)).



(** A ray toward the face x = 1 of the box whose direction has a NaN
    component. *)
Definition nan_orig : vec3 (F ieee) := vec3_of_Z ieee 5 (-1) (-10).
Definition nan_dir : vec3 (F ieee) :=
  mk_vec3 (B32.of_Z (-1)) S754_nan (B32.of_Z 0).

(** *** Signs, and equality up to the sign of a zero *)

(** Not NaN, and the sign bit is clear: [+0], a positive finite value
    or [+inf]. *)
Definition nonneg (x : spec_float) : bool :=
  match x with
  | S754_zero s | S754_infinity s | S754_finite s _ _ => negb s
  | S754_nan => false
  end.

(** The sign bit of a value that is not NaN. *)
Definition has_sign (s : bool) (x : spec_float) : Prop :=
  match x with
  | S754_zero s' | S754_infinity s' | S754_finite s' _ _ => s' = s
  | S754_nan => False
  end.

(** Two vectors whose components are equal, or zeros of either sign. *)
Definition vzeq (v w : vec3 (F ieee)) : Prop :=
  zeq (vx v) (vx w) /\ zeq (vy v) (vy w) /\ zeq (vz v) (vz w).

(** Equality of two floats as data: the same constructor, sign, mantissa
    and exponent. *)
Definition sf_same (x y : spec_float) : bool :=
  match x, y with
  | S754_zero s, S754_zero s' => Bool.eqb s s'
  | S754_infinity s, S754_infinity s' => Bool.eqb s s'
  | S754_nan, S754_nan => true
  | S754_finite s m e, S754_finite s' m' e' =>
      Bool.eqb s s' && Pos.eqb m m' && Z.eqb e e'
  | _, _ => false
  end.

(** *** Exact geometry *)

(** The point of parameter [t] on the ray from [O] along [Dir]. *)
Definition ray_at (A : arith) (O Dir : vec3 (F A)) (t : F A) : vec3 (F A) :=
  vadd A O (vscale A Dir t).

(** [p] is on the surface of the sphere [s]. *)
Definition on_sphere (s : Sphere R) (p : vec3 R) : Prop :=
  dot ideal (vsub ideal p (s_center s)) (vsub ideal p (s_center s))
  = (radius s * radius s)%R.

(** The two face planes of the box [c] across the axis [q]. *)
Definition face_lo (c : Cube R) (q : vec3 R -> R) : R :=
  (q (c_center c) - size c / 2)%R.
Definition face_hi (c : Cube R) (q : vec3 R -> R) : R :=
  (q (c_center c) + size c / 2)%R.

(** [p] is in the closed box [c]. *)
Definition in_box (c : Cube R) (p : vec3 R) : Prop :=
  forall q, In q [vx; vy; vz] -> (face_lo c q <= q p <= face_hi c q)%R.

(** Snell's law for a unit incoming direction [I], a unit normal [Nrm]
    that faces it ([I . Nrm <= 0]) and the ratio [eta] of the refractive
    indices, with [k = 1 - eta^2 (1 - (I . Nrm)^2)]: total internal
    reflection ([k < 0]) is reported as {1, 0, 0}; otherwise [r] is a unit
    vector, its component along the normal is [- sqrt k], and its
    component across the normal is [eta] times that of [I]. *)
Definition snell (I Nrm : vec3 R) (eta : R) (r : vec3 R) : Prop :=
  let k := (1 - eta * eta * (1 - dot ideal I Nrm * dot ideal I Nrm))%R in
  ((k < 0)%R -> r = vec3_of_Z ideal 1 0 0)
  /\ ((0 <= k)%R ->
      dot ideal r r = 1%R
      /\ dot ideal r Nrm = (- sqrt k)%R
      /\ vsub ideal r (vscale ideal Nrm (dot ideal r Nrm))
         = vscale ideal (vsub ideal I (vscale ideal Nrm (dot ideal I Nrm)))
                  eta).

(** *** More example inputs *)

(** The vector (2^-80, 0, -0): its squared length underflows to 0. *)
Definition tiny_vec : vec3 (F ieee) :=
  mk_vec3 (S754_finite false 8388608 (-103)) (S754_zero false)
          (S754_zero true).

(** A ray over the reals that enters the box through its face z = -9. *)
Definition front_orig : vec3 R := mk_vec3 0%R (-1)%R 0%R.
Definition front_dir : vec3 R := mk_vec3 1%R 1%R (-20)%R.

(** *** Rays with NaN *)

(** Some component of [v] is NaN. *)
Definition has_nan (v : vec3 (F ieee)) : bool :=
  is_nan (vx v) || is_nan (vy v) || is_nan (vz v).

(** The vector whose components are all NaN. *)
Definition nan_vec : vec3 (F ieee) := mk_vec3 S754_nan S754_nan S754_nan.

(** *** Exact cases of binary32 arithmetic *)



(* ================================================================== *)
(** ** Lemmas *)

(** *** The tests of scene_intersect, over any arithmetic *)

Section CandidateFacts.
Variable A : arith.

(** The plane test of the source is [plane_hit] followed by the
    comparison with the running nearest distance. *)
Lemma plane_step_hit (orig dir : vec3 (F A)) (st : scene_state (F A)) :
  plane_step A orig dir st =
  match plane_hit A orig dir with
  | Some (d, p) =>
      if flt A d (nearest_dist st)
      then mk_scene_state d p (vec3_of_Z A 0 1 0)
             (set_diffuse_color A (material st) (checker_color A p))
      else st
  | None => st
  end.
Proof.
  unfold plane_step, plane_hit.
  destruct (gt_dlit A (fabs A (vy dir)) 1 1000); [|reflexivity].
  cbv zeta.
  set (d := plane_dist A orig dir).
  set (p := vadd A orig (vscale A dir d)).
  destruct (flt A d (nearest_dist st)) eqn:E;
    destruct (gt_dlit A d 1 1000), (flt A (fabs A (vx p)) (f_of_Z A 12)),
      (flt A (vz p) (f_of_Z A (-12))), (fgt A (vz p) (f_of_Z A (-28)));
    simpl; rewrite ?E; reflexivity.
Qed.

Lemma plane_hit_inv (orig dir : vec3 (F A)) d p :
  plane_hit A orig dir = Some (d, p) ->
  d = plane_dist A orig dir /\ p = vadd A orig (vscale A dir d)
  /\ gt_dlit A (fabs A (vy dir)) 1 1000 = true
  /\ gt_dlit A d 1 1000 = true
  /\ flt A (fabs A (vx p)) (f_of_Z A 12) = true
  /\ flt A (vz p) (f_of_Z A (-12)) = true
  /\ fgt A (vz p) (f_of_Z A (-28)) = true.
Proof.
  unfold plane_hit.
  destruct (gt_dlit A (fabs A (vy dir)) 1 1000); [|intros H; inversion H].
  cbv zeta.
  set (d0 := plane_dist A orig dir).
  set (p0 := vadd A orig (vscale A dir d0)).
  destruct (gt_dlit A d0 1 1000) eqn:E1,
    (flt A (fabs A (vx p0)) (f_of_Z A 12)) eqn:E2,
    (flt A (vz p0) (f_of_Z A (-12))) eqn:E3,
    (fgt A (vz p0) (f_of_Z A (-28))) eqn:E4;
    simpl; intros H; inversion H; subst d p; repeat split; assumption.
Qed.

Lemma ray_sphere_hit_inv (orig dir : vec3 (F A)) (s : Sphere (F A)) t :
  ray_sphere_intersect A orig dir s = (true, t) ->
  gt_dlit A t 1 1000 = true.
Proof.
  unfold ray_sphere_intersect. cbv zeta.
  set (tca := dot A (vsub A (s_center s) orig) dir).
  set (thc := fsqrt A _).
  destruct (fgt A _ _); [intros H; inversion H|].
  destruct (gt_dlit A (fsub A tca thc) 1 1000) eqn:E0.
  - intros H; inversion H; subst; exact E0.
  - destruct (gt_dlit A (fadd A tca thc) 1 1000) eqn:E1;
      intros H; inversion H; subst; exact E1.
Qed.

Lemma ray_cube_hit_inv (orig dir : vec3 (F A)) (c : Cube (F A)) t n :
  ray_cube_intersect A orig dir c = (true, t, n) ->
  fgt A t (f_of_Z A 0) = true.
Proof.
  unfold ray_cube_intersect, cube_miss. cbv zeta.
  destruct (order_pair A _ _) as [tmin tmax].
  destruct (order_pair A _ _) as [tymin tymax].
  destruct (_ || _); [intros H; inversion H|].
  destruct (order_pair A _ _) as [tzmin tzmax].
  destruct (_ || _); [intros H; inversion H|].
  destruct (fgt A _ (f_of_Z A 0)) eqn:E; intros H; inversion H; subst.
  exact E.
Qed.

Lemma sphere_step_farther (orig dir : vec3 (F A)) (st : scene_state (F A)) s :
  sphere_farther A orig dir (nearest_dist st) s ->
  sphere_step A orig dir st s = st.
Proof.
  unfold sphere_farther, sphere_step.
  destruct (ray_sphere_intersect A orig dir s) as [hit t]. simpl.
  intros [->| ->]; [reflexivity|]. destruct hit; reflexivity.
Qed.

Lemma spheres_fold_farther (orig dir : vec3 (F A)) (st : scene_state (F A)) l :
  (forall s, In s l -> sphere_farther A orig dir (nearest_dist st) s) ->
  fold_left (sphere_step A orig dir) l st = st.
Proof.
  induction l as [|s l IH]; intros H; simpl; [reflexivity|].
  rewrite sphere_step_farther by (apply H; left; reflexivity).
  apply IH. intros s' Hs'. apply H; right; exact Hs'.
Qed.

Lemma cube_step_not_nearer (orig dir : vec3 (F A)) (st : scene_state (F A)) :
  cube_not_nearer A orig dir (nearest_dist st) ->
  cube_step A orig dir st = st.
Proof.
  unfold cube_not_nearer, cube_step.
  destruct (ray_cube_intersect A orig dir (cube A)) as [[hit t] n]. simpl.
  intros [->| ->]; [reflexivity|]. destruct hit; reflexivity.
Qed.

Lemma scene_final_plane (orig dir : vec3 (F A)) d p :
  plane_hit A orig dir = Some (d, p) ->
  flt A d (nearest_dist (scene_init A)) = true ->
  (forall s, In s (spheres A) -> sphere_farther A orig dir d s) ->
  cube_not_nearer A orig dir d ->
  scene_final A orig dir = plane_record A d p.
Proof.
  intros Hp Hd Hs Hc. unfold scene_final.
  rewrite plane_step_hit, Hp, Hd.
  fold (plane_record A d p).
  rewrite spheres_fold_farther by exact Hs.
  apply cube_step_not_nearer. exact Hc.
Qed.

Ltac break_flt :=
  match goal with
  | |- context [flt A ?a ?b] => destruct (flt A a b) eqn:?
  end.

Lemma ray_cube_hit_normal (orig dir : vec3 (F A)) (c : Cube (F A)) t n :
  ray_cube_intersect A orig dir c = (true, t, n) ->
  let cc := c_center c in
  let sz := size c in
  n = mk_vec3 (cube_axis A t (vx cc) (vx orig) (vx dir) sz)
              (cube_axis A t (vy cc) (vy orig) (vy dir) sz)
              (cube_axis A t (vz cc) (vz orig) (vz dir) sz)
  /\ (t = slab_lo A (vx cc) (vx orig) (vx dir) sz
      \/ t = slab_hi A (vx cc) (vx orig) (vx dir) sz
      \/ t = slab_lo A (vy cc) (vy orig) (vy dir) sz
      \/ t = slab_hi A (vy cc) (vy orig) (vy dir) sz
      \/ t = slab_lo A (vz cc) (vz orig) (vz dir) sz
      \/ t = slab_hi A (vz cc) (vz orig) (vz dir) sz).
Proof.
  unfold ray_cube_intersect, order_pair, cube_miss, cube_axis, fgt.
  cbv zeta.
  set (x0 := slab_lo A (vx (c_center c)) (vx orig) (vx dir) (size c)).
  set (x1 := slab_hi A (vx (c_center c)) (vx orig) (vx dir) (size c)).
  set (y0 := slab_lo A (vy (c_center c)) (vy orig) (vy dir) (size c)).
  set (y1 := slab_hi A (vy (c_center c)) (vy orig) (vy dir) (size c)).
  set (z0 := slab_lo A (vz (c_center c)) (vz orig) (vz dir) (size c)).
  set (z1 := slab_hi A (vz (c_center c)) (vz orig) (vz dir) (size c)).
  repeat (break_flt; cbn [orb fst snd]);
    intros H; inversion H; subst t n; split; try reflexivity; tauto.
Qed.

End CandidateFacts.

(** *** Facts about IEEE comparisons *)

Module Cmp.

Lemma ltb_not_nan (a b : spec_float) :
  SFltb a b = true -> is_nan a = false /\ is_nan b = false.
Proof. destruct a, b; simpl; auto; discriminate. Qed.

Lemma eqb_refl (a : spec_float) : is_nan a = false -> SFeqb a a = true.
Proof.
  destruct a as [s|s| |s m e]; simpl; try easy.
  - destruct s; reflexivity.
  - intros _. unfold SFeqb; simpl.
    rewrite Z.compare_refl.
    change (Pos.compare_cont Eq m m) with (Pos.compare m m).
    rewrite Pos.compare_refl. destruct s; reflexivity.
Qed.

Lemma mag_lt e1 m1 e2 m2 :
  mag e1 m1 e2 m2 = Lt <-> (e1 < e2 \/ (e1 = e2 /\ (m1 < m2)%positive)).
Proof.
  unfold mag. destruct (Z.compare_spec e1 e2); destruct (Pos.compare_spec m1 m2);
    split; intros; try discriminate; try lia; auto.
Qed.

Lemma mag_eq e1 m1 e2 m2 :
  mag e1 m1 e2 m2 = Eq <-> (e1 = e2 /\ m1 = m2).
Proof.
  unfold mag. destruct (Z.compare_spec e1 e2); destruct (Pos.compare_spec m1 m2);
    split; intros; try discriminate; try lia; auto.
Qed.

Lemma mag_gt e1 m1 e2 m2 :
  mag e1 m1 e2 m2 = Gt <-> (e2 < e1 \/ (e1 = e2 /\ (m2 < m1)%positive)).
Proof.
  unfold mag. destruct (Z.compare_spec e1 e2); destruct (Pos.compare_spec m1 m2);
    split; intros; try discriminate; try lia; auto.
Qed.

Lemma compare_finite s1 m1 e1 s2 m2 e2 :
  SFcompare (S754_finite s1 m1 e1) (S754_finite s2 m2 e2) =
  Some match s1, s2 with
       | true, false => Lt
       | false, true => Gt
       | false, false => mag e1 m1 e2 m2
       | true, true => CompOpp (mag e1 m1 e2 m2)
       end.
Proof.
  unfold mag; simpl. destruct s1, s2; try reflexivity;
    destruct (Z.compare e1 e2); reflexivity.
Qed.

Lemma ltb_rank (a b : spec_float) :
  is_nan a = false -> is_nan b = false ->
  (SFltb a b = true <-> lex_lt (rank a) (rank b)).
Proof.
  intros Ha Hb. unfold SFltb.
  destruct a as [s1|s1| |s1 m1 e1]; try discriminate;
    destruct b as [s2|s2| |s2 m2 e2]; try discriminate;
    try rewrite compare_finite;
    try (destruct s1; destruct s2; simpl; split; intros; try discriminate; try lia; auto; fail);
    try (destruct s1; simpl; split; intros; try discriminate; try lia; auto; fail);
    try (destruct s2; simpl; split; intros; try discriminate; try lia; auto; fail).
  destruct s1, s2; simpl.
  - destruct (mag e1 m1 e2 m2) eqn:E; simpl; split; intros; try discriminate; auto.
    + apply mag_eq in E. lia.
    + apply mag_lt in E. lia.
    + apply mag_gt in E. lia.
  - split; intros; auto; lia.
  - split; intros; try discriminate; lia.
  - destruct (mag e1 m1 e2 m2) eqn:E; simpl; split; intros; try discriminate; auto.
    + apply mag_eq in E. lia.
    + apply mag_lt in E. lia.
    + apply mag_gt in E. lia.
Qed.

Lemma leb_rank (a b : spec_float) :
  is_nan a = false -> is_nan b = false ->
  (SFleb a b = true <-> lex_le (rank a) (rank b)).
Proof.
  intros Ha Hb. unfold SFleb, lex_le.
  destruct a as [s1|s1| |s1 m1 e1]; try discriminate;
    destruct b as [s2|s2| |s2 m2 e2]; try discriminate;
    try rewrite compare_finite;
    try (destruct s1; destruct s2; simpl; split; intros; try discriminate; try lia; auto;
         try (destruct H as [H|H]; [lia|discriminate]); fail);
    try (destruct s1; simpl; split; intros; try discriminate; try lia; auto;
         try (destruct H as [H|H]; [lia|discriminate]); fail);
    try (destruct s2; simpl; split; intros; try discriminate; try lia; auto;
         try (destruct H as [H|H]; [lia|discriminate]); fail).
  destruct s1, s2; simpl.
  - destruct (mag e1 m1 e2 m2) eqn:E; simpl; split; intros; try discriminate; auto.
    + apply mag_eq in E. right. f_equal; [f_equal|]; lia.
    + apply mag_lt in E. destruct H as [H|H]; [lia|]. inversion H. lia.
    + apply mag_gt in E. left. lia.
  - split; intros; auto. left; lia.
  - split; intros; try discriminate. destruct H as [H|H]; [lia|discriminate].
  - destruct (mag e1 m1 e2 m2) eqn:E; simpl; split; intros; try discriminate; auto.
    + apply mag_eq in E. right. f_equal; [f_equal|]; lia.
    + apply mag_lt in E. left. lia.
    + apply mag_gt in E. destruct H as [H|H]; [lia|]. inversion H. lia.
Qed.

Lemma leb_not_nan (a b : spec_float) :
  SFleb a b = true -> is_nan a = false /\ is_nan b = false.
Proof. destruct a, b; simpl; auto; discriminate. Qed.

Lemma lex_total p q : lex_lt p q \/ lex_le q p.
Proof.
  destruct p as [[a1 b1] c1], q as [[a2 b2] c2]; unfold lex_le, lex_lt.
  destruct (Z.lt_total a1 a2) as [?|[?|?]]; auto;
    destruct (Z.lt_total b1 b2) as [?|[?|?]]; auto;
    destruct (Z.lt_total c1 c2) as [?|[?|?]]; auto; subst; intuition.
Qed.

Lemma lex_le_trans p q r : lex_le p q -> lex_le q r -> lex_le p r.
Proof.
  destruct p as [[a1 b1] c1], q as [[a2 b2] c2], r as [[a3 b3] c3].
  unfold lex_le, lex_lt.
  intros [H1|H1] [H2|H2]; try (inversion H1; subst); try (inversion H2; subst);
    auto; left; lia.
Qed.

Lemma lex_lt_irrefl p q : lex_lt p q -> lex_le q p -> False.
Proof.
  destruct p as [[a1 b1] c1], q as [[a2 b2] c2]; unfold lex_le, lex_lt.
  intros H1 [H2|H2]; [lia | inversion H2; subst; lia].
Qed.

(** [!(a < b)] gives [b <= a] once neither side is NaN. *)
Lemma leb_total (a b : spec_float) :
  is_nan a = false -> is_nan b = false ->
  SFltb a b = false -> SFleb b a = true.
Proof.
  intros Ha Hb H. apply leb_rank; auto.
  destruct (lex_total (rank a) (rank b)) as [L|L]; auto.
  apply ltb_rank in L; auto. congruence.
Qed.

Lemma leb_trans (a b c : spec_float) :
  SFleb a b = true -> SFleb b c = true -> SFleb a c = true.
Proof.
  intros H1 H2.
  destruct (leb_not_nan _ _ H1) as [Ha Hb], (leb_not_nan _ _ H2) as [_ Hc].
  apply leb_rank in H1, H2; auto. apply leb_rank; auto.
  eapply lex_le_trans; eauto.
Qed.

Lemma ltb_leb (a b : spec_float) : SFltb a b = true -> SFleb a b = true.
Proof.
  intros H. destruct (ltb_not_nan _ _ H) as [Ha Hb].
  apply leb_rank; auto. left. apply ltb_rank; auto.
Qed.

Lemma leb_refl (a : spec_float) : is_nan a = false -> SFleb a a = true.
Proof. intros H. apply leb_rank; auto. right; reflexivity. Qed.

(** [a <= b] excludes [b < a]. *)
Lemma leb_not_ltb (a b : spec_float) : SFleb a b = true -> SFltb b a = false.
Proof.
  intros H. destruct (leb_not_nan _ _ H) as [Ha Hb].
  destruct (SFltb b a) eqn:E; auto.
  apply ltb_rank in E; auto. apply leb_rank in H; auto.
  exfalso; eapply lex_lt_irrefl; eauto.
Qed.

Lemma ltb_asym (a b : spec_float) : SFltb a b = true -> SFltb b a = false.
Proof. intros H. apply leb_not_ltb, ltb_leb, H. Qed.

Lemma ltb_leb_trans (a b c : spec_float) :
  SFltb a b = true -> SFleb b c = true -> SFltb a c = true.
Proof.
  intros H1 H2.
  destruct (ltb_not_nan _ _ H1) as [Ha Hb], (leb_not_nan _ _ H2) as [_ Hc].
  destruct (SFltb a c) eqn:E; auto.
  apply leb_total in E; auto.
  pose proof (leb_trans _ _ _ H2 E) as H3.
  apply leb_not_ltb in H3. congruence.
Qed.

Lemma leb_ltb_trans (a b c : spec_float) :
  SFleb a b = true -> SFltb b c = true -> SFltb a c = true.
Proof.
  intros H1 H2.
  destruct (leb_not_nan _ _ H1) as [Ha Hb], (ltb_not_nan _ _ H2) as [_ Hc].
  destruct (SFltb a c) eqn:E; auto.
  apply leb_total in E; auto.
  pose proof (leb_trans _ _ _ E H1) as H3.
  apply leb_not_ltb in H3. congruence.
Qed.

End Cmp.

(** *** scene_intersect keeps the nearest candidate *)

Module Nearest.
Import Cmp.

Lemma gt_dlit_not_nan (x : spec_float) (n d : Z) :
  gt_dlit ieee x n d = true -> is_nan x = false.
Proof.
  unfold gt_dlit; simpl. intros H.
  apply ltb_not_nan in H. destruct H as [_ H].
  destruct x; try reflexivity. discriminate H.
Qed.

Lemma plane_hit_not_nan (orig dir : vec3 (F ieee)) d p :
  plane_hit ieee orig dir = Some (d, p) -> is_nan d = false.
Proof.
  intros H. apply plane_hit_inv in H.
  destruct H as (_ & _ & _ & H & _). exact (gt_dlit_not_nan _ _ _ H).
Qed.

Lemma sphere_hit_not_nan (orig dir : vec3 (F ieee)) (s : Sphere (F ieee)) t :
  ray_sphere_intersect ieee orig dir s = (true, t) -> is_nan t = false.
Proof.
  intros H. apply ray_sphere_hit_inv in H. exact (gt_dlit_not_nan _ _ _ H).
Qed.

Lemma cube_hit_positive (orig dir : vec3 (F ieee)) (c : Cube (F ieee)) t n :
  ray_cube_intersect ieee orig dir c = (true, t, n) ->
  SFltb (B32.of_Z 0) t = true.
Proof. intros H. apply ray_cube_hit_inv in H. exact H. Qed.

Lemma sentinel_not_nan : is_nan sentinel = false.
Proof. vm_compute. reflexivity. Qed.

Lemma keeps_plane (orig dir : vec3 (F ieee)) :
  keeps (plane_candidates ieee orig dir)
        (plane_step ieee orig dir (scene_init ieee)).
Proof.
  rewrite plane_step_hit. unfold plane_candidates.
  destruct (plane_hit ieee orig dir) as [[d p]|] eqn:E.
  - pose proof (plane_hit_not_nan _ _ _ _ E) as Hd.
    change (material (scene_init ieee)) with (Material_default ieee).
    change (nearest_dist (scene_init ieee)) with sentinel.
    fold (plane_record ieee d p).
    destruct (flt ieee d sentinel) eqn:L.
    + split; [exact Hd|]. split; [|split].
      * right; left; reflexivity.
      * apply ltb_leb; exact L.
      * intros c [<-|[]]. apply leb_refl; exact Hd.
    + split; [exact sentinel_not_nan|]. split; [|split].
      * left; reflexivity.
      * apply leb_refl, sentinel_not_nan.
      * intros c [<-|[]].
        apply leb_total; [exact Hd|exact sentinel_not_nan|exact L].
  - split; [exact sentinel_not_nan|]. split; [|split].
    + left; reflexivity.
    + apply leb_refl, sentinel_not_nan.
    + intros c [].
Qed.

Lemma keeps_sphere (orig dir : vec3 (F ieee)) cs st (s : Sphere (F ieee)) :
  keeps cs st ->
  keeps (cs ++ sphere_candidate ieee orig dir s) (sphere_step ieee orig dir st s).
Proof.
  intros (Hn & Hin & Hs & Hall).
  unfold sphere_step, sphere_candidate.
  destruct (ray_sphere_intersect ieee orig dir s) as [hit t] eqn:E.
  destruct hit; cbn [negb orb].
  - pose proof (sphere_hit_not_nan _ _ _ _ E) as Ht.
    fold (sphere_record ieee orig dir s t).
    destruct (fgt ieee t (nearest_dist st)) eqn:G; unfold fgt in G.
    + split; [exact Hn|]. split; [|split; [exact Hs|]].
      * destruct Hin; auto. right; apply in_or_app; auto.
      * intros c Hc. apply in_app_or in Hc. destruct Hc as [Hc|[<-|[]]]; auto.
        apply ltb_leb; exact G.
    + assert (Hle : SFleb t (nearest_dist st) = true)
        by (apply leb_total; auto).
      split; [exact Ht|]. split; [|split].
      * right; apply in_or_app; right; left; reflexivity.
      * eapply leb_trans; [exact Hle|exact Hs].
      * intros c Hc. apply in_app_or in Hc.
        destruct Hc as [Hc|[<-|[]]].
        -- eapply leb_trans; [exact Hle|]. apply Hall; exact Hc.
        -- apply leb_refl; exact Ht.
  - rewrite app_nil_r. repeat split; auto.
Qed.

Lemma keeps_spheres (orig dir : vec3 (F ieee)) (l : list (Sphere (F ieee))) :
  forall cs st,
    keeps cs st ->
    keeps (cs ++ flat_map (sphere_candidate ieee orig dir) l)
          (fold_left (sphere_step ieee orig dir) l st).
Proof.
  induction l as [|s l IH]; intros cs st H; simpl.
  - rewrite app_nil_r; exact H.
  - rewrite app_assoc. apply IH. apply keeps_sphere; exact H.
Qed.

Lemma keeps_cube (orig dir : vec3 (F ieee)) cs st :
  keeps cs st ->
  keeps (cs ++ cube_candidates ieee orig dir) (cube_step ieee orig dir st).
Proof.
  intros (Hn & Hin & Hs & Hall).
  unfold cube_step, cube_candidates.
  destruct (ray_cube_intersect ieee orig dir (cube ieee)) as [[hit t] n] eqn:E.
  destruct hit; cbn [andb].
  - pose proof (cube_hit_positive _ _ _ _ _ E) as Hp.
    apply ltb_not_nan in Hp. destruct Hp as [_ Ht].
    fold (cube_record ieee orig dir t n).
    destruct (flt ieee t (nearest_dist st)) eqn:G.
    + assert (Hle : SFleb t (nearest_dist st) = true)
        by (apply ltb_leb; exact G).
      split; [exact Ht|]. split; [|split].
      * right; apply in_or_app; right; left; reflexivity.
      * eapply leb_trans; [exact Hle|exact Hs].
      * intros c Hc. apply in_app_or in Hc.
        destruct Hc as [Hc|[<-|[]]].
        -- eapply leb_trans; [exact Hle|]. apply Hall; exact Hc.
        -- apply leb_refl; exact Ht.
    + split; [exact Hn|]. split; [|split; [exact Hs|]].
      * destruct Hin; auto. right; apply in_or_app; auto.
      * intros c Hc. apply in_app_or in Hc. destruct Hc as [Hc|[<-|[]]]; auto.
        apply leb_total; auto.
  - rewrite app_nil_r. repeat split; auto.
Qed.

Lemma keeps_final (orig dir : vec3 (F ieee)) :
  keeps (candidates ieee orig dir) (scene_final ieee orig dir).
Proof.
  unfold candidates, scene_final. rewrite app_assoc.
  apply keeps_cube, keeps_spheres, keeps_plane.
Qed.

End Nearest.

(** The final state of scene_intersect is the initial one, or the record
    of one of the three tests, with the distance that this test
    returned. *)
Lemma scene_final_cases (orig dir : vec3 (F ieee)) :
  let st := scene_final ieee orig dir in
  st = scene_init ieee
  \/ (exists d p, plane_hit ieee orig dir = Some (d, p)
                  /\ st = plane_record ieee d p)
  \/ (exists s d, In s (spheres ieee)
                  /\ ray_sphere_intersect ieee orig dir s = (true, d)
                  /\ st = sphere_record ieee orig dir s d)
  \/ (exists d n, ray_cube_intersect ieee orig dir (cube ieee) = (true, d, n)
                  /\ st = cube_record ieee orig dir d n).
Proof.
  cbv zeta.
  destruct (Nearest.keeps_final orig dir) as (_ & [E|Hin] & _);
    [left; exact E|right].
  unfold candidates in Hin.
  apply in_app_or in Hin. destruct Hin as [Hin|Hin];
    [|apply in_app_or in Hin; destruct Hin as [Hin|Hin]].
  - left. unfold plane_candidates in Hin.
    destruct (plane_hit ieee orig dir) as [[d p]|]; [|destruct Hin].
    destruct Hin as [<-|[]]. exists d, p. split; reflexivity.
  - right; left. apply (proj1 (in_flat_map _ _ _)) in Hin.
    destruct Hin as (s & Hs & Hin). unfold sphere_candidate in Hin.
    destruct (ray_sphere_intersect ieee orig dir s) as [[|] d] eqn:E;
      [|destruct Hin].
    destruct Hin as [<-|[]]. exists s, d. repeat split; assumption.
  - right; right. unfold cube_candidates in Hin.
    destruct (ray_cube_intersect ieee orig dir (cube ieee)) as [[[|] d] n];
      [|destruct Hin].
    destruct Hin as [<-|[]]. exists d, n. split; reflexivity.
Qed.

(** *** Negation and rounding *)

(** Rounding to nearest-even is symmetric: negating the operands of a
    product or of a sum negates the result, except that a sum which is
    exactly zero is +0 both times. *)
Module Sym.
Import Cmp.

Lemma zeq_refl x : zeq x x.
Proof. left; reflexivity. Qed.

Lemma round_aux_opp prec emax s m e l :
  binary_round_aux prec emax (negb s) m e l
  = SFopp (binary_round_aux prec emax s m e l).
Proof.
  unfold binary_round_aux.
  destruct (shr_fexp prec emax m e l) as [mrs' e'].
  destruct (shr_fexp prec emax _ e' loc_Exact) as [mrs'' e''].
  destruct (shr_m mrs''); try reflexivity.
  destruct (e'' <=? emax - prec); reflexivity.
Qed.

Lemma round_opp prec emax s m e :
  binary_round prec emax (negb s) m e = SFopp (binary_round prec emax s m e).
Proof.
  unfold binary_round.
  destruct (shl_align m e _) as [mz ez]. apply round_aux_opp.
Qed.

Lemma normalize_opp prec emax z e :
  zeq (binary_normalize prec emax (- z) e false)
      (SFopp (binary_normalize prec emax z e false)).
Proof.
  destruct z as [|q|q]; simpl.
  - right; split; reflexivity.
  - left. apply (round_opp prec emax false).
  - left. apply (round_opp prec emax true).
Qed.

Lemma mul_opp_r x y : B32.mul x (SFopp y) = SFopp (B32.mul x y).
Proof.
  unfold B32.mul.
  destruct x as [sx|sx| |sx mx ex], y as [sy|sy| |sy my ey]; simpl;
    try reflexivity;
    try (destruct sx, sy; reflexivity).
  rewrite <- round_aux_opp. destruct sx, sy; reflexivity.
Qed.

Lemma cond_Zopp_negb s z : cond_Zopp (negb s) z = - cond_Zopp s z.
Proof. destruct s; simpl; lia. Qed.

Lemma add_opp x y :
  zeq (B32.add (SFopp x) (SFopp y)) (SFopp (B32.add x y)).
Proof.
  unfold B32.add.
  destruct x as [sx|sx| |sx mx ex], y as [sy|sy| |sy my ey]; simpl;
    try (left; reflexivity);
    try (destruct sx, sy; simpl; (left; reflexivity) || (right; split; reflexivity)).
  rewrite !cond_Zopp_negb, <- Z.opp_add_distr.
  apply normalize_opp.
Qed.

(** Addition does not see the sign of a zero operand, except to sign a
    zero result. *)
Lemma add_zeq_l x x' y : zeq x x' -> zeq (B32.add x y) (B32.add x' y).
Proof.
  intros [->|[Hx Hx']]; [apply zeq_refl|].
  destruct x as [sx| | |]; try discriminate Hx.
  destruct x' as [sx'| | |]; try discriminate Hx'.
  unfold B32.add.
  destruct y as [sy|sy| |sy my ey]; simpl; try (left; reflexivity).
  right. destruct sx, sx', sy; split; reflexivity.
Qed.

Lemma zeq_trans x y z : zeq x y -> zeq y z -> zeq x z.
Proof.
  intros [->|[H1 H2]] [->|[H3 H4]]; try (left; reflexivity);
    right; split; assumption.
Qed.

Lemma zeq_opp x y : zeq x y -> zeq (SFopp x) (SFopp y).
Proof.
  intros [->|[H1 H2]]; [apply zeq_refl|].
  right. destruct x, y; try discriminate; split; reflexivity.
Qed.

Lemma dot_opp (I Nrm : vec3 (F ieee)) :
  zeq (dot ieee I (vneg ieee Nrm)) (SFopp (dot ieee I Nrm)).
Proof.
  unfold dot, vneg. cbn [vx vy vz fadd fmul fopp ieee].
  rewrite !mul_opp_r.
  eapply zeq_trans; [|apply add_opp].
  apply add_zeq_l. apply add_opp.
Qed.

(** Comparisons do not see the sign of a zero. *)
Lemma zeq_ltb_l x x' y : zeq x x' -> SFltb x y = SFltb x' y.
Proof.
  intros [->|[Hx Hx']]; [reflexivity|].
  destruct x; try discriminate. destruct x'; try discriminate.
  destruct y; reflexivity.
Qed.

Lemma zeq_ltb_r x y y' : zeq y y' -> SFltb x y = SFltb x y'.
Proof.
  intros [->|[Hy Hy']]; [reflexivity|].
  destruct y; try discriminate. destruct y'; try discriminate.
  destruct x; reflexivity.
Qed.

Lemma zeq_nan x x' : zeq x x' -> is_nan x = is_nan x'.
Proof.
  intros [->|[Hx Hx']]; [reflexivity|].
  destruct x; try discriminate. destruct x'; try discriminate. reflexivity.
Qed.

End Sym.

(** *** The recursion of refract *)

Lemma refract_fuel_S (A : arith) (fuel : nat) (I Nrm : vec3 (F A)) eta_t eta_i :
  refract_fuel A (S fuel) I Nrm eta_t eta_i =
  if flt A (refract_cosi A I Nrm) (f_of_Z A 0)
  then refract_fuel A fuel I (vneg A Nrm) eta_i eta_t
  else Some (refract_body A I Nrm eta_t eta_i (refract_cosi A I Nrm)).
Proof. reflexivity. Qed.

Lemma refract_fuel_mono (A : arith) (fuel : nat) :
  forall (I Nrm : vec3 (F A)) eta_t eta_i r,
    refract_fuel A fuel I Nrm eta_t eta_i = Some r ->
    refract_fuel A (S fuel) I Nrm eta_t eta_i = Some r.
Proof.
  induction fuel as [|fuel IH]; intros I Nrm eta_t eta_i r H.
  - discriminate H.
  - rewrite refract_fuel_S in H. rewrite refract_fuel_S.
    destruct (flt A (refract_cosi A I Nrm) (f_of_Z A 0)); [|exact H].
    apply IH; exact H.
Qed.

Lemma refract_fuel_mono_le (A : arith) (n m : nat) I Nrm eta_t eta_i r :
  (n <= m)%nat ->
  refract_fuel A n I Nrm eta_t eta_i = Some r ->
  refract_fuel A m I Nrm eta_t eta_i = Some r.
Proof.
  induction 1 as [|m Hle IH]; intros H; [exact H|].
  apply refract_fuel_mono, IH, H.
Qed.

Lemma refract_returns_unique (A : arith) I Nrm eta_t eta_i r r' :
  refract_returns A I Nrm eta_t eta_i r ->
  refract_returns A I Nrm eta_t eta_i r' -> r = r'.
Proof.
  intros [n Hn] [m Hm].
  apply (refract_fuel_mono_le A n (Nat.max n m)) in Hn; [|lia].
  apply (refract_fuel_mono_le A m (Nat.max n m)) in Hm; [|lia].
  congruence.
Qed.

Module Refract.
Import Cmp Sym.

(** [cosi < 0] holds exactly when the dot product is NaN or positive:
    [std::min(1.f, NaN)] is [1.f], so a NaN gives [cosi = -1]. *)
Lemma cosi_negative (x : spec_float) :
  SFltb (SFopp (std_max ieee (B32.of_Z (-1)) (std_min ieee (B32.of_Z 1) x)))
        (B32.of_Z 0)
  = is_nan x || SFltb (B32.of_Z 0) x.
Proof.
  change (B32.of_Z 1) with (S754_finite false 8388608 (-23)).
  change (B32.of_Z (-1)) with (S754_finite true 8388608 (-23)).
  change (B32.of_Z 0) with (S754_zero false).
  unfold std_max, std_min. cbn [flt ieee]. unfold B32.ltb.
  destruct x as [s|s| |s m e].
  - destruct s; reflexivity.
  - destruct s; reflexivity.
  - reflexivity.
  - destruct s.
    + change (SFltb (S754_finite true m e) (S754_finite false 8388608 (-23)))
        with true. cbv iota.
      destruct (SFltb (S754_finite true 8388608 (-23)) (S754_finite true m e));
        reflexivity.
    + destruct (SFltb (S754_finite false m e) (S754_finite false 8388608 (-23)));
        reflexivity.
Qed.

Lemma refract_cosi_negative (I Nrm : vec3 (F ieee)) :
  flt ieee (refract_cosi ieee I Nrm) (f_of_Z ieee 0)
  = is_nan (dot ieee I Nrm) || SFltb (B32.of_Z 0) (dot ieee I Nrm).
Proof. apply cosi_negative. Qed.

Lemma positive_opp (x : spec_float) :
  SFltb (B32.of_Z 0) x = true ->
  is_nan (SFopp x) = false /\ SFltb (B32.of_Z 0) (SFopp x) = false.
Proof.
  change (B32.of_Z 0) with (S754_zero false).
  destruct x as [s|s| |s m e]; try discriminate; destruct s; try discriminate;
    intros _; split; reflexivity.
Qed.

Lemma nan_opp (x : spec_float) : is_nan (SFopp x) = is_nan x.
Proof. destruct x; reflexivity. Qed.

(** After one flip of the normal the dot product is negative: the second
    call returns. *)
Lemma refract_two_calls (I Nrm : vec3 (F ieee)) eta_t eta_i :
  is_nan (dot ieee I Nrm) = false ->
  exists r, forall n, refract_fuel ieee (2 + n) I Nrm eta_t eta_i = Some r.
Proof.
  intros Hn.
  destruct (flt ieee (refract_cosi ieee I Nrm) (f_of_Z ieee 0)) eqn:E.
  - pose proof E as E'. rewrite refract_cosi_negative, Hn in E'.
    cbn [orb] in E'. apply positive_opp in E'. destruct E' as [P1 P2].
    pose proof (dot_opp I Nrm) as Z.
    exists (refract_body ieee I (vneg ieee Nrm) eta_i eta_t
              (refract_cosi ieee I (vneg ieee Nrm))).
    intros n. change (2 + n)%nat with (S (S n)).
    rewrite refract_fuel_S, E, refract_fuel_S.
    rewrite refract_cosi_negative.
    rewrite (zeq_nan _ _ Z), (zeq_ltb_r _ _ _ Z), P1, P2. reflexivity.
  - exists (refract_body ieee I Nrm eta_t eta_i (refract_cosi ieee I Nrm)).
    intros n. change (2 + n)%nat with (S (S n)).
    rewrite refract_fuel_S, E. reflexivity.
Qed.

(** With a NaN dot product every call flips the normal and calls again. *)
Lemma refract_nan_never_returns (fuel : nat) :
  forall (I Nrm : vec3 (F ieee)) eta_t eta_i,
    is_nan (dot ieee I Nrm) = true ->
    refract_fuel ieee fuel I Nrm eta_t eta_i = None.
Proof.
  induction fuel as [|fuel IH]; intros I Nrm eta_t eta_i Hn; [reflexivity|].
  rewrite refract_fuel_S, refract_cosi_negative, Hn. cbn [orb].
  apply IH. rewrite (zeq_nan _ _ (dot_opp I Nrm)), nan_opp. exact Hn.
Qed.

(** Two nested calls decide [refract]. *)
Lemma refract_fuel_stable (n : nat) (I Nrm : vec3 (F ieee)) eta_t eta_i :
  refract_fuel ieee (2 + n) I Nrm eta_t eta_i
  = refract_fuel ieee 2 I Nrm eta_t eta_i.
Proof.
  destruct (is_nan (dot ieee I Nrm)) eqn:Hn.
  - rewrite !refract_nan_never_returns by exact Hn. reflexivity.
  - destruct (refract_two_calls I Nrm eta_t eta_i Hn) as [r Hr].
    rewrite (Hr n). symmetry. exact (Hr 0%nat).
Qed.

Lemma refract_none_iff_nan (I Nrm : vec3 (F ieee)) eta_t eta_i :
  refract ieee I Nrm eta_t eta_i = None <-> is_nan (dot ieee I Nrm) = true.
Proof.
  unfold refract. split.
  - intros H. destruct (is_nan (dot ieee I Nrm)) eqn:Hn; [reflexivity|].
    destruct (refract_two_calls I Nrm eta_t eta_i Hn) as [r Hr].
    specialize (Hr 0%nat). change (2 + 0)%nat with 2%nat in Hr. congruence.
  - apply refract_nan_never_returns.
Qed.

End Refract.

(** *** The recursion of cast_ray *)

Section CastRay.
Variable A : arith.
Variable powf : F A -> F A -> F A.

Lemma cast_ray_fuel_S (fuel : nat) (orig dir : vec3 (F A)) (depth : Z) :
  cast_ray_fuel A powf (S fuel) orig dir depth =
  let '(hit, point, Nrm, m) := scene_intersect A orig dir in
  if (depth >? 4) || negb hit then Some (background A)
  else
    match refract A dir Nrm (refractive_index m) (f_of_Z A 1) with
    | None => None
    | Some r =>
        match cast_ray_fuel A powf fuel point
                (normalized A (reflect A dir Nrm)) (depth + 1) with
        | None => None
        | Some reflect_color =>
            match cast_ray_fuel A powf fuel point (normalized A r) (depth + 1) with
            | None => None
            | Some refract_color =>
                let '(diffuse, specular) :=
                  fold_left (light_step A powf point Nrm dir m) (lights A)
                            (f_of_Z A 0, f_of_Z A 0) in
                Some (shade A m diffuse specular reflect_color refract_color)
            end
        end
    end.
Proof. reflexivity. Qed.

(** The base case: beyond the depth ceiling, or without a hit, the
    background colour is returned and no further call is made. *)
Lemma cast_ray_base (fuel : nat) (orig dir : vec3 (F A)) (depth : Z) :
  depth > 4 \/ fst (fst (fst (scene_intersect A orig dir))) = false ->
  cast_ray_fuel A powf (S fuel) orig dir depth = Some (background A).
Proof.
  intros H. rewrite cast_ray_fuel_S.
  destruct (scene_intersect A orig dir) as [[[hit point] Nrm] m].
  cbn [fst] in H.
  destruct H as [H|H].
  - replace (depth >? 4) with true by (symmetry; apply Z.gtb_lt; lia).
    reflexivity.
  - rewrite H. rewrite orb_true_r. reflexivity.
Qed.

(** Once the nesting allowed exceeds the levels left below the ceiling,
    the outcome no longer depends on it. *)
Lemma cast_ray_fuel_levels (k : nat) :
  forall (fuel1 fuel2 : nat) (orig dir : vec3 (F A)) (depth : Z),
    5 - depth <= Z.of_nat k -> (k < fuel1)%nat -> (k < fuel2)%nat ->
    cast_ray_fuel A powf fuel1 orig dir depth
    = cast_ray_fuel A powf fuel2 orig dir depth.
Proof.
  induction k as [|k IH]; intros fuel1 fuel2 orig dir depth Hd H1 H2;
    (destruct fuel1 as [|fuel1]; [lia|]);
    (destruct fuel2 as [|fuel2]; [lia|]).
  - rewrite !cast_ray_base by (left; lia). reflexivity.
  - rewrite !cast_ray_fuel_S.
    destruct (scene_intersect A orig dir) as [[[hit point] Nrm] m].
    destruct (Z.gtb_spec depth 4) as [Hg|Hg]; [reflexivity|].
    cbn [orb]. destruct (negb hit); [reflexivity|].
    destruct (refract A dir Nrm (refractive_index m) (f_of_Z A 1)) as [r|];
      [|reflexivity].
    rewrite (IH fuel1 fuel2 point (normalized A (reflect A dir Nrm)) (depth + 1))
      by lia.
    rewrite (IH fuel1 fuel2 point (normalized A r) (depth + 1)) by lia.
    reflexivity.
Qed.

Lemma cast_ray_fuel_stable (fuel : nat) (orig dir : vec3 (F A)) (depth : Z) :
  (Z.to_nat (5 - depth) < fuel)%nat ->
  cast_ray_fuel A powf fuel orig dir depth = cast_ray A powf orig dir depth.
Proof.
  intros H. unfold cast_ray.
  apply (cast_ray_fuel_levels (Z.to_nat (5 - depth))); lia.
Qed.

Lemma cast_ray_fuel_mono (fuel : nat) :
  forall (orig dir : vec3 (F A)) (depth : Z) c,
    cast_ray_fuel A powf fuel orig dir depth = Some c ->
    cast_ray_fuel A powf (S fuel) orig dir depth = Some c.
Proof.
  induction fuel as [|fuel IH]; intros orig dir depth c H; [discriminate H|].
  rewrite cast_ray_fuel_S in H. rewrite cast_ray_fuel_S.
  destruct (scene_intersect A orig dir) as [[[hit point] Nrm] m].
  destruct ((depth >? 4) || negb hit); [exact H|].
  destruct (refract A dir Nrm (refractive_index m) (f_of_Z A 1)) as [r|];
    [|discriminate H].
  destruct (cast_ray_fuel A powf fuel point _ (depth + 1)) as [c1|] eqn:E1;
    [|discriminate H].
  rewrite (IH _ _ _ _ E1).
  destruct (cast_ray_fuel A powf fuel point (normalized A r) (depth + 1))
    as [c2|] eqn:E2; [|discriminate H].
  rewrite (IH _ _ _ _ E2). exact H.
Qed.

Lemma cast_ray_fuel_mono_le (n m : nat) (orig dir : vec3 (F A)) (depth : Z) c :
  (n <= m)%nat ->
  cast_ray_fuel A powf n orig dir depth = Some c ->
  cast_ray_fuel A powf m orig dir depth = Some c.
Proof.
  induction 1 as [|m Hle IH]; intros H; [exact H|].
  apply cast_ray_fuel_mono, IH, H.
Qed.

(** No result within the levels of the ceiling: no result at all. *)
Lemma cast_ray_none_forever (orig dir : vec3 (F A)) (depth : Z) :
  cast_ray A powf orig dir depth = None ->
  forall fuel, cast_ray_fuel A powf fuel orig dir depth = None.
Proof.
  intros H fuel.
  destruct (Nat.lt_ge_cases (Z.to_nat (5 - depth)) fuel) as [L|L].
  - rewrite cast_ray_fuel_stable by exact L. exact H.
  - destruct (cast_ray_fuel A powf fuel orig dir depth) as [c|] eqn:E;
      [|reflexivity].
    apply (cast_ray_fuel_mono_le fuel (S (Z.to_nat (5 - depth)))) in E; [|lia].
    unfold cast_ray in H. congruence.
Qed.

End CastRay.

Lemma cast_ray_fuel_none_iff (powf : spec_float -> spec_float -> spec_float)
    (fuel : nat) :
  forall (orig dir : vec3 (F ieee)) (depth : Z),
    (0 < fuel)%nat -> 5 - depth < Z.of_nat fuel ->
    (cast_ray_fuel ieee powf fuel orig dir depth = None
     <-> dot_nan_reached fuel orig dir depth = true).
Proof.
  induction fuel as [|fuel IH]; intros orig dir depth H0 Hd; [lia|].
  rewrite cast_ray_fuel_S. cbn [dot_nan_reached].
  destruct (scene_intersect ieee orig dir) as [[[hit point] Nrm] m].
  destruct (Z.gtb_spec depth 4) as [Hg|Hg]; cbn [orb].
  { split; intros H; discriminate H. }
  destruct (negb hit).
  { split; intros H; discriminate H. }
  destruct (is_nan (dot ieee dir Nrm)) eqn:Hn.
  - apply (Refract.refract_none_iff_nan dir Nrm (refractive_index m)
             (f_of_Z ieee 1)) in Hn.
    rewrite Hn. split; reflexivity.
  - destruct (refract ieee dir Nrm (refractive_index m) (f_of_Z ieee 1))
      as [r|] eqn:Er.
    2:{ apply Refract.refract_none_iff_nan in Er. congruence. }
    pose proof (IH point (normalized ieee (reflect ieee dir Nrm)) (depth + 1)
                  ltac:(lia) ltac:(lia)) as IH1.
    pose proof (IH point (normalized ieee r) (depth + 1)
                  ltac:(lia) ltac:(lia)) as IH2.
    destruct (cast_ray_fuel ieee powf fuel point
                (normalized ieee (reflect ieee dir Nrm)) (depth + 1)) as [c1|].
    + destruct (cast_ray_fuel ieee powf fuel point (normalized ieee r)
                  (depth + 1)) as [c2|].
      * destruct (fold_left _ _ _) as [diffuse specular].
        split; intros H; [discriminate H|].
        apply orb_true_iff in H. destruct H as [H|H].
        -- apply IH1 in H. discriminate H.
        -- apply IH2 in H. discriminate H.
      * split; intros _; [|reflexivity].
        apply orb_true_iff. right. apply IH2. reflexivity.
    + split; intros _; [|reflexivity].
      apply orb_true_iff. left. apply IH1. reflexivity.
Qed.

(** *** Truncation, floor and parity *)

(** Truncation and floor differ by one exactly on the negative values
    that are not integers. *)
Lemma floor_trunc_finite (s : bool) (m : positive) (e : Z) :
  floor_finite s m e =
  trunc_finite s m e
  - match e with
    | Zneg q => if s && negb (Zpos m mod 2 ^ Zpos q =? 0) then 1 else 0
    | _ => 0
    end.
Proof.
  unfold floor_finite, trunc_finite.
  destruct e as [|q|q]; try lia.
  assert (Hq : 0 < 2 ^ Zpos q) by (apply Z.pow_pos_nonneg; lia).
  destruct s; unfold cond_Zopp; cbn [andb]; [|lia].
  destruct (Z.eqb_spec (Zpos m mod 2 ^ Zpos q) 0) as [E|E]; cbn [negb].
  - rewrite Z.div_opp_l_z by lia. lia.
  - rewrite Z.div_opp_l_nz by lia. lia.
Qed.

Lemma land_1_odd (z : Z) : negb (Z.land z 1 =? 0) = Z.odd z.
Proof.
  change 1 with (Z.ones 1). rewrite Z.land_ones by lia.
  change (2 ^ 1) with 2. rewrite Zmod_odd.
  destruct (Z.odd z); reflexivity.
Qed.

(** [trunc_finite] is the integer part toward zero: its magnitude is the
    largest integer not above the magnitude [m * 2^e]. *)
Lemma trunc_finite_toward_zero (s : bool) (m : positive) (q : positive) :
  exists k, trunc_finite s m (Zneg q) = cond_Zopp s k
            /\ k * 2 ^ Zpos q <= Zpos m < (k + 1) * 2 ^ Zpos q.
Proof.
  exists (Zpos m / 2 ^ Zpos q). split; [reflexivity|].
  assert (Hq : 0 < 2 ^ Zpos q) by (apply Z.pow_pos_nonneg; lia).
  pose proof (Z.div_mod (Zpos m) (2 ^ Zpos q) ltac:(lia)) as E.
  pose proof (Z.mod_pos_bound (Zpos m) (2 ^ Zpos q) Hq) as B.
  nia.
Qed.

(** *** Signs of rounded results *)

Module Sign.

Lemma shr_1_nonneg mrs : 0 <= shr_m mrs -> 0 <= shr_m (shr_1 mrs).
Proof.
  destruct mrs as [m r s]. simpl.
  destruct m as [|[p|p|]|[p|p|]]; simpl; lia.
Qed.

Lemma iter_pos_nonneg p : forall mrs,
  0 <= shr_m mrs -> 0 <= shr_m (SpecFloat.iter_pos shr_1 p mrs).
Proof.
  induction p as [p IH|p IH|]; intros mrs H; simpl.
  - apply IH, IH, shr_1_nonneg, H.
  - apply IH, IH, H.
  - apply shr_1_nonneg, H.
Qed.

Lemma shr_fexp_nonneg prec emax m e l :
  0 <= m -> 0 <= shr_m (fst (shr_fexp prec emax m e l)).
Proof.
  intros H. unfold shr_fexp, shr.
  assert (H0 : 0 <= shr_m (shr_record_of_loc m l))
    by (destruct l as [|[]]; exact H).
  destruct (fexp prec emax (Zdigits2 m + e) - e); simpl; auto.
  apply iter_pos_nonneg, H0.
Qed.

Lemma round_nearest_even_nonneg m l : 0 <= m -> 0 <= round_nearest_even m l.
Proof.
  intros H. unfold round_nearest_even.
  destruct l as [|[]]; try destruct (Z.even m); lia.
Qed.

(** Rounding a non-negative mantissa gives the sign asked for, never
    NaN. *)
Lemma round_aux_sign prec emax s m e l :
  0 <= m -> has_sign s (binary_round_aux prec emax s m e l).
Proof.
  intros H. unfold binary_round_aux.
  pose proof (shr_fexp_nonneg prec emax m e l H) as H1.
  destruct (shr_fexp prec emax m e l) as [mrs' e']. simpl in H1.
  pose proof (shr_fexp_nonneg prec emax _ e' loc_Exact
                (round_nearest_even_nonneg _ (loc_of_shr_record mrs') H1))
    as H2.
  destruct (shr_fexp prec emax _ e' loc_Exact) as [mrs'' e'']. simpl in H2.
  destruct (shr_m mrs''); [reflexivity| |lia].
  destruct (e'' <=? emax - prec); reflexivity.
Qed.

Lemma round_sign prec emax s m e : has_sign s (binary_round prec emax s m e).
Proof.
  unfold binary_round. destruct (shl_align _ _ _) as [mz ez].
  apply round_aux_sign. lia.
Qed.

Lemma has_sign_nonneg x : has_sign false x -> nonneg x = true.
Proof.
  destruct x; simpl; intros H; try rewrite H; try reflexivity; contradiction.
Qed.

Lemma mul_self_nonneg x : is_nan x = false -> nonneg (B32.mul x x) = true.
Proof.
  unfold B32.mul. destruct x as [s|s| |s m e]; simpl; try discriminate;
    intros _; try (destruct s; reflexivity).
  apply has_sign_nonneg.
  replace (xorb s s) with false by (destruct s; reflexivity).
  apply round_aux_sign. lia.
Qed.

Lemma add_nonneg x y :
  nonneg x = true -> nonneg y = true -> nonneg (B32.add x y) = true.
Proof.
  unfold B32.add.
  destruct x as [sx|sx| |sx mx ex], y as [sy|sy| |sy my ey]; simpl;
    try discriminate; try (destruct sx; try discriminate);
    try (destruct sy; try discriminate); try reflexivity; intros _ _.
  simpl. apply has_sign_nonneg. apply round_sign.
Qed.

Lemma sqrt_nonneg x : nonneg x = true -> nonneg (B32.sqrt x) = true.
Proof.
  unfold B32.sqrt.
  destruct x as [s|s| |s m e]; simpl; try discriminate;
    destruct s; try discriminate; try reflexivity; intros _.
  unfold SFsqrt_core_binary.
  match goal with |- context [Z.sqrtrem ?n] =>
    pose proof (Z.sqrtrem_spec n) as Hs;
    assert (Hn : 0 <= n)
  end.
  { destruct (_ - _); try lia. rewrite Z.shiftl_mul_pow2 by lia. lia. }
  specialize (Hs Hn).
  destruct (Z.sqrtrem _) as [q r].
  apply has_sign_nonneg, round_aux_sign. lia.
Qed.

Lemma add_nan_r x : B32.add x S754_nan = S754_nan.
Proof. destruct x; reflexivity. Qed.

End Sign.

(** *** Commutativity, negation, and the sign of a zero *)

Module Alg.

Lemma mul_comm x y : B32.mul x y = B32.mul y x.
Proof.
  unfold B32.mul.
  destruct x as [sx|sx| |sx mx ex], y as [sy|sy| |sy my ey]; simpl;
    try reflexivity; try (rewrite xorb_comm; reflexivity).
  rewrite xorb_comm, Pos.mul_comm, Z.add_comm. reflexivity.
Qed.

Lemma add_comm x y : B32.add x y = B32.add y x.
Proof.
  unfold B32.add.
  destruct x as [sx|sx| |sx mx ex], y as [sy|sy| |sy my ey]; simpl;
    try reflexivity; try (destruct sx, sy; reflexivity).
  rewrite (Z.min_comm ey ex), Z.add_comm. reflexivity.
Qed.

Lemma mul_opp_l x y : B32.mul (SFopp x) y = SFopp (B32.mul x y).
Proof. rewrite mul_comm, Sym.mul_opp_r, mul_comm. reflexivity. Qed.

Lemma opp_involutive x : SFopp (SFopp x) = x.
Proof. destruct x; simpl; rewrite ?negb_involutive; reflexivity. Qed.

Lemma mul_zeq_r x y y' : zeq y y' -> zeq (B32.mul x y) (B32.mul x y').
Proof.
  intros [->|[Hy Hy']]; [apply Sym.zeq_refl|].
  destruct y as [sy| | |]; try discriminate Hy.
  destruct y' as [sy'| | |]; try discriminate Hy'.
  unfold B32.mul.
  destruct x as [sx|sx| |sx mx ex]; simpl;
    try (left; reflexivity); right; split; reflexivity.
Qed.

Lemma sub_zeq_r x y y' : zeq y y' -> zeq (B32.sub x y) (B32.sub x y').
Proof.
  intros [->|[Hy Hy']]; [apply Sym.zeq_refl|].
  destruct y as [sy| | |]; try discriminate Hy.
  destruct y' as [sy'| | |]; try discriminate Hy'.
  unfold B32.sub.
  destruct x as [sx|sx| |sx mx ex]; simpl; try (left; reflexivity).
  right. destruct sx, sy, sy'; split; reflexivity.
Qed.

Lemma sub_swap x y : zeq (B32.sub y x) (SFopp (B32.sub x y)).
Proof.
  unfold B32.sub.
  destruct x as [sx|sx| |sx mx ex], y as [sy|sy| |sy my ey]; simpl;
    try (left; reflexivity);
    try (destruct sx, sy; simpl;
         (left; reflexivity) || (right; split; reflexivity)).
  rewrite (Z.min_comm ey ex).
  match goal with
  | |- zeq (binary_normalize _ _ (?a - ?b) _ _) _ =>
      replace (a - b) with (- (b - a)) by lia
  end.
  apply Sym.normalize_opp.
Qed.

Lemma compare_opp a b : SFcompare (SFopp a) (SFopp b) = SFcompare b a.
Proof.
  destruct a as [sa|sa| |sa ma ea], b as [sb|sb| |sb mb eb]; simpl;
    try reflexivity; try (destruct sa; reflexivity);
    try (destruct sb; reflexivity); try (destruct sa, sb; reflexivity).
  rewrite (Z.compare_antisym eb ea).
  destruct sa, sb; simpl; try reflexivity;
    destruct (eb ?= ea); simpl; try reflexivity.
  - f_equal. exact (eq_sym (Pos.compare_cont_antisym mb ma Eq)).
  - f_equal. exact (Pos.compare_cont_antisym ma mb Eq).
Qed.

Lemma ltb_opp a b : SFltb (SFopp a) (SFopp b) = SFltb b a.
Proof. unfold SFltb. rewrite compare_opp. reflexivity. Qed.

Lemma sf_same_eq x y : sf_same x y = true -> x = y.
Proof.
  destruct x as [s|s| |s m e], y as [s'|s'| |s' m' e']; simpl;
    try discriminate; try reflexivity.
  - intros H. apply eqb_prop in H. congruence.
  - intros H. apply eqb_prop in H. congruence.
  - intros H. apply andb_true_iff in H. destruct H as [H He].
    apply andb_true_iff in H. destruct H as [Hs Hm].
    apply eqb_prop in Hs. apply Pos.eqb_eq in Hm. apply Z.eqb_eq in He.
    congruence.
Qed.

(** [std::max], where the first argument is not NaN. *)
Lemma std_max_ge_l a b : is_nan a = false -> SFleb a (std_max ieee a b) = true.
Proof.
  intros Ha. unfold std_max. cbn [flt ieee]. unfold B32.ltb.
  destruct (SFltb a b) eqn:E.
  - apply Cmp.ltb_leb, E.
  - apply Cmp.leb_refl, Ha.
Qed.

Lemma std_max_ge_r a b :
  is_nan a = false -> is_nan b = false -> SFleb b (std_max ieee a b) = true.
Proof.
  intros Ha Hb. unfold std_max. cbn [flt ieee]. unfold B32.ltb.
  destruct (SFltb a b) eqn:E.
  - apply Cmp.leb_refl, Hb.
  - apply Cmp.leb_total; assumption.
Qed.

Lemma std_max_not_nan a b :
  is_nan a = false -> is_nan (std_max ieee a b) = false.
Proof.
  intros Ha. unfold std_max. cbn [flt ieee]. unfold B32.ltb.
  destruct (SFltb a b) eqn:E; [|exact Ha].
  apply Cmp.ltb_not_nan in E. apply E.
Qed.

Lemma std_max_zero_nonneg x : nonneg (std_max ieee (B32.of_Z 0) x) = true.
Proof.
  unfold std_max. cbn [flt ieee]. unfold B32.ltb.
  change (B32.of_Z 0) with (S754_zero false).
  destruct x as [s|s| |s m e]; try reflexivity; destruct s; reflexivity.
Qed.

End Alg.

(** A float above the double 0.001 is above 0. *)
Lemma gt_dlit_positive (x : spec_float) :
  gt_dlit ieee x 1 1000 = true -> SFltb (B32.of_Z 0) x = true.
Proof.
  unfold gt_dlit. cbn [dlt d_lit d_of_f ieee]. unfold B64.ltb.
  change (B32.of_Z 0) with (S754_zero false).
  let v := eval vm_compute in (B64.lit 1 1000) in
  change (B64.lit 1 1000) with v.
  destruct x as [s|s| |s m e]; try (intros H; inversion H; fail).
  - destruct s; [intros H; inversion H|reflexivity].
  - destruct s; [|reflexivity].
    unfold B64.of_b32.
    pose proof (Sign.round_sign B64.prec B64.emax true m e) as Hs.
    destruct (binary_round B64.prec B64.emax true m e) as [s'|s'| |s' m' e'];
      cbn [has_sign] in Hs; try contradiction; subst s'; intros H;
      inversion H.
Qed.

(** *** Multiplication by 1, and sums with 0 *)

Module Exact.















End Exact.

(* ================================================================== *)
(** ** Theorems *)

(** *** cast_ray: termination *)



(** Outside the precondition, with a NaN in the direction: this ray hits
    the box at depth 0 with the normal {1,0,0}; the dot product dir.N is
    NaN, refract flips the normal and calls itself for ever, and cast_ray
    returns no colour, whatever the nesting allowed. *)
Lemma cast_ray_nan_direction_diverges :
  fst (fst (scene_intersect ieee nan_orig nan_dir))
    = (true, mk_vec3 (B32.of_Z 1) S754_nan (B32.of_Z (-10)))
  /\ snd (fst (scene_intersect ieee nan_orig nan_dir)) = vec3_of_Z ieee 1 0 0
  /\ dot ieee nan_dir (vec3_of_Z ieee 1 0 0) = S754_nan
  /\ (forall fuel eta_t eta_i,
         refract_fuel ieee fuel nan_dir (vec3_of_Z ieee 1 0 0) eta_t eta_i = None)
  /\ (forall powf, ~ exists fuel c,
         cast_ray_fuel ieee powf fuel nan_orig nan_dir 0 = Some c).
Proof.
  split; [vm_compute; reflexivity|].
  split; [vm_compute; reflexivity|].
  split; [vm_compute; reflexivity|].
  split.
  - intros fuel eta_t eta_i. apply Refract.refract_nan_never_returns.
    vm_compute. reflexivity.
  - intros powf (fuel & c & H).
    rewrite (cast_ray_none_forever ieee powf nan_orig nan_dir 0) in H;
      [discriminate H|].
    unfold cast_ray. apply cast_ray_fuel_none_iff; [lia|lia|].
    vm_compute. reflexivity.
Qed.

(** *** scene_intersect: the nearest candidate *)

(** C2.  For every ray origin and direction, scene_intersect tests the
    bounded ground plane (only when |dir.y| > 0.001, with a hit point whose
    x is in (-12,12) and z in (-28,-12)), then every sphere, then the box:
    the state it ends with is the initial one, with the sentinel 1e10, or
    one of the candidates; its distance is at most the sentinel and at most
    the distance of every candidate; and the hit flag is true if and only if
    that nearest distance is strictly less than 1000. *)
Theorem scene_intersect_nearest (orig dir : vec3 (F ieee)) :
  let st := scene_final ieee orig dir in
  (st = scene_init ieee \/ In st (candidates ieee orig dir))
  /\ nearest_dist (scene_init ieee) = sentinel
  /\ SFleb (nearest_dist st) sentinel = true
  /\ (forall c, In c (candidates ieee orig dir) ->
        SFleb (nearest_dist st) (nearest_dist c) = true)
  /\ scene_intersect ieee orig dir =
       (SFltb (nearest_dist st) (B32.of_Z 1000),
        pt st, N st, material st).
Proof.
  intros st.
  destruct (Nearest.keeps_final orig dir) as (_ & Hin & Hs & Hall).
  repeat split; auto.
Qed.

(** *** ray_sphere_intersect *)

Lemma ideal_gt_dlit (x : R) (n d : Z) :
  (IZR n / IZR d < x)%R -> gt_dlit ideal x n d = true.
Proof.
  intros H. unfold gt_dlit. cbn. unfold Ideal.ltb, Ideal.lit.
  destruct (Rlt_dec (IZR n / IZR d) x); [reflexivity|contradiction].
Qed.





(** *** ray_cube_intersect *)

(** C4, the code at the failing input.  Every corner P of the box has
    (P - orig) . dir < 0: the box lies behind the origin.  The x slab gives
    (-2) / 0 = -inf and 0 / 0 = NaN; no comparison with the NaN detects
    that the y interval [-102, -100] and the z interval [576, 704] are
    disjoint, and the box is reported hit at the distance 576, also by
    scene_intersect; the same happens with the direction normalized. *)
Lemma cube_behind_origin_hit :
  forallb (fun P => SFltb (dot ieee (vsub ieee P behind_orig) behind_dir)
                          (B32.of_Z 0))
          (cube_corners (cube ieee)) = true
  /\ slab_lo ieee (B32.of_Z 0) (B32.of_Z 1) (B32.of_Z 0) (B32.of_Z 2)
     = S754_infinity true
  /\ slab_hi ieee (B32.of_Z 0) (B32.of_Z 1) (B32.of_Z 0) (B32.of_Z 2)
     = S754_nan
  /\ slab_lo ieee (B32.of_Z (-1)) (B32.of_Z 100) (B32.of_Z 1) (B32.of_Z 2)
     = B32.of_Z (-102)
  /\ slab_hi ieee (B32.of_Z (-1)) (B32.of_Z 100) (B32.of_Z 1) (B32.of_Z 2)
     = B32.of_Z (-100)
  /\ slab_hi ieee (B32.of_Z (-10)) (B32.of_Z 0) (vz behind_dir) (B32.of_Z 2)
     = B32.of_Z 576
  /\ slab_lo ieee (B32.of_Z (-10)) (B32.of_Z 0) (vz behind_dir) (B32.of_Z 2)
     = B32.of_Z 704
  /\ ray_cube_intersect ieee behind_orig behind_dir (cube ieee)
     = (true, B32.of_Z 576, vec3_of_Z ieee 0 0 1)
  /\ fst (fst (fst (scene_intersect ieee behind_orig behind_dir))) = true
  /\ fst (fst (ray_cube_intersect ieee behind_orig
                 (normalized ieee behind_dir) (cube ieee))) = true.
Proof. vm_compute. repeat split. Qed.

(** The parts of the description of ray_cube_intersect that hold for every
    ray: a hit carries a distance above 0 that is one of the six slab
    parameters, and a combined tmin that is at most 0 is never a hit. *)
Lemma ray_cube_hit_distance (orig dir : vec3 (F ieee)) (c : Cube (F ieee)) t n :
  ray_cube_intersect ieee orig dir c = (true, t, n) ->
  SFltb (B32.of_Z 0) t = true /\ SFleb t (B32.of_Z 0) = false.
Proof.
  intros H. pose proof (Nearest.cube_hit_positive _ _ _ _ _ H) as Hp.
  split; [exact Hp|].
  destruct (SFleb t (B32.of_Z 0)) eqn:E; [|reflexivity].
  apply Cmp.leb_not_ltb in E. congruence.
Qed.

Lemma ray_cube_intersect_tighten (orig dir : vec3 (F ieee)) (c : Cube (F ieee)) :
  let cc := c_center c in
  let sz := size c in
  fst (fst (ray_cube_intersect ieee orig dir c)) =
  match tighten (slab_interval (vx cc) (vx orig) (vx dir) sz)
                (slab_interval (vy cc) (vy orig) (vy dir) sz) with
  | None => false
  | Some i =>
      match tighten i (slab_interval (vz cc) (vz orig) (vz dir) sz) with
      | None => false
      | Some k => SFltb (B32.of_Z 0) (fst k)
      end
  end.
Proof.
  unfold ray_cube_intersect, tighten, slab_interval, cube_miss. cbv zeta.
  destruct (order_pair ieee _ _) as [tmin tmax].
  destruct (order_pair ieee _ _) as [tymin tymax].
  cbn [fst snd].
  destruct (fgt ieee tmin tymax || fgt ieee tymin tmax); [reflexivity|].
  destruct (order_pair ieee _ _) as [tzmin tzmax].
  cbn [fst snd].
  set (t := if fgt ieee tymin tmin then tymin else tmin).
  destruct (_ || _); [reflexivity|].
  cbn [fst snd].
  match goal with
  | |- fst (fst (if ?b then _ else _)) = ?r => change r with b; destruct b
  end; reflexivity.
Qed.

Lemma order_pair_ordered (a b : spec_float) :
  is_nan a = false -> is_nan b = false ->
  ordered (order_pair ieee a b)
  /\ (forall z, SFltb a z = true -> SFltb b z = true ->
                SFltb (snd (order_pair ieee a b)) z = true).
Proof.
  intros Ha Hb. unfold order_pair, fgt. cbn [flt ieee]. unfold B32.ltb.
  destruct (SFltb b a) eqn:E; cbn [fst snd]; split; try (intros z Hz1 Hz2; assumption).
  - repeat split; auto. apply Cmp.ltb_leb; exact E.
  - repeat split; auto. apply Cmp.leb_total; auto.
Qed.

Lemma tighten_ordered (i j k : spec_float * spec_float) :
  ordered i -> ordered j -> tighten i j = Some k ->
  ordered k /\ SFleb (snd k) (snd i) = true /\ SFleb (snd k) (snd j) = true.
Proof.
  intros (Hi1 & Hi2 & Hi) (Hj1 & Hj2 & Hj). unfold tighten, fgt.
  cbn [flt ieee]. unfold B32.ltb.
  destruct i as [in_ if_], j as [jn jf]. cbn [fst snd] in *.
  destruct (SFltb jf in_) eqn:D1; [discriminate|].
  destruct (SFltb if_ jn) eqn:D2; [discriminate|].
  cbn [orb]. intros H; inversion H; subst k; clear H. cbn [fst snd].
  apply Cmp.leb_total in D1; auto. apply Cmp.leb_total in D2; auto.
  destruct (SFltb in_ jn) eqn:E1; destruct (SFltb jf if_) eqn:E2;
    repeat split; auto using Cmp.leb_refl, Cmp.ltb_leb, Cmp.leb_total.
Qed.

(** X20.  On binary32, without a NaN among the six slab parameters, a
    box that is behind the origin along some axis (both slab parameters of
    that axis negative) is never reported as a hit by
    ray_cube_intersect. *)
Lemma ray_cube_behind_miss (orig dir : vec3 (F ieee)) (c : Cube (F ieee)) :
  let cc := c_center c in
  let sz := size c in
  let lo q := slab_lo ieee (q cc) (q orig) (q dir) sz in
  let hi q := slab_hi ieee (q cc) (q orig) (q dir) sz in
  (forall q, In q [vx; vy; vz] ->
     is_nan (lo q) = false /\ is_nan (hi q) = false) ->
  (exists q, In q [vx; vy; vz]
     /\ SFltb (lo q) (B32.of_Z 0) = true /\ SFltb (hi q) (B32.of_Z 0) = true) ->
  fst (fst (ray_cube_intersect ieee orig dir c)) = false.
Proof.
  intros cc sz lo hi Hnan Hbehind.
  rewrite ray_cube_intersect_tighten. fold cc sz.
  unfold slab_interval. fold (lo vx) (hi vx) (lo vy) (hi vy) (lo vz) (hi vz).
  destruct (Hnan vx ltac:(simpl; auto)) as [Nx0 Nx1].
  destruct (Hnan vy ltac:(simpl; auto)) as [Ny0 Ny1].
  destruct (Hnan vz ltac:(simpl; auto)) as [Nz0 Nz1].
  destruct (order_pair_ordered _ _ Nx0 Nx1) as [Ox Bx].
  destruct (order_pair_ordered _ _ Ny0 Ny1) as [Oy By].
  destruct (order_pair_ordered _ _ Nz0 Nz1) as [Oz Bz].
  destruct (tighten _ _) as [i|] eqn:T1; [|reflexivity].
  destruct (tighten_ordered _ _ _ Ox Oy T1) as (Oi & Lix & Liy).
  destruct (tighten i _) as [k|] eqn:T2; [|reflexivity].
  destruct (tighten_ordered _ _ _ Oi Oz T2) as ((Nk1 & Nk2 & Lk) & Lki & Lkz).
  assert (Hneg : SFltb (snd k) (B32.of_Z 0) = true).
  { destruct Hbehind as (q & Hq & H0 & H1).
    destruct Hq as [<-|[<-|[<-|[]]]].
    - eapply Cmp.leb_ltb_trans; [|apply (Bx _ H0 H1)].
      exact (Cmp.leb_trans _ _ _ Lki Lix).
    - eapply Cmp.leb_ltb_trans; [|apply (By _ H0 H1)].
      exact (Cmp.leb_trans _ _ _ Lki Liy).
    - eapply Cmp.leb_ltb_trans; [|apply (Bz _ H0 H1)]. exact Lkz. }
  apply Cmp.ltb_asym. exact (Cmp.leb_ltb_trans _ _ _ Lk Hneg).
Qed.

Lemma straddles_near_negative (lo hi : spec_float) :
  straddles lo hi ->
  SFltb (fst (order_pair ieee lo hi)) (B32.of_Z 0) = true.
Proof.
  unfold order_pair, fgt. cbn [flt ieee]. unfold B32.ltb.
  intros [[H0 H1]|[H0 H1]].
  - assert (E : SFltb hi lo = false).
    { apply Cmp.ltb_asym. apply (Cmp.ltb_leb_trans lo (B32.of_Z 0)); [exact H0|].
      apply Cmp.ltb_leb; exact H1. }
    rewrite E. exact H0.
  - assert (E : SFltb hi lo = true).
    { apply (Cmp.ltb_leb_trans hi (B32.of_Z 0)); [exact H0|].
      apply Cmp.ltb_leb; exact H1. }
    rewrite E. exact H0.
Qed.

Lemma tighten_fst (i j k : spec_float * spec_float) :
  tighten i j = Some k -> fst k = fst i \/ fst k = fst j.
Proof.
  unfold tighten. destruct (_ || _); [discriminate|].
  intros H; inversion H; subst k; clear H. cbn [fst].
  destruct (B32.ltb (fst i) (fst j)); auto.
Qed.

(** X21.  On binary32, an origin strictly inside the box is never
    reported as a hit by ray_cube_intersect: when the two slab parameters
    of every axis have opposite strict signs, the combined tmin is
    negative. *)
Lemma ray_cube_inside_miss (orig dir : vec3 (F ieee)) (c : Cube (F ieee)) :
  let cc := c_center c in
  let sz := size c in
  let lo q := slab_lo ieee (q cc) (q orig) (q dir) sz in
  let hi q := slab_hi ieee (q cc) (q orig) (q dir) sz in
  (forall q, In q [vx; vy; vz] -> straddles (lo q) (hi q)) ->
  fst (fst (ray_cube_intersect ieee orig dir c)) = false.
Proof.
  intros cc sz lo hi Hin.
  rewrite ray_cube_intersect_tighten. fold cc sz.
  unfold slab_interval. fold (lo vx) (hi vx) (lo vy) (hi vy) (lo vz) (hi vz).
  pose proof (straddles_near_negative _ _ (Hin vx ltac:(simpl; auto))) as Hx.
  pose proof (straddles_near_negative _ _ (Hin vy ltac:(simpl; auto))) as Hy.
  pose proof (straddles_near_negative _ _ (Hin vz ltac:(simpl; auto))) as Hz.
  destruct (tighten _ _) as [i|] eqn:T1; [|reflexivity].
  destruct (tighten i _) as [k|] eqn:T2; [|reflexivity].
  apply Cmp.ltb_asym.
  destruct (tighten_fst _ _ _ T2) as [-> | ->]; [|exact Hz].
  destruct (tighten_fst _ _ _ T1) as [-> | ->]; assumption.
Qed.

(** From the centre of the box, looking along -z: inside, no hit. *)
Example ray_cube_inside_miss_center :
  fst (fst (ray_cube_intersect ieee (vec3_of_Z ieee 0 (-1) (-10))
              (vec3_of_Z ieee 0 0 (-1)) (cube ieee))) = false.
Proof.
  apply ray_cube_inside_miss.
  intros q [<-|[<-|[<-|[]]]]; vm_compute; auto.
Defined.

(** From (3, -1, -20), past the box and looking away from it along a
    diagonal: behind, no hit. *)
Example ray_cube_behind_miss_past :
  fst (fst (ray_cube_intersect ieee (vec3_of_Z ieee 3 (-1) (-20))
              (vec3_of_Z ieee 1 1 (-1)) (cube ieee))) = false.
Proof.
  apply ray_cube_behind_miss.
  - intros q [<-|[<-|[<-|[]]]]; vm_compute; auto.
  - exists vz. vm_compute. auto.
Defined.

(** *** refract *)

(** C5.  For every I and N, with cosi = -clamp(I.N, -1, 1): if cosi < 0
    the result of refract(I, N, eta_t, eta_i) is the result of
    refract(I, -N, eta_i, eta_t); otherwise, with eta = eta_i / eta_t and
    k = 1 - eta^2 (1 - cosi^2), the result is {1,0,0} when k < 0 and
    I*eta + N*(eta*cosi - sqrt k) when k >= 0.  Results are unique, and one
    exists, within two nested calls, unless the dot product I.N is NaN. *)
Theorem refract_spec (I Nrm : vec3 (F ieee)) (eta_t eta_i : spec_float) :
  let cosi :=
    SFopp (std_max ieee (B32.of_Z (-1))
                   (std_min ieee (B32.of_Z 1) (dot ieee I Nrm))) in
  (SFltb cosi (B32.of_Z 0) = true ->
   forall r, refract_returns ieee I Nrm eta_t eta_i r
             <-> refract_returns ieee I (vneg ieee Nrm) eta_i eta_t r)
  /\ (SFltb cosi (B32.of_Z 0) = false ->
      let eta := B32.div eta_i eta_t in
      let k := B32.sub (B32.of_Z 1)
                 (B32.mul (B32.mul eta eta)
                    (B32.sub (B32.of_Z 1) (B32.mul cosi cosi))) in
      (SFltb k (B32.of_Z 0) = true ->
       refract_returns ieee I Nrm eta_t eta_i (vec3_of_Z ieee 1 0 0))
      /\ (SFleb (B32.of_Z 0) k = true ->
          refract_returns ieee I Nrm eta_t eta_i
            (vadd ieee (vscale ieee I eta)
               (vscale ieee Nrm (B32.sub (B32.mul eta cosi) (B32.sqrt k))))))
  /\ (forall r r', refract_returns ieee I Nrm eta_t eta_i r ->
                   refract_returns ieee I Nrm eta_t eta_i r' -> r = r')
  /\ (is_nan (dot ieee I Nrm) = false ->
      exists r, refract_fuel ieee 2 I Nrm eta_t eta_i = Some r).
Proof.
  intros cosi.
  change cosi with (refract_cosi ieee I Nrm).
  split; [|split; [|split]].
  - intros Hc r. split; intros [fuel H].
    + destruct fuel as [|fuel]; [discriminate H|].
      rewrite refract_fuel_S in H.
      change (flt ieee (refract_cosi ieee I Nrm) (f_of_Z ieee 0))
        with (SFltb (refract_cosi ieee I Nrm) (B32.of_Z 0)) in H.
      rewrite Hc in H. exists fuel. exact H.
    + exists (S fuel). rewrite refract_fuel_S.
      change (flt ieee (refract_cosi ieee I Nrm) (f_of_Z ieee 0))
        with (SFltb (refract_cosi ieee I Nrm) (B32.of_Z 0)).
      rewrite Hc. exact H.
  - intros Hc eta k.
    assert (E : refract_fuel ieee 1 I Nrm eta_t eta_i
                = Some (refract_body ieee I Nrm eta_t eta_i
                          (refract_cosi ieee I Nrm))).
    { rewrite refract_fuel_S.
      change (flt ieee (refract_cosi ieee I Nrm) (f_of_Z ieee 0))
        with (SFltb (refract_cosi ieee I Nrm) (B32.of_Z 0)).
      rewrite Hc. reflexivity. }
    unfold refract_body in E. cbv zeta in E.
    change (flt ieee (refract_k ieee (fdiv ieee eta_i eta_t)
                        (refract_cosi ieee I Nrm)) (f_of_Z ieee 0))
      with (SFltb k (B32.of_Z 0)) in E.
    split; intros Hk.
    + exists 1%nat. rewrite E, Hk. reflexivity.
    + apply Cmp.leb_not_ltb in Hk. exists 1%nat. rewrite E, Hk. reflexivity.
  - apply refract_returns_unique.
  - intros Hn. destruct (Refract.refract_two_calls I Nrm eta_t eta_i Hn) as [r Hr].
    exists r. exact (Hr 0%nat).
Qed.

(** A ray straight onto a surface facing it, into water. *)
Lemma refract_spec_witness :
  exists r, refract_fuel ieee 2 (vec3_of_Z ieee 0 0 (-1)) (vec3_of_Z ieee 0 0 1)
              (flit ieee 13 10) (B32.of_Z 1) = Some r.
Proof.
  destruct (refract_spec (vec3_of_Z ieee 0 0 (-1)) (vec3_of_Z ieee 0 0 1)
              (flit ieee 13 10) (B32.of_Z 1)) as (_ & _ & _ & H).
  apply H. vm_compute. reflexivity.
Defined.

(** *** The normal of a hit *)

Lemma cube_axis_bit (t c o d sz : spec_float) :
  cube_axis ieee t c o d sz = B32.of_Z 1 \/ cube_axis ieee t c o d sz = B32.of_Z 0.
Proof.
  unfold cube_axis. destruct (_ || _); [left|right]; reflexivity.
Qed.

Lemma cube_axis_lo (t c o d sz : spec_float) :
  is_nan t = false -> t = slab_lo ieee c o d sz ->
  cube_axis ieee t c o d sz = B32.of_Z 1.
Proof.
  intros Hn E. unfold cube_axis. rewrite <- E.
  change (feq ieee t t) with (SFeqb t t).
  rewrite Cmp.eqb_refl by exact Hn. reflexivity.
Qed.

Lemma cube_axis_hi (t c o d sz : spec_float) :
  is_nan t = false -> t = slab_hi ieee c o d sz ->
  cube_axis ieee t c o d sz = B32.of_Z 1.
Proof.
  intros Hn E. unfold cube_axis. rewrite <- E.
  change (feq ieee t t) with (SFeqb t t).
  rewrite Cmp.eqb_refl by exact Hn. rewrite orb_true_r. reflexivity.
Qed.

Lemma cube_hit_axis_indicator (orig dir : vec3 (F ieee)) (c : Cube (F ieee)) t n :
  ray_cube_intersect ieee orig dir c = (true, t, n) -> axis_indicator n.
Proof.
  intros H.
  pose proof (Nearest.cube_hit_positive _ _ _ _ _ H) as Hp.
  apply Cmp.ltb_not_nan in Hp. destruct Hp as [_ Hn].
  apply ray_cube_hit_normal in H. cbv zeta in H. destruct H as [-> Ht].
  unfold axis_indicator. cbn [vx vy vz].
  repeat split; try apply cube_axis_bit.
  destruct Ht as [E|[E|[E|[E|[E|E]]]]].
  - left. apply cube_axis_lo; assumption.
  - left. apply cube_axis_hi; assumption.
  - right; left. apply cube_axis_lo; assumption.
  - right; left. apply cube_axis_hi; assumption.
  - right; right. apply cube_axis_lo; assumption.
  - right; right. apply cube_axis_hi; assumption.
Qed.

Lemma ideal_normalized_unit (v : vec3 R) :
  norm ideal v <> 0%R -> norm ideal (normalized ideal v) = 1%R.
Proof.
  unfold norm, normalized, vscale. cbn.
  set (q := (vx v * vx v + vy v * vy v + vz v * vz v)%R).
  intros Hn.
  assert (Hq : (0 <= q)%R) by (unfold q; nra).
  replace (vx v * (1 / sqrt q) * (vx v * (1 / sqrt q))
           + vy v * (1 / sqrt q) * (vy v * (1 / sqrt q))
           + vz v * (1 / sqrt q) * (vz v * (1 / sqrt q)))%R
    with (q / (sqrt q * sqrt q))%R by (unfold q; field; exact Hn).
  rewrite sqrt_sqrt by exact Hq.
  replace (q / q)%R with 1%R.
  - apply sqrt_1.
  - field. intros E. apply Hn. rewrite E. apply sqrt_0.
Qed.

(** What the normal of a reported hit can be: {0,1,0} (the ground plane),
    the normalized radial vector of a sphere of the scene, or the vector
    that ray_cube_intersect returns, whose components are 0 or 1 with at
    least one 1 (the axes whose slab parameter equals the hit distance);
    and a normalized vector has unit length in exact arithmetic. *)
Theorem scene_hit_normal (orig dir : vec3 (F ieee)) :
  (fst (fst (fst (scene_intersect ieee orig dir))) = true ->
   let p := snd (fst (fst (scene_intersect ieee orig dir))) in
   let n := snd (fst (scene_intersect ieee orig dir)) in
   n = vec3_of_Z ieee 0 1 0
   \/ (exists s, In s (spheres ieee)
                 /\ n = normalized ieee (vsub ieee p (s_center s)))
   \/ (exists t, ray_cube_intersect ieee orig dir (cube ieee) = (true, t, n)
                 /\ axis_indicator n))
  /\ (forall v : vec3 (F ideal),
        norm ideal v <> 0%R -> norm ideal (normalized ideal v) = 1%R).
Proof.
  split; [|exact ideal_normalized_unit].
  unfold scene_intersect. cbn [fst snd]. intros Hhit.
  destruct (Nearest.keeps_final orig dir) as (_ & Hin & _ & _).
  destruct Hin as [E|Hin].
  - rewrite E in Hhit. vm_compute in Hhit. discriminate Hhit.
  - unfold candidates in Hin. apply in_app_or in Hin.
    destruct Hin as [Hin|Hin]; [|apply in_app_or in Hin; destruct Hin as [Hin|Hin]].
    + left. unfold plane_candidates in Hin.
      destruct (plane_hit ieee orig dir) as [[d p]|]; [|destruct Hin].
      destruct Hin as [<-|[]]. reflexivity.
    + right; left.
      apply (proj1 (in_flat_map _ _ _)) in Hin. destruct Hin as (s & Hs & Hin).
      exists s. split; [exact Hs|].
      unfold sphere_candidate in Hin.
      destruct (ray_sphere_intersect ieee orig dir s) as [[] d]; [|destruct Hin].
      destruct Hin as [<-|[]]. reflexivity.
    + right; right. unfold cube_candidates in Hin.
      destruct (ray_cube_intersect ieee orig dir (cube ieee)) as [[[] d] n] eqn:E;
        [|destruct Hin].
      destruct Hin as [<-|[]]. exists d. split; [reflexivity|].
      cbn [N cube_record]. eapply cube_hit_axis_indicator; exact E.
Qed.

Lemma scene_hit_normal_witness :
  let n := snd (fst (scene_intersect ieee left_orig left_dir)) in
  exists t, ray_cube_intersect ieee left_orig left_dir (cube ieee) = (true, t, n)
            /\ axis_indicator n.
Proof.
  destruct (scene_hit_normal left_orig left_dir) as [H _].
  specialize (H eq_refl). cbv zeta in *.
  destruct H as [H|[H|H]].
  - vm_compute in H. inversion H.
  - exfalso. destruct H as (s & Hs & H). unfold spheres in Hs.
    destruct Hs as [<-|[<-|[<-|[<-|[]]]]]; vm_compute in H; inversion H.
  - exact H.
Defined.

(** C6, the code at the failing inputs.  The ray from (-5,-1,-10) along +x
    enters through the face x = -1 and gets the normal {1,0,0}, which points
    along the ray, away from the side it came from; the ray from (2,1,-10)
    along (-1,-1,0) meets the edge x = 1, y = 0, where two slab parameters
    equal the distance, and gets the normal {1,1,0}, of squared length 2. *)
Lemma box_normal_at_failing_inputs :
  (scene_intersect ieee left_orig left_dir
     = (true, vec3_of_Z ieee (-1) (-1) (-10), vec3_of_Z ieee 1 0 0, water ieee)
   /\ dot ieee left_dir (vec3_of_Z ieee 1 0 0) = B32.of_Z 1)
  /\ (scene_intersect ieee edge_orig edge_dir
        = (true, vec3_of_Z ieee 1 0 (-10), vec3_of_Z ieee 1 1 0, water ieee)
      /\ dot ieee (vec3_of_Z ieee 1 1 0) (vec3_of_Z ieee 1 1 0) = B32.of_Z 2
      /\ norm ieee (vec3_of_Z ieee 1 1 0) <> B32.of_Z 1).
Proof.
  vm_compute. repeat split. intros H; inversion H.
Qed.

(** *** The epsilon of the box *)

(** C7 as stated fails: the box is hit at the distance 2^-11, which is
    positive but not above 0.001, and scene_intersect reports it as the
    nearest hit. *)
Lemma cube_hit_below_epsilon :
  ray_cube_intersect ieee near_orig near_dir (cube ieee)
    = (true, near_dist, vec3_of_Z ieee 0 0 1)
  /\ gt_dlit ieee near_dist 1 1000 = false
  /\ SFltb (B32.of_Z 0) near_dist = true
  /\ nearest_dist (scene_final ieee near_orig near_dir) = near_dist
  /\ fst (fst (fst (scene_intersect ieee near_orig near_dir))) = true.
Proof. vm_compute. repeat split. Qed.

(** The two sibling tests do apply the epsilon: a distance accepted by the
    plane test or returned by ray_sphere_intersect is above 0.001. *)
Lemma plane_sphere_above_epsilon (A : arith) (orig dir : vec3 (F A)) :
  (forall d p, plane_hit A orig dir = Some (d, p) -> gt_dlit A d 1 1000 = true)
  /\ (forall s t, ray_sphere_intersect A orig dir s = (true, t) ->
        gt_dlit A t 1 1000 = true).
Proof.
  split.
  - intros d p H. apply plane_hit_inv in H. tauto.
  - intros s t H. eapply ray_sphere_hit_inv; eauto.
Qed.

(** C7, as amended.  A distance accepted by the plane test or returned by
    ray_sphere_intersect is above 0.001; a distance returned by
    ray_cube_intersect is above 0, with no epsilon (the guard is
    [tmin > 0]).  Hence every hit that scene_intersect reports is the record
    of the ground plane or of a sphere of the scene at a distance above
    0.001, or the record of the box at a distance above 0. *)
Theorem scene_hit_epsilon (orig dir : vec3 (F ieee)) :
  ((forall d p, plane_hit ieee orig dir = Some (d, p) ->
                gt_dlit ieee d 1 1000 = true)
   /\ (forall s t, ray_sphere_intersect ieee orig dir s = (true, t) ->
                   gt_dlit ieee t 1 1000 = true)
   /\ (forall c t n, ray_cube_intersect ieee orig dir c = (true, t, n) ->
                     SFltb (B32.of_Z 0) t = true))
  /\ (fst (fst (fst (scene_intersect ieee orig dir))) = true ->
      let st := scene_final ieee orig dir in
      let d := nearest_dist st in
      (exists p, plane_hit ieee orig dir = Some (d, p)
                 /\ st = plane_record ieee d p
                 /\ gt_dlit ieee d 1 1000 = true)
      \/ (exists s, In s (spheres ieee)
                    /\ ray_sphere_intersect ieee orig dir s = (true, d)
                    /\ st = sphere_record ieee orig dir s d
                    /\ gt_dlit ieee d 1 1000 = true)
      \/ (exists n, ray_cube_intersect ieee orig dir (cube ieee) = (true, d, n)
                    /\ st = cube_record ieee orig dir d n
                    /\ SFltb (B32.of_Z 0) d = true)).
Proof.
  assert (Hp : forall d p, plane_hit ieee orig dir = Some (d, p) ->
                           gt_dlit ieee d 1 1000 = true).
  { intros d p H. apply plane_hit_inv in H. tauto. }
  assert (Hs : forall s t, ray_sphere_intersect ieee orig dir s = (true, t) ->
                           gt_dlit ieee t 1 1000 = true).
  { intros s t H. exact (ray_sphere_hit_inv _ _ _ _ _ H). }
  assert (Hc : forall c t n,
             ray_cube_intersect ieee orig dir c = (true, t, n) ->
             SFltb (B32.of_Z 0) t = true).
  { intros c t n H. exact (Nearest.cube_hit_positive _ _ _ _ _ H). }
  split; [split; [exact Hp|split; [exact Hs|exact Hc]]|].
  unfold scene_intersect. cbn [fst]. intros Hhit. cbv zeta.
  destruct (scene_final_cases orig dir)
    as [E|[(d & p & E1 & E2)|[(s & d & Hin & E1 & E2)|(d & n & E1 & E2)]]].
  - rewrite E in Hhit. vm_compute in Hhit. inversion Hhit.
  - left. rewrite E2. cbn [nearest_dist plane_record]. exists p.
    split; [exact E1|]. split; [reflexivity|exact (Hp _ _ E1)].
  - right; left. rewrite E2. cbn [nearest_dist sphere_record]. exists s.
    split; [exact Hin|]. split; [exact E1|].
    split; [reflexivity|exact (Hs _ _ E1)].
  - right; right. rewrite E2. cbn [nearest_dist cube_record]. exists n.
    split; [exact E1|]. split; [reflexivity|exact (Hc _ _ _ E1)].
Qed.

(** The ray straight down onto the ground plane: reported at the distance
    1. *)
Lemma scene_hit_epsilon_witness :
  gt_dlit ieee (nearest_dist (scene_final ieee down_orig down_dir)) 1 1000
  = true.
Proof.
  destruct (scene_hit_epsilon down_orig down_dir) as [_ H].
  destruct (H ltac:(vm_compute; reflexivity))
    as [(p & _ & _ & G)|[(s & _ & _ & _ & G)|(n & E & _)]].
  - exact G.
  - exact G.
  - vm_compute in E. inversion E.
Defined.

(** *** The ground plane as nearest hit: checkerboard *)

Lemma down_plane_hit :
  plane_hit ieee down_orig down_dir = Some (B32.of_Z 1, down_point).
Proof. vm_compute. reflexivity. Qed.

Lemma down_spheres_farther :
  forall s, In s (spheres ieee) ->
    sphere_farther ieee down_orig down_dir (B32.of_Z 1) s.
Proof.
  intros s Hs. unfold spheres in Hs.
  destruct Hs as [<-|[<-|[<-|[<-|[]]]]]; left; vm_compute; reflexivity.
Qed.

Lemma down_cube_not_nearer :
  cube_not_nearer ieee down_orig down_dir (B32.of_Z 1).
Proof. left. vm_compute. reflexivity. Qed.

Lemma plane_nearest_intersect (orig dir : vec3 (F ieee)) d p :
  plane_hit ieee orig dir = Some (d, p) ->
  SFltb d (B32.of_Z 1000) = true ->
  (forall s, In s (spheres ieee) -> sphere_farther ieee orig dir d s) ->
  cube_not_nearer ieee orig dir d ->
  scene_intersect ieee orig dir =
  (true, p, vec3_of_Z ieee 0 1 0,
   set_diffuse_color ieee (Material_default ieee) (checker_color ieee p)).
Proof.
  intros Hp Hd Hs Hc.
  assert (Hd' : flt ieee d (nearest_dist (scene_init ieee)) = true).
  { apply (Cmp.ltb_leb_trans d (B32.of_Z 1000)); [exact Hd|].
    vm_compute. reflexivity. }
  unfold scene_intersect.
  rewrite (scene_final_plane ieee orig dir d p Hp Hd' Hs Hc).
  unfold plane_record.
  cbn [nearest_dist pt N material].
  change (flt ieee d (f_of_Z ieee 1000)) with (SFltb d (B32.of_Z 1000)).
  rewrite Hd. reflexivity.
Qed.

(** C8, as amended.  For every accepted ground-plane hit point that is the
    nearest hit, the diffuse colour returned by scene_intersect is
    {.4,.4,.4} when int(.5*x + 1000) + int(.5*z) is odd and {.4,.3,.2} when
    it is even, where int() converts by truncation toward zero (not by
    floor). *)
Theorem plane_checker_color (orig dir : vec3 (F ieee)) d p :
  plane_hit ieee orig dir = Some (d, p) ->
  SFltb d (B32.of_Z 1000) = true ->
  (forall s, In s (spheres ieee) -> sphere_farther ieee orig dir d s) ->
  cube_not_nearer ieee orig dir d ->
  exists m,
    scene_intersect ieee orig dir = (true, p, vec3_of_Z ieee 0 1 0, m)
    /\ diffuse_color m =
       if Z.odd (sf_trunc (B64.add (B64.mul (B64.lit 5 10) (B64.of_b32 (vx p)))
                                   (B64.of_Z 1000))
                 + sf_trunc (B64.mul (B64.lit 5 10) (B64.of_b32 (vz p))))
       then mk_vec3 (flit ieee 4 10) (flit ieee 4 10) (flit ieee 4 10)
       else mk_vec3 (flit ieee 4 10) (flit ieee 3 10) (flit ieee 2 10).
Proof.
  intros Hp Hd Hs Hc.
  eexists. split; [apply (plane_nearest_intersect orig dir d p Hp Hd Hs Hc)|].
  cbn [diffuse_color set_diffuse_color]. unfold checker_color.
  rewrite land_1_odd. reflexivity.
Qed.

Lemma plane_checker_color_witness :
  exists m,
    scene_intersect ieee down_orig down_dir
      = (true, down_point, vec3_of_Z ieee 0 1 0, m)
    /\ diffuse_color m =
       if Z.odd (sf_trunc (B64.add (B64.mul (B64.lit 5 10)
                                      (B64.of_b32 (vx down_point)))
                                   (B64.of_Z 1000))
                 + sf_trunc (B64.mul (B64.lit 5 10)
                               (B64.of_b32 (vz down_point))))
       then mk_vec3 (flit ieee 4 10) (flit ieee 4 10) (flit ieee 4 10)
       else mk_vec3 (flit ieee 4 10) (flit ieee 3 10) (flit ieee 2 10).
Proof.
  apply (plane_checker_color down_orig down_dir (B32.of_Z 1) down_point).
  - exact down_plane_hit.
  - vm_compute. reflexivity.
  - exact down_spheres_farther.
  - exact down_cube_not_nearer.
Defined.

(** C8 as stated fails: the ray straight down onto (0, -3, -13) has the
    plane as nearest hit; 0.5 * z = -6.5, whose floor is -7, so the floor
    formula gives the odd index 993 and asks for {.4,.4,.4}; the source
    truncates -6.5 to -6, gets the even index 994 and returns
    {.4,.3,.2}. *)
Lemma plane_checker_floor_counterexample :
  plane_hit ieee down_orig down_dir = Some (B32.of_Z 1, down_point)
  /\ checker_index_floor down_point = 993
  /\ checker_index ieee down_point = 994
  /\ (exists m,
        scene_intersect ieee down_orig down_dir
          = (true, down_point, vec3_of_Z ieee 0 1 0, m)
        /\ diffuse_color m
           = mk_vec3 (flit ieee 4 10) (flit ieee 3 10) (flit ieee 2 10)
        /\ diffuse_color m <> checker_color_floor down_point).
Proof.
  split; [exact down_plane_hit|].
  split; [vm_compute; reflexivity|].
  split; [vm_compute; reflexivity|].
  eexists. split; [vm_compute; reflexivity|].
  split; [vm_compute; reflexivity|].
  vm_compute. intros H; inversion H.
Qed.

(** *** Writing the image *)

Lemma pixel_bytes_length (A : arith) (color : vec3 (F A)) :
  List.length (pixel_bytes A color) = 3%nat.
Proof. reflexivity. Qed.

Lemma ppm_body_length (A : arith) (fb : list (vec3 (F A))) :
  List.length (ppm_body A fb) = (3 * List.length fb)%nat.
Proof.
  induction fb as [|c fb IH]; [reflexivity|].
  change (ppm_body A (c :: fb)) with (pixel_bytes A c ++ ppm_body A fb).
  rewrite List.length_app, IH, pixel_bytes_length. simpl List.length. lia.
Qed.

Lemma ppm_body_nth (A : arith) (fb : list (vec3 (F A))) :
  forall (i : nat) (color : vec3 (F A)) (chan : nat),
    nth_error fb i = Some color -> (chan < 3)%nat ->
    nth_error (ppm_body A fb) (3 * i + chan) =
    nth_error (pixel_bytes A color) chan.
Proof.
  induction fb as [|c fb IH]; intros i color chan Hi Hc.
  - destruct i; discriminate Hi.
  - change (ppm_body A (c :: fb)) with (pixel_bytes A c ++ ppm_body A fb).
    destruct i as [|i].
    + simpl in Hi. inversion Hi; subst c.
      rewrite nth_error_app1 by (rewrite pixel_bytes_length; lia).
      reflexivity.
    + simpl in Hi.
      rewrite nth_error_app2 by (rewrite pixel_bytes_length; lia).
      rewrite pixel_bytes_length.
      replace (3 * S i + chan - 3)%nat with (3 * i + chan)%nat by lia.
      apply IH; assumption.
Qed.

Lemma pixel_index_row_col (row col : Z) :
  0 <= row -> 0 <= col < width ->
  pixel_row (row * width + col) = row /\ pixel_col (row * width + col) = col.
Proof.
  unfold pixel_row, pixel_col, width. intros Hr Hc.
  rewrite Z.quot_div_nonneg, Z.rem_mod_nonneg by lia.
  rewrite Z.div_add_l, Z.div_small by lia.
  rewrite (Z.add_comm (row * 1024) col), Z.mod_add, Z.mod_small by lia. lia.
Qed.

(** The rows from 0 to [height - 2], each compared with the next. *)
Lemma rows_decrease :
  forallb (fun r => SFltb (pixel_dir_y ieee ((Z.of_nat r + 1) * width))
                          (pixel_dir_y ieee (Z.of_nat r * width)))
          (seq 0 767) = true.
Proof. vm_compute. reflexivity. Qed.

Lemma rows_decrease_nat (r : nat) :
  (r < 767)%nat ->
  SFltb (pixel_dir_y ieee ((Z.of_nat r + 1) * width))
        (pixel_dir_y ieee (Z.of_nat r * width)) = true.
Proof.
  intros H.
  apply (proj1 (forallb_forall _ _) rows_decrease r).
  apply in_seq. lia.
Qed.

Lemma rows_top_to_bottom (row : Z) :
  0 <= row < height - 1 ->
  SFltb (pixel_dir_y ieee ((row + 1) * width)) (pixel_dir_y ieee (row * width))
  = true.
Proof.
  unfold height. intros H. rewrite <- (Z2Nat.id row) by lia.
  apply rows_decrease_nat. lia.
Qed.

(** C9, as amended.  After the header "P6\n1024 768\n255\n" the driver
    writes, for every framebuffer colour in framebuffer order, three bytes
    for R, G, B in that order: with scale = max(1, max(r, max(g, b))), the
    byte of a channel is the integer part of 255 * channel / scale taken
    toward zero (a [(char)] conversion), not the nearest integer.  The body
    has 3 bytes per pixel, width * height * 3 in all; pixel [i] is at bytes
    [3i .. 3i+2]; the pixel of row [row] and column [col] has the index
    [row * width + col] (row-major), and the camera ray of a row points
    higher than that of the next row (top to bottom). *)
Theorem ppm_output_bytes (fb : list (vec3 (F ieee))) :
  ppm_output ieee fb =
    list_ascii_of_string ("P6" ++ nl ++ "1024 768" ++ nl ++ "255" ++ nl)%string
    ++ ppm_body ieee fb
  /\ List.length (ppm_body ieee fb) = (3 * List.length fb)%nat
  /\ (List.length fb = Z.to_nat (width * height) ->
      List.length (ppm_body ieee fb) = Z.to_nat (width * height * 3))
  /\ (forall (i : nat) (color : vec3 (F ieee)),
        nth_error fb i = Some color ->
        let scale :=
          std_max ieee (B32.of_Z 1)
            (std_max ieee (vx color) (std_max ieee (vy color) (vz color))) in
        let byte (channel : spec_float) :=
          ascii_of_N (Z.to_N (sf_trunc
               (B32.div (B32.mul (B32.of_Z 255) channel) scale) mod 256)) in
        nth_error (ppm_body ieee fb) (3 * i) = Some (byte (vx color))
        /\ nth_error (ppm_body ieee fb) (3 * i + 1) = Some (byte (vy color))
        /\ nth_error (ppm_body ieee fb) (3 * i + 2) = Some (byte (vz color)))
  /\ (forall row col, 0 <= row < height -> 0 <= col < width ->
        pixel_row (row * width + col) = row
        /\ pixel_col (row * width + col) = col)
  /\ (forall row, 0 <= row < height - 1 ->
        SFltb (pixel_dir_y ieee ((row + 1) * width))
              (pixel_dir_y ieee (row * width)) = true).
Proof.
  split; [reflexivity|]. split; [apply ppm_body_length|].
  split; [intros H; rewrite ppm_body_length, H; unfold width, height; lia|].
  split; [|split].
  - intros i color Hi scale byte.
    pose proof (ppm_body_nth ieee fb i color 0 Hi ltac:(lia)) as H0.
    pose proof (ppm_body_nth ieee fb i color 1 Hi ltac:(lia)) as H1.
    pose proof (ppm_body_nth ieee fb i color 2 Hi ltac:(lia)) as H2.
    rewrite Nat.add_0_r in H0.
    rewrite H0, H1, H2. repeat split.
  - intros row col Hr Hc. apply pixel_index_row_col; lia.
  - exact rows_top_to_bottom.
Qed.

Lemma ppm_output_bytes_witness :
  nth_error (ppm_body ieee two_pixels) (3 * 1) = Some (ascii_of_nat 63)
  /\ nth_error (ppm_body ieee two_pixels) (3 * 1 + 1) = Some (ascii_of_nat 0)
  /\ nth_error (ppm_body ieee two_pixels) (3 * 1 + 2) = Some (ascii_of_nat 255).
Proof.
  destruct (ppm_output_bytes two_pixels) as (_ & _ & _ & H & _).
  exact (H 1%nat (mk_vec3 (flit ieee 25 100) (B32.of_Z 0) (B32.of_Z 1))
           eq_refl).
Defined.

(** C9 as stated fails: for the colour {0.25, 0, 1} the scale is 1 and
    255 * 0.25 / 1 = 63.75, which rounds to 64; the source writes 63. *)
Lemma ppm_round_counterexample :
  let color := mk_vec3 (flit ieee 25 100) (B32.of_Z 0) (B32.of_Z 1) in
  let scale := pixel_max ieee color in
  let value := B32.div (B32.mul (B32.of_Z 255) (vx color)) scale in
  scale = B32.of_Z 1
  /\ value = B32.div (B32.of_Z 255) (B32.of_Z 4)
  /\ sf_round value = 64
  /\ pixel_bytes ieee color
     = [ascii_of_nat 63; ascii_of_nat 0; ascii_of_nat 255]
  /\ nth_error (pixel_bytes ieee color) 0
     <> Some (ascii_of_N (Z.to_N (sf_round value mod 256))).
Proof.
  vm_compute. repeat split. intros H; inversion H.
Qed.

(** *** The ground plane as nearest hit: material *)

(** C10.  When the ground plane is the nearest hit, the material returned
    by scene_intersect is the default-constructed Material with only
    diffuse_color replaced by the checker shade: refractive_index = 1,
    albedo = {2, 0, 0, 0} and specular_exponent = 0; and, in exact
    arithmetic, shading with that material is the doubled diffuse term,
    with nothing from the specular, reflected or refracted colours. *)
Theorem plane_material_default (orig dir : vec3 (F ieee)) d p :
  plane_hit ieee orig dir = Some (d, p) ->
  SFltb d (B32.of_Z 1000) = true ->
  (forall s, In s (spheres ieee) -> sphere_farther ieee orig dir d s) ->
  cube_not_nearer ieee orig dir d ->
  (exists m,
     scene_intersect ieee orig dir = (true, p, vec3_of_Z ieee 0 1 0, m)
     /\ m = set_diffuse_color ieee (Material_default ieee) (checker_color ieee p)
     /\ refractive_index m = B32.of_Z 1
     /\ albedo m = (B32.of_Z 2, B32.of_Z 0, B32.of_Z 0, B32.of_Z 0)
     /\ specular_exponent m = B32.of_Z 0)
  /\ (forall (c : vec3 (F ideal)) (diffuse specular : R) (reflect_color refract_color : vec3 (F ideal)),
        shade ideal (set_diffuse_color ideal (Material_default ideal) c)
              diffuse specular reflect_color refract_color
        = vscale ideal (vscale ideal c diffuse) 2%R).
Proof.
  intros Hp Hd Hs Hc. split.
  - eexists. split; [apply (plane_nearest_intersect orig dir d p Hp Hd Hs Hc)|].
    repeat split.
  - intros c diffuse specular rc rfc.
    unfold shade, vadd, vscale. cbn. f_equal; ring.
Qed.

Lemma plane_material_default_witness :
  (exists m,
     scene_intersect ieee down_orig down_dir
       = (true, down_point, vec3_of_Z ieee 0 1 0, m)
     /\ m = set_diffuse_color ieee (Material_default ieee)
              (checker_color ieee down_point)
     /\ refractive_index m = B32.of_Z 1
     /\ albedo m = (B32.of_Z 2, B32.of_Z 0, B32.of_Z 0, B32.of_Z 0)
     /\ specular_exponent m = B32.of_Z 0)
  /\ (forall (c : vec3 (F ideal)) (diffuse specular : R) (reflect_color refract_color : vec3 (F ideal)),
        shade ideal (set_diffuse_color ideal (Material_default ideal) c)
              diffuse specular reflect_color refract_color
        = vscale ideal (vscale ideal c diffuse) 2%R).
Proof.
  apply (plane_material_default down_orig down_dir (B32.of_Z 1) down_point).
  - exact down_plane_hit.
  - vm_compute. reflexivity.
  - exact down_spheres_farther.
  - exact down_cube_not_nearer.
Defined.

(* ================================================================== *)
(** ** Further properties: the vector operations in exact arithmetic *)

Section ExactVectors.
Local Open Scope R_scope.

Ltac vec_unfold :=
  unfold ray_at, reflect, cross, normalized, norm, dot, vadd, vsub, vscale,
         vneg in *;
  cbn [vx vy vz F fadd fsub fmul fdiv fopp fsqrt f_of_Z ideal] in *.

(** Lagrange's identity. *)
Lemma cross_norm_ideal (v w : vec3 R) :
  dot ideal (cross ideal v w) (cross ideal v w)
  = dot ideal v v * dot ideal w w - dot ideal v w * dot ideal v w.
Proof. destruct v as [a b c], w as [x y z]. vec_unfold. ring. Qed.

(** X1.  In exact arithmetic the vector returned by cross is orthogonal
    to both arguments, changes sign when the arguments are exchanged, and
    its squared length is |v|^2 |w|^2 - (v . w)^2. *)
Theorem cross_orthogonal (v w : vec3 R) :
  dot ideal (cross ideal v w) v = 0
  /\ dot ideal (cross ideal v w) w = 0
  /\ cross ideal w v = vneg ideal (cross ideal v w)
  /\ dot ideal (cross ideal v w) (cross ideal v w)
     = dot ideal v v * dot ideal w w - dot ideal v w * dot ideal v w.
Proof.
  split; [|split; [|split; [|apply cross_norm_ideal]]];
    destruct v as [a b c], w as [x y z]; vec_unfold; try ring.
  f_equal; ring.
Qed.

Lemma reflect_dot (I Nrm : vec3 R) :
  dot ideal Nrm Nrm = 1 ->
  dot ideal (reflect ideal I Nrm) Nrm = - dot ideal I Nrm.
Proof.
  destruct I as [a b c], Nrm as [x y z]. vec_unfold. intros Hu.
  transitivity ((a * x + b * y + c * z)
                * (1 - 2 * (x * x + y * y + z * z))); [ring|].
  rewrite Hu. ring.
Qed.

(** X2.  In exact arithmetic, for a unit normal N, reflect(I, N) is the
    mirror image of I: its component along N is reversed, its length is
    that of I, and reflecting twice gives I back. *)
Theorem reflect_mirror (I Nrm : vec3 R) :
  dot ideal Nrm Nrm = 1 ->
  dot ideal (reflect ideal I Nrm) Nrm = - dot ideal I Nrm
  /\ dot ideal (reflect ideal I Nrm) (reflect ideal I Nrm) = dot ideal I I
  /\ reflect ideal (reflect ideal I Nrm) Nrm = I.
Proof.
  intros Hu. split; [exact (reflect_dot I Nrm Hu)|]. split.
  - destruct I as [a b c], Nrm as [x y z]. vec_unfold.
    transitivity (a * a + b * b + c * c
                  + 4 * (a * x + b * y + c * z) * (a * x + b * y + c * z)
                    * ((x * x + y * y + z * z) - 1)); [ring|].
    rewrite Hu. ring.
  - pose proof (reflect_dot I Nrm Hu) as Hd.
    unfold reflect at 1. rewrite Hd.
    destruct I as [a b c], Nrm as [x y z]. vec_unfold.
    f_equal; ring.
Qed.

Lemma reflect_mirror_witness :
  reflect ideal (reflect ideal (mk_vec3 1 (-1) 0) (mk_vec3 0 1 0))
          (mk_vec3 0 1 0)
  = mk_vec3 1 (-1) 0.
Proof.
  apply (reflect_mirror (mk_vec3 1 (-1) 0) (mk_vec3 0 1 0)).
  unfold dot; simpl; lra.
Defined.

(** X3.  In exact arithmetic, for a vector v of nonzero length:
    normalized(v) scaled by norm(v) is v again, normalized is idempotent,
    and it does not see a positive scaling of v. *)
Theorem normalized_round_trip (v : vec3 R) :
  norm ideal v <> 0 ->
  vscale ideal (normalized ideal v) (norm ideal v) = v
  /\ normalized ideal (normalized ideal v) = normalized ideal v
  /\ (forall s, 0 < s ->
        normalized ideal (vscale ideal v s) = normalized ideal v).
Proof.
  intros Hn. split; [|split].
  - destruct v as [a b c]. unfold normalized, vscale.
    cbn [vx vy vz F fmul fdiv f_of_Z ideal].
    f_equal; field; exact Hn.
  - unfold normalized at 1.
    rewrite (ideal_normalized_unit v Hn).
    destruct (normalized ideal v) as [a b c]. unfold vscale.
    cbn [vx vy vz F fmul fdiv f_of_Z ideal]. f_equal; field.
  - intros s Hs.
    assert (Hs' : norm ideal (vscale ideal v s) = norm ideal v * s).
    { destruct v as [a b c]. unfold norm, vscale.
      cbn [vx vy vz F fadd fmul fsqrt ideal].
      replace (a * s * (a * s) + b * s * (b * s) + c * s * (c * s))
        with ((a * a + b * b + c * c) * (s * s)) by ring.
      rewrite sqrt_mult_alt by nra.
      rewrite sqrt_square by lra. reflexivity. }
    unfold normalized. rewrite Hs'.
    destruct v as [a b c]. unfold vscale.
    cbn [vx vy vz F fmul fdiv f_of_Z ideal].
    f_equal; field; split; try lra; exact Hn.
Qed.

Lemma normalized_round_trip_witness :
  vscale ideal (normalized ideal (mk_vec3 3 4 0)) (norm ideal (mk_vec3 3 4 0))
  = mk_vec3 3 4 0.
Proof.
  apply (normalized_round_trip (mk_vec3 3 4 0)).
  unfold norm. cbn [vx vy vz F fadd fmul fsqrt ideal].
  apply Rgt_not_eq, sqrt_lt_R0. lra.
Defined.

End ExactVectors.

(* ================================================================== *)
(** ** Further properties: the intersection tests in exact arithmetic *)

Section ExactIntersections.
Local Open Scope R_scope.

Ltac vec_unfold :=
  unfold ray_at, reflect, cross, normalized, norm, dot, vadd, vsub, vscale,
         vneg in *;
  cbn [vx vy vz F fadd fsub fmul fdiv fopp fsqrt f_of_Z ideal] in *.

Lemma ideal_ltb_cases (a b : R) :
  (Ideal.ltb a b = true /\ a < b) \/ (Ideal.ltb a b = false /\ ~ a < b).
Proof. unfold Ideal.ltb. destruct (Rlt_dec a b); auto. Qed.

Lemma ideal_eqb_cases (a b : R) :
  (Ideal.eqb a b = true /\ a = b) \/ (Ideal.eqb a b = false /\ a <> b).
Proof. unfold Ideal.eqb. destruct (Req_dec_T a b); auto. Qed.

Lemma ideal_ltb_true (a b : R) : a < b -> Ideal.ltb a b = true.
Proof. intros H. destruct (ideal_ltb_cases a b) as [[E _]|[_ N]]; tauto. Qed.

Lemma ideal_ltb_false (a b : R) : ~ a < b -> Ideal.ltb a b = false.
Proof. intros H. destruct (ideal_ltb_cases a b) as [[_ N]|[E _]]; tauto. Qed.

Ltac ltb_cases :=
  repeat match goal with
         | |- context [Ideal.ltb ?a ?b] =>
             let E := fresh "E" in
             destruct (ideal_ltb_cases a b) as [[E ?]|[E ?]];
             rewrite E in *; clear E
         | H : context [Ideal.ltb ?a ?b] |- _ =>
             let E := fresh "E" in
             destruct (ideal_ltb_cases a b) as [[E ?]|[E ?]];
             rewrite E in *; clear E
         end.

(** *** ray_sphere_intersect *)

Lemma ray_sphere_ideal_cases (O Dir : vec3 R) (s : Sphere R) :
  let L := vsub ideal (s_center s) O in
  let tca := dot ideal L Dir in
  let d2 := dot ideal L L - tca * tca in
  let r2 := radius s * radius s in
  let thc := sqrt (r2 - d2) in
  ray_sphere_intersect ideal O Dir s =
  if Rlt_dec r2 d2 then (false, 0)
  else if Rlt_dec (1 / 1000) (tca - thc) then (true, tca - thc)
  else if Rlt_dec (1 / 1000) (tca + thc) then (true, tca + thc)
  else (false, 0).
Proof.
  cbv zeta. unfold ray_sphere_intersect, fgt, gt_dlit.
  cbn [F flt dlt d_lit d_of_f fadd fsub fmul fsqrt f_of_Z ideal].
  unfold Ideal.ltb, Ideal.lit.
  destruct (Rlt_dec _ _); [reflexivity|].
  destruct (Rlt_dec _ _); [reflexivity|].
  destruct (Rlt_dec _ _); reflexivity.
Qed.

(** The squared distance from [C] of the point of parameter [t] on a ray
    with a unit direction. *)
Lemma ray_point_dist (O Dir C : vec3 R) (t : R) :
  dot ideal Dir Dir = 1 ->
  let L := vsub ideal C O in
  let tca := dot ideal L Dir in
  let p := ray_at ideal O Dir t in
  dot ideal (vsub ideal p C) (vsub ideal p C)
  = (t - tca) * (t - tca) + (dot ideal L L - tca * tca).
Proof.
  destruct O as [ox oy oz], Dir as [dx dy dz], C as [cx cy cz].
  vec_unfold. intros Hu.
  transitivity
    (t * t * (dx * dx + dy * dy + dz * dz)
     - 2 * t * ((cx - ox) * dx + (cy - oy) * dy + (cz - oz) * dz)
     + ((cx - ox) * (cx - ox) + (cy - oy) * (cy - oy)
        + (cz - oz) * (cz - oz))); [ring|].
  rewrite Hu. ring.
Qed.

(** X4.  In exact arithmetic, for a unit direction: a hit reported by
    ray_sphere_intersect is at a distance above 0.001 and its point is on
    the surface of the sphere; and whenever the ray meets the surface at
    some distance t' above 0.001, a hit is reported, at a distance no
    larger than t'.  So the function returns the nearest intersection
    beyond 0.001 and misses only when there is none. *)
Theorem ray_sphere_nearest (O Dir : vec3 R) (s : Sphere R) :
  dot ideal Dir Dir = 1 ->
  (forall t, ray_sphere_intersect ideal O Dir s = (true, t) ->
             1 / 1000 < t /\ on_sphere s (ray_at ideal O Dir t))
  /\ (forall t', 1 / 1000 < t' -> on_sphere s (ray_at ideal O Dir t') ->
        exists t, ray_sphere_intersect ideal O Dir s = (true, t) /\ t <= t').
Proof.
  intros Hu. unfold on_sphere.
  rewrite ray_sphere_ideal_cases. cbv zeta.
  set (L := vsub ideal (s_center s) O).
  set (tca := dot ideal L Dir).
  set (d2 := dot ideal L L - tca * tca).
  set (r2 := radius s * radius s).
  set (thc := sqrt (r2 - d2)).
  assert (Hd : forall t,
    dot ideal (vsub ideal (ray_at ideal O Dir t) (s_center s))
              (vsub ideal (ray_at ideal O Dir t) (s_center s))
    = (t - tca) * (t - tca) + d2).
  { intros t. apply (ray_point_dist O Dir (s_center s) t Hu). }
  split.
  - intros t. rewrite Hd.
    destruct (Rlt_dec r2 d2) as [|Hq]; [intros H; inversion H|].
    assert (Hthc : thc * thc = r2 - d2) by (apply sqrt_sqrt; lra).
    destruct (Rlt_dec (1 / 1000) (tca - thc)) as [H0|H0].
    { intros H; inversion H; subst t. split; [exact H0|].
      replace (tca - thc - tca) with (- thc) by ring. nra. }
    destruct (Rlt_dec (1 / 1000) (tca + thc)) as [H1|H1];
      intros H; inversion H; subst t. split; [exact H1|].
    replace (tca + thc - tca) with thc by ring. nra.
  - intros t' Ht' Hon. rewrite Hd in Hon.
    assert (Hq : 0 <= r2 - d2).
    { pose proof (Rle_0_sqr (t' - tca)) as Hs. unfold Rsqr in Hs. lra. }
    assert (Hthc : thc * thc = r2 - d2) by (apply sqrt_sqrt; exact Hq).
    assert (Hpos : 0 <= thc) by apply sqrt_pos.
    assert (Hroot : t' = tca - thc \/ t' = tca + thc).
    { assert (E : (t' - tca - thc) * (t' - tca + thc) = 0) by nra.
      apply Rmult_integral in E. destruct E; [right|left]; lra. }
    destruct (Rlt_dec r2 d2) as [|_]; [lra|].
    destruct (Rlt_dec (1 / 1000) (tca - thc)) as [H0|H0].
    { exists (tca - thc). split; [reflexivity|]. destruct Hroot; lra. }
    destruct (Rlt_dec (1 / 1000) (tca + thc)) as [H1|H1].
    { exists (tca + thc). split; [reflexivity|]. destruct Hroot; lra. }
    exfalso. destruct Hroot; lra.
Qed.

Lemma ray_sphere_nearest_witness :
  exists t,
    ray_sphere_intersect ideal (mk_vec3 0 4 0) (mk_vec3 0 0 (-1))
      (mk_Sphere (mk_vec3 0 4 (-12)) 2 (water ideal)) = (true, t)
    /\ t <= 10.
Proof.
  destruct (ray_sphere_nearest (mk_vec3 0 4 0) (mk_vec3 0 0 (-1))
              (mk_Sphere (mk_vec3 0 4 (-12)) 2 (water ideal))) as [_ H].
  - unfold dot; simpl; lra.
  - apply (H 10).
    + lra.
    + unfold on_sphere, ray_at, dot, vsub, vadd, vscale; simpl; lra.
Defined.

(** X5.  In exact arithmetic, for an origin exactly on the surface of a
    sphere and a unit direction D with (O - C) . D >= 0 (outward or along a
    tangent), ray_sphere_intersect returns no hit for that sphere: the near
    root is 2 tca <= 0 and the far root is 0, and neither is above
    0.001.  (On binary32 the hit points that the program computes are not
    exactly on the surface, and nothing is stated about them here.) *)
Theorem ray_sphere_outward_miss (O Dir : vec3 R) (s : Sphere R) :
  dot ideal Dir Dir = 1 ->
  on_sphere s O ->
  0 <= dot ideal (vsub ideal O (s_center s)) Dir ->
  ray_sphere_intersect ideal O Dir s = (false, 0).
Proof.
  unfold on_sphere. intros Hu Hon Hout.
  rewrite ray_sphere_ideal_cases. cbv zeta.
  set (L := vsub ideal (s_center s) O).
  set (tca := dot ideal L Dir).
  set (d2 := dot ideal L L - tca * tca).
  set (r2 := radius s * radius s).
  set (thc := sqrt (r2 - d2)).
  assert (HL : dot ideal L L = r2).
  { unfold r2. rewrite <- Hon. unfold L. destruct O, (s_center s).
    vec_unfold. ring. }
  assert (Htca : tca <= 0).
  { replace tca with (- dot ideal (vsub ideal O (s_center s)) Dir); [lra|].
    unfold tca, L. destruct O, (s_center s), Dir. vec_unfold. ring. }
  assert (Hthc : thc = - tca).
  { unfold thc, d2. rewrite HL.
    replace (r2 - (r2 - tca * tca)) with ((- tca) * (- tca)) by ring.
    apply sqrt_square. lra. }
  destruct (Rlt_dec r2 d2) as [|_]; [reflexivity|].
  destruct (Rlt_dec (1 / 1000) (tca - thc)) as [H0|_]; [lra|].
  destruct (Rlt_dec (1 / 1000) (tca + thc)) as [H1|_]; [lra|].
  reflexivity.
Qed.

Lemma ray_sphere_outward_miss_witness :
  ray_sphere_intersect ideal (mk_vec3 0 6 (-12)) (mk_vec3 0 1 0)
    (mk_Sphere (mk_vec3 0 4 (-12)) 2 (water ideal)) = (false, 0).
Proof.
  apply ray_sphere_outward_miss.
  - unfold dot; simpl; lra.
  - unfold on_sphere, dot, vsub; simpl; lra.
  - unfold dot, vsub; simpl; lra.
Defined.

(** *** ray_cube_intersect *)

(** One axis of the slab method: the ordered pair of parameters bounds
    exactly the parameters at which the ray is between the two faces. *)
Lemma slab_ideal (c o d sz t : R) :
  d <> 0 -> 0 <= sz ->
  let lo := slab_lo ideal c o d sz in
  let hi := slab_hi ideal c o d sz in
  let ab := order_pair ideal lo hi in
  fst ab <= snd ab
  /\ (fst ab = lo \/ fst ab = hi)
  /\ (fst ab <= t <= snd ab <-> c - sz / 2 <= o + d * t <= c + sz / 2)
  /\ (t = lo <-> o + d * t = c - sz / 2)
  /\ (t = hi <-> o + d * t = c + sz / 2).
Proof.
  intros Hd Hs. cbv zeta. unfold order_pair, fgt, slab_lo, slab_hi.
  cbn [F flt fsub fadd fdiv f_of_Z ideal]. unfold Ideal.ltb.
  set (X := c - sz / 2 - o). set (Y := c + sz / 2 - o).
  assert (HX : d * (X / d) = X) by (field; exact Hd).
  assert (HY : d * (Y / d) = Y) by (field; exact Hd).
  assert (HXY : X <= Y) by (unfold X, Y; lra).
  set (lo := X / d) in *. set (hi := Y / d) in *.
  assert (Hlo : t = lo <-> o + d * t = c - sz / 2).
  { split; intros E.
    - rewrite E. unfold X in HX. lra.
    - apply (Rmult_eq_reg_l d); [|exact Hd]. unfold X in HX. lra. }
  assert (Hhi : t = hi <-> o + d * t = c + sz / 2).
  { split; intros E.
    - rewrite E. unfold Y in HY. lra.
    - apply (Rmult_eq_reg_l d); [|exact Hd]. unfold Y in HY. lra. }
  clearbody lo hi.
  assert (Hsign : 0 < d \/ d < 0)
    by (destruct (Rtotal_order 0 d) as [?|[?|?]];
        [left; assumption|congruence|right; lra]).
  destruct (Rlt_dec hi lo) as [Hlt|Hge]; cbn [fst snd];
    (split; [lra|]); (split; [auto|]); (split; [|split; assumption]);
    (split; intros [Ha Hb]); unfold X, Y in *; destruct Hsign;
    try nra; split; nra.
Qed.

(** One component of the normal of a hit at the parameter [t], where
    [p] is the coordinate of the hit point and [flo], [fhi] those of the
    two face planes. *)
Lemma axis_normal_ideal (t lo hi p flo fhi : R) :
  (t = lo <-> p = flo) -> (t = hi <-> p = fhi) ->
  ((if Ideal.eqb t lo || Ideal.eqb t hi then 1 else 0) = 1
   /\ (p = flo \/ p = fhi))
  \/ ((if Ideal.eqb t lo || Ideal.eqb t hi then 1 else 0) = 0
      /\ p <> flo /\ p <> fhi).
Proof.
  intros [L1 L2] [H1 H2].
  destruct (ideal_eqb_cases t lo) as [[-> E1]|[-> E1]];
    destruct (ideal_eqb_cases t hi) as [[-> E2]|[-> E2]]; cbn [orb].
  - left. split; [reflexivity|left; exact (L1 E1)].
  - left. split; [reflexivity|left; exact (L1 E1)].
  - left. split; [reflexivity|right; exact (H1 E2)].
  - right. split; [reflexivity|].
    split; intros E; [apply E1, L2, E|apply E2, H2, E].
Qed.

(** X6.  In exact arithmetic, for a direction without a zero component
    and a box of non-negative size: a hit reported by ray_cube_intersect is
    at a positive distance, its point is inside the closed box and on the
    plane of one of its faces, and each component of the returned normal
    is 1 when the point is on a face plane across that axis and 0
    otherwise. *)
Theorem ray_cube_hit_on_box (O Dir : vec3 R) (c : Cube R) (t : R)
    (n : vec3 R) :
  vx Dir <> 0 -> vy Dir <> 0 -> vz Dir <> 0 -> 0 <= size c ->
  ray_cube_intersect ideal O Dir c = (true, t, n) ->
  let p := ray_at ideal O Dir t in
  0 < t
  /\ (forall q, In q [vx; vy; vz] -> face_lo c q <= q p <= face_hi c q)
  /\ (exists q, In q [vx; vy; vz] /\ (q p = face_lo c q \/ q p = face_hi c q))
  /\ (forall q, In q [vx; vy; vz] ->
        (q n = 1 /\ (q p = face_lo c q \/ q p = face_hi c q))
        \/ (q n = 0 /\ q p <> face_lo c q /\ q p <> face_hi c q)).
Proof.
  intros Hx Hy Hz Hs. cbv zeta. unfold face_lo, face_hi.
  destruct O as [ox oy oz], Dir as [dx dy dz], c as [[cx cy cz] sz m].
  cbn [vx vy vz size c_center] in *.
  unfold ray_cube_intersect, cube_miss. cbv zeta.
  cbn [vx vy vz size c_center].
  pose proof (fun t => slab_ideal cx ox dx sz t Hx Hs) as Sx.
  pose proof (fun t => slab_ideal cy oy dy sz t Hy Hs) as Sy.
  pose proof (fun t => slab_ideal cz oz dz sz t Hz Hs) as Sz.
  cbv zeta in Sx, Sy, Sz.
  destruct (order_pair ideal (slab_lo ideal cx ox dx sz) _) as [ax bx].
  destruct (order_pair ideal (slab_lo ideal cy oy dy sz) _) as [ay by_].
  destruct (order_pair ideal (slab_lo ideal cz oz dz sz) _) as [az bz].
  cbn [fst snd] in Sx, Sy, Sz.
  unfold fgt. cbn [F flt feq f_of_Z ideal].
  destruct (ideal_ltb_cases by_ ax) as [[-> C1]|[-> C1]];
    [intros H; inversion H|].
  destruct (ideal_ltb_cases bx ay) as [[-> C2]|[-> C2]];
    [intros H; inversion H|].
  cbn [orb].
  match goal with |- context [Ideal.ltb bz ?x] => set (t1 := x) end.
  match goal with
  | |- context [Ideal.ltb bz t1 || Ideal.ltb ?x az] => set (u1 := x)
  end.
  destruct (ideal_ltb_cases bz t1) as [[-> C3]|[-> C3]];
    [intros H; inversion H|].
  destruct (ideal_ltb_cases u1 az) as [[-> C4]|[-> C4]];
    [intros H; inversion H|].
  cbn [orb].
  match goal with |- context [Ideal.ltb 0 ?x] => set (t2 := x) end.
  destruct (ideal_ltb_cases 0 t2) as [[-> Hpos]|[-> Hpos]];
    [|intros H; inversion H].
  intros H. injection H as Ht Hn. subst t n.
  assert (Bx : (ax <= t2 <= bx) /\ (ay <= t2 <= by_) /\ (az <= t2 <= bz)).
  { destruct (Sx 0) as (Ox & _). destruct (Sy 0) as (Oy & _).
    destruct (Sz 0) as (Oz & _).
    clear Sx Sy Sz Hpos. subst t2 t1 u1. ltb_cases; lra. }
  destruct Bx as (Bx & By & Bz).
  assert (E : t2 = ax \/ t2 = ay \/ t2 = az).
  { unfold t2, t1.
    destruct (Ideal.ltb ax ay); destruct (Ideal.ltb _ az); auto. }
  clearbody t2. clear t1 u1 C3 C4.
  unfold ray_at, vadd, vscale. cbn [vx vy vz F fadd fmul ideal].
  destruct (Sx t2) as (_ & Ax & Ix & Lx & Hx').
  destruct (Sy t2) as (_ & Ay & Iy & Ly & Hy').
  destruct (Sz t2) as (_ & Az & Iz & Lz & Hz').
  split; [exact Hpos|]. split; [|split].
  - intros q [<-|[<-|[<-|[]]]]; cbn [vx vy vz];
      [apply Ix; exact Bx|apply Iy; exact By|apply Iz; exact Bz].
  - destruct E as [E|[E|E]].
    + exists vx. split; [simpl; auto|]. cbn [vx].
      destruct Ax as [A|A]; rewrite A in E; [left; apply Lx|right; apply Hx'];
        exact E.
    + exists vy. split; [simpl; auto|]. cbn [vy].
      destruct Ay as [A|A]; rewrite A in E; [left; apply Ly|right; apply Hy'];
        exact E.
    + exists vz. split; [simpl; auto|]. cbn [vz].
      destruct Az as [A|A]; rewrite A in E; [left; apply Lz|right; apply Hz'];
        exact E.
  - intros q [<-|[<-|[<-|[]]]]; cbn [vx vy vz];
      apply axis_normal_ideal; assumption.
Qed.

(** The ray from (0, -1, 0) along (1, 1, -20) enters the box of the scene
    through its face z = -9, at the parameter 9/20. *)
Lemma front_ray_hit :
  ray_cube_intersect ideal front_orig front_dir (cube ideal)
  = (true, 9 / 20, mk_vec3 0 0 1).
Proof.
  unfold ray_cube_intersect, cube_miss, order_pair, fgt, slab_lo, slab_hi,
         front_orig, front_dir, cube, vec3_of_Z, flit.
  cbn [vx vy vz size c_center F flt feq fadd fsub fdiv f_of_Z f_of_d d_lit
       ideal].
  unfold Ideal.lit.
  repeat (match goal with
          | |- context [Ideal.ltb ?a ?b] =>
              first [rewrite (ideal_ltb_true a b) by lra
                    |rewrite (ideal_ltb_false a b) by lra]
          end; cbv iota beta; cbn [orb fst snd]).
  repeat match goal with
         | |- context [Ideal.eqb ?a ?b] =>
             let E := fresh "E" in
             destruct (ideal_eqb_cases a b) as [[E ?]|[E ?]];
             rewrite E; clear E; try lra
         end.
  cbn [orb]. f_equal. f_equal. lra.
Qed.

Lemma ray_cube_hit_on_box_witness :
  0 < 9 / 20
  /\ exists q, In q [vx; vy; vz]
       /\ (q (ray_at ideal front_orig front_dir (9 / 20))
           = face_lo (cube ideal) q
           \/ q (ray_at ideal front_orig front_dir (9 / 20))
              = face_hi (cube ideal) q).
Proof.
  destruct (ray_cube_hit_on_box front_orig front_dir (cube ideal) (9 / 20)
              (mk_vec3 0 0 1)) as (Hpos & _ & Hface & _).
  - simpl; lra.
  - simpl; lra.
  - simpl; lra.
  - unfold cube, flit. cbn [size F f_of_d d_lit ideal]. unfold Ideal.lit. lra.
  - exact front_ray_hit.
  - split; [exact Hpos|exact Hface].
Defined.

(** X7.  In exact arithmetic, for a direction without a zero component
    and a box of non-negative size: ray_cube_intersect reports no hit as
    soon as the ray line is in the closed box at some parameter t <= 0 (the
    origin in the box or on its surface, or the box behind the origin); and
    when the ray is in the box at some t and at no parameter <= 0, a hit is
    reported, at a distance no larger than t.  So a hit is the entry point
    of a ray that starts outside, and a ray that starts in the box never
    sees the box. *)
Theorem ray_cube_entry (O Dir : vec3 R) (c : Cube R) :
  vx Dir <> 0 -> vy Dir <> 0 -> vz Dir <> 0 -> 0 <= size c ->
  (forall t, in_box c (ray_at ideal O Dir t) -> t <= 0 ->
     fst (fst (ray_cube_intersect ideal O Dir c)) = false)
  /\ (forall t, in_box c (ray_at ideal O Dir t) ->
        (forall t', t' <= 0 -> ~ in_box c (ray_at ideal O Dir t')) ->
        exists t0 n, ray_cube_intersect ideal O Dir c = (true, t0, n)
                     /\ t0 <= t).
Proof.
  intros Hx Hy Hz Hs. unfold in_box, face_lo, face_hi.
  destruct O as [ox oy oz], Dir as [dx dy dz], c as [[cx cy cz] sz m].
  cbn [vx vy vz size c_center] in *.
  unfold ray_cube_intersect, cube_miss. cbv zeta.
  cbn [vx vy vz size c_center].
  pose proof (fun t => slab_ideal cx ox dx sz t Hx Hs) as Sx.
  pose proof (fun t => slab_ideal cy oy dy sz t Hy Hs) as Sy.
  pose proof (fun t => slab_ideal cz oz dz sz t Hz Hs) as Sz.
  cbv zeta in Sx, Sy, Sz.
  destruct (order_pair ideal (slab_lo ideal cx ox dx sz) _) as [ax bx].
  destruct (order_pair ideal (slab_lo ideal cy oy dy sz) _) as [ay by_].
  destruct (order_pair ideal (slab_lo ideal cz oz dz sz) _) as [az bz].
  cbn [fst snd] in Sx, Sy, Sz.
  unfold fgt, ray_at, vadd, vscale.
  cbn [vx vy vz F flt feq fadd fmul f_of_Z ideal].
  assert (Box : forall t,
    (forall q, In q [vx; vy; vz] ->
       q {| vx := cx; vy := cy; vz := cz |} - sz / 2
       <= q {| vx := ox + dx * t; vy := oy + dy * t; vz := oz + dz * t |}
       <= q {| vx := cx; vy := cy; vz := cz |} + sz / 2)
    <-> (ax <= t <= bx) /\ (ay <= t <= by_) /\ (az <= t <= bz)).
  { intros t.
    destruct (Sx t) as (_ & _ & Ix & _). destruct (Sy t) as (_ & _ & Iy & _).
    destruct (Sz t) as (_ & _ & Iz & _).
    split.
    - intros H.
      pose proof (H vx ltac:(simpl; auto)) as Hvx.
      pose proof (H vy ltac:(simpl; auto)) as Hvy.
      pose proof (H vz ltac:(simpl; auto)) as Hvz.
      cbn [vx vy vz] in *. tauto.
    - intros (Hvx & Hvy & Hvz) q [<-|[<-|[<-|[]]]]; cbn [vx vy vz]; tauto. }
  split.
  - intros t Hin Ht. apply Box in Hin. destruct Hin as (Bx & By & Bz).
    clear Box Sx Sy Sz. ltb_cases; cbn [orb fst]; try reflexivity; lra.
  - intros t Hin Hout. apply Box in Hin. destruct Hin as (Bx & By & Bz).
    destruct (ideal_ltb_cases by_ ax) as [[-> C1]|[-> C1]]; [lra|].
    destruct (ideal_ltb_cases bx ay) as [[-> C2]|[-> C2]]; [lra|].
    cbn [orb].
    match goal with |- context [Ideal.ltb bz ?x] => set (t1 := x) end.
    match goal with
    | |- context [Ideal.ltb bz t1 || Ideal.ltb ?x az] => set (u1 := x)
    end.
    assert (T1 : (t1 = ax \/ t1 = ay) /\ ax <= t1 /\ ay <= t1).
    { unfold t1. destruct (ideal_ltb_cases ax ay) as [[-> ?]|[-> ?]];
        split; auto; lra. }
    assert (U1 : (u1 = bx \/ u1 = by_) /\ u1 <= bx /\ u1 <= by_).
    { unfold u1. destruct (ideal_ltb_cases by_ bx) as [[-> ?]|[-> ?]];
        split; auto; lra. }
    clearbody t1 u1.
    destruct (ideal_ltb_cases bz t1) as [[-> C3]|[-> C3]];
      [destruct T1 as ([?|?] & _); lra|].
    destruct (ideal_ltb_cases u1 az) as [[-> C4]|[-> C4]];
      [destruct U1 as ([?|?] & _); lra|].
    cbn [orb].
    match goal with |- context [Ideal.ltb 0 ?x] => set (t2 := x) end.
    assert (T2 : (t2 = t1 \/ t2 = az) /\ t1 <= t2 /\ az <= t2).
    { unfold t2. destruct (ideal_ltb_cases t1 az) as [[-> ?]|[-> ?]];
        split; auto; lra. }
    clearbody t2.
    assert (Hle : t2 <= t).
    { destruct T2 as ([?|?] & _); destruct T1 as ([?|?] & _); lra. }
    destruct (ideal_ltb_cases 0 t2) as [[-> Hpos]|[-> Hpos]].
    + eexists. eexists. split; [reflexivity|exact Hle].
    + exfalso. apply (Hout t2); [lra|]. apply Box.
      destruct U1 as ([?|?] & ? & ?); destruct T1 as (_ & ? & ?);
        destruct T2 as (_ & ? & ?); lra.
Qed.

Lemma ray_cube_entry_witness :
  fst (fst (ray_cube_intersect ideal (mk_vec3 0 (-1) (-10)) front_dir
              (cube ideal))) = false.
Proof.
  apply (proj1 (ray_cube_entry (mk_vec3 0 (-1) (-10)) front_dir (cube ideal)
                  ltac:(simpl; lra) ltac:(simpl; lra) ltac:(simpl; lra)
                  ltac:(unfold cube, flit; cbn [size F f_of_d d_lit ideal];
                        unfold Ideal.lit; lra)) 0).
  - unfold in_box, face_lo, face_hi, ray_at, vadd, vscale, cube, flit,
           vec3_of_Z, front_dir.
    cbn [vx vy vz size c_center F fadd fmul f_of_Z f_of_d d_lit ideal].
    unfold Ideal.lit.
    intros q [<-|[<-|[<-|[]]]]; cbn [vx vy vz]; lra.
  - lra.
Defined.

(** *** refract *)

(** Cauchy-Schwarz for unit vectors. *)
Lemma dot_unit_bound (I Nrm : vec3 R) :
  dot ideal I I = 1 -> dot ideal Nrm Nrm = 1 ->
  -1 <= dot ideal I Nrm <= 1.
Proof.
  intros HI HN.
  pose proof (cross_norm_ideal I Nrm) as HL.
  rewrite HI, HN in HL.
  assert (Hc : 0 <= dot ideal (cross ideal I Nrm) (cross ideal I Nrm)).
  { destruct (cross ideal I Nrm) as [a b c]. vec_unfold. nra. }
  set (d := dot ideal I Nrm) in *. clearbody d. nra.
Qed.

Lemma refract_cosi_ideal (I Nrm : vec3 R) :
  -1 <= dot ideal I Nrm <= 1 ->
  refract_cosi ideal I Nrm = - dot ideal I Nrm.
Proof.
  intros Hb. unfold refract_cosi, std_max, std_min.
  set (d := dot ideal I Nrm) in *. clearbody d.
  cbn [F flt fopp f_of_Z ideal].
  destruct (ideal_ltb_cases d 1) as [[-> ?]|[-> ?]];
    [destruct (ideal_ltb_cases (-1) d) as [[-> ?]|[-> ?]]
    |destruct (ideal_ltb_cases (-1) 1) as [[-> ?]|[-> ?]]]; lra.
Qed.

(** A normal that faces the incoming direction: one call is enough. *)
Lemma refract_ideal_facing (I Nrm : vec3 R) (eta_t eta_i : R) (fuel : nat) :
  dot ideal I I = 1 -> dot ideal Nrm Nrm = 1 -> dot ideal I Nrm <= 0 ->
  exists r,
    refract_fuel ideal (S fuel) I Nrm eta_t eta_i = Some r
    /\ snell I Nrm (eta_i / eta_t) r.
Proof.
  intros HI HN Hd. unfold snell.
  set (eta := eta_i / eta_t).
  set (k := 1 - eta * eta * (1 - dot ideal I Nrm * dot ideal I Nrm)).
  pose proof (dot_unit_bound I Nrm HI HN) as Hb.
  cbn [refract_fuel]. rewrite (refract_cosi_ideal I Nrm Hb).
  cbn [F flt f_of_Z ideal].
  destruct (ideal_ltb_cases (- dot ideal I Nrm) 0) as [[-> ?]|[-> _]]; [lra|].
  eexists. split; [reflexivity|].
  unfold refract_body, refract_k.
  cbn [F flt fadd fsub fmul fdiv fsqrt f_of_Z ideal].
  replace (1 - eta_i / eta_t * (eta_i / eta_t)
               * (1 - - dot ideal I Nrm * - dot ideal I Nrm)) with k
    by (unfold k, eta; ring).
  fold eta. cbv zeta.
  destruct (ideal_ltb_cases k 0) as [[-> Hk]|[-> Hk]].
  - split; [reflexivity|]. intros Hk'. lra.
  - split; [intros Hk'; lra|]. intros Hk'.
    assert (Hs : sqrt k * sqrt k = k) by (apply sqrt_sqrt; exact Hk').
    set (q := sqrt k) in *. clearbody q.
    assert (E : dot ideal
                  (vadd ideal (vscale ideal I eta)
                     (vscale ideal Nrm (eta * - dot ideal I Nrm - q))) Nrm
                = - q).
    { destruct I as [a b c], Nrm as [x y z]. vec_unfold.
      transitivity ((eta * - (a * x + b * y + c * z) - q)
                    * (x * x + y * y + z * z)
                    + eta * (a * x + b * y + c * z)); [ring|].
      rewrite HN. ring. }
    split; [|split].
    + unfold k in Hs.
      destruct I as [a b c], Nrm as [x y z]. vec_unfold.
      set (d := a * x + b * y + c * z) in *.
      transitivity (eta * eta * (a * a + b * b + c * c)
                    + 2 * eta * (eta * - d - q) * d
                    + (eta * - d - q) * (eta * - d - q)
                      * (x * x + y * y + z * z)); [unfold d; ring|].
      rewrite HI, HN. clearbody d. nra.
    + exact E.
    + rewrite E.
      destruct I as [a b c], Nrm as [x y z]. vec_unfold.
      f_equal; ring.
Qed.

(** X8.  In exact arithmetic, for unit vectors I and N and nonzero
    refractive indices, refract(I, N, eta_t, eta_i) returns, and its result
    obeys Snell's law: against a normal that faces the ray (I . N <= 0)
    with the ratio eta_i / eta_t, and otherwise against -N with the ratio
    eta_t / eta_i. *)
Theorem refract_snell (I Nrm : vec3 R) (eta_t eta_i : R) :
  dot ideal I I = 1 -> dot ideal Nrm Nrm = 1 ->
  eta_t <> 0 -> eta_i <> 0 ->
  exists r,
    refract ideal I Nrm eta_t eta_i = Some r
    /\ (dot ideal I Nrm <= 0 -> snell I Nrm (eta_i / eta_t) r)
    /\ (0 < dot ideal I Nrm -> snell I (vneg ideal Nrm) (eta_t / eta_i) r).
Proof.
  intros HI HN _ _. unfold refract.
  destruct (Rle_dec (dot ideal I Nrm) 0) as [Hd|Hd].
  - destruct (refract_ideal_facing I Nrm eta_t eta_i 1 HI HN Hd)
      as (r & Hr & Hs).
    exists r. split; [exact Hr|]. split; [intros _; exact Hs|intros H; lra].
  - assert (HN' : dot ideal (vneg ideal Nrm) (vneg ideal Nrm) = 1).
    { rewrite <- HN. destruct Nrm as [x y z]. vec_unfold. ring. }
    assert (Hd' : dot ideal I (vneg ideal Nrm) = - dot ideal I Nrm).
    { destruct I as [a b c], Nrm as [x y z]. vec_unfold. ring. }
    assert (Hd'' : dot ideal I (vneg ideal Nrm) <= 0) by lra.
    destruct (refract_ideal_facing I (vneg ideal Nrm) eta_i eta_t 0 HI HN' Hd'')
      as (r & Hr & Hs).
    exists r. split; [|split; [intros H; lra|intros _; exact Hs]].
    cbn [refract_fuel] in *.
    rewrite (refract_cosi_ideal I Nrm (dot_unit_bound I Nrm HI HN)).
    cbn [F flt f_of_Z ideal].
    rewrite (ideal_ltb_true (- dot ideal I Nrm) 0) by lra.
    exact Hr.
Qed.

Lemma refract_snell_witness :
  exists r,
    refract ideal (mk_vec3 0 (-1) 0) (mk_vec3 0 1 0) (13 / 10) 1 = Some r
    /\ (dot ideal (mk_vec3 0 (-1) 0) (mk_vec3 0 1 0) <= 0 ->
        snell (mk_vec3 0 (-1) 0) (mk_vec3 0 1 0) (1 / (13 / 10)) r)
    /\ (0 < dot ideal (mk_vec3 0 (-1) 0) (mk_vec3 0 1 0) ->
        snell (mk_vec3 0 (-1) 0) (vneg ideal (mk_vec3 0 1 0))
              (13 / 10 / 1) r).
Proof.
  apply (refract_snell (mk_vec3 0 (-1) 0) (mk_vec3 0 1 0) (13 / 10) 1).
  - unfold dot; simpl; lra.
  - unfold dot; simpl; lra.
  - lra.
  - lra.
Defined.

(** *** The ground plane *)

(** X9.  In exact arithmetic, a hit accepted by the ground-plane test of
    scene_intersect is at a distance above 0.001, at the point of the ray
    at that distance, and this point is on the plane y = -3 with
    -12 < x < 12 and -28 < z < -12. *)
Theorem plane_hit_on_plane (orig dir : vec3 R) (d : R) (p : vec3 R) :
  plane_hit ideal orig dir = Some (d, p) ->
  1 / 1000 < d
  /\ p = ray_at ideal orig dir d
  /\ vy p = -3
  /\ -12 < vx p < 12
  /\ -28 < vz p < -12.
Proof.
  intros H. apply plane_hit_inv in H.
  destruct H as (Hd & Hp & G0 & G1 & G2 & G3 & G4).
  unfold gt_dlit, fgt in *.
  cbn [F flt dlt d_lit d_of_f fabs f_of_Z ideal] in *.
  unfold Ideal.lit in *.
  destruct (ideal_ltb_cases (1 / 1000) (Rabs (vy dir))) as [[_ H0]|[E _]];
    [|congruence].
  destruct (ideal_ltb_cases (1 / 1000) d) as [[_ H1]|[E _]]; [|congruence].
  destruct (ideal_ltb_cases (Rabs (vx p)) 12) as [[_ H2]|[E _]];
    [|congruence].
  destruct (ideal_ltb_cases (vz p) (-12)) as [[_ H3]|[E _]]; [|congruence].
  destruct (ideal_ltb_cases (-28) (vz p)) as [[_ H4]|[E _]]; [|congruence].
  assert (Hy : vy dir <> 0).
  { intros E. rewrite E, Rabs_R0 in H0. lra. }
  split; [exact H1|]. split; [exact Hp|]. split; [|split].
  - rewrite Hp, Hd. unfold plane_dist, vadd, vscale.
    cbn [vx vy vz F fadd fmul fdiv fopp f_of_Z ideal]. field. exact Hy.
  - apply Rabs_def2 in H2. lra.
  - lra.
Qed.

Lemma plane_hit_on_plane_witness :
  vy (mk_vec3 0 (-3) (-13) : vec3 R) = -3.
Proof.
  apply (plane_hit_on_plane (mk_vec3 0 (-2) (-13)) (mk_vec3 0 (-1) 0) 1
           (mk_vec3 0 (-3) (-13))).
  unfold plane_hit, plane_dist, gt_dlit, fgt, vadd, vscale.
  cbn [vx vy vz F flt dlt d_lit d_of_f fabs fadd fmul fdiv fopp f_of_Z ideal].
  unfold Ideal.lit.
  rewrite (ideal_ltb_true (1 / 1000) (Rabs (-1)))
    by (unfold Rabs; destruct (Rcase_abs (-1)); lra).
  cbv zeta.
  replace (- (-2 + 3) / -1) with 1 by (field; lra).
  replace (0 + 0 * 1) with 0 by ring.
  replace (-2 + -1 * 1) with (-3) by ring.
  replace (-13 + 0 * 1) with (-13) by ring.
  rewrite Rabs_R0.
  rewrite !ideal_ltb_true by lra. reflexivity.
Defined.

End ExactIntersections.

(* ================================================================== *)
(** ** Further properties: the vector operations on binary32 *)

(** X10.  On binary32 the dot product and the sum of two vectors do not
    depend on the order of the operands: the results are the same floats,
    bit for bit, also for infinities and NaN. *)
Theorem dot_vadd_comm (v w : vec3 (F ieee)) :
  dot ieee v w = dot ieee w v /\ vadd ieee v w = vadd ieee w v.
Proof.
  unfold dot, vadd. cbn [fadd fmul ieee].
  rewrite (Alg.mul_comm (vx v)), (Alg.mul_comm (vy v)), (Alg.mul_comm (vz v)).
  rewrite (Alg.add_comm (vx v)), (Alg.add_comm (vy v)), (Alg.add_comm (vz v)).
  split; reflexivity.
Qed.

(** X11.  On binary32, norm() returns NaN when a component of the vector
    is NaN, and otherwise a value with a clear sign bit: +0, a positive
    finite number or +inf, never a negative number, -0 or NaN. *)
Theorem norm_sign (v : vec3 (F ieee)) :
  (is_nan (vx v) || is_nan (vy v) || is_nan (vz v) = true ->
   norm ieee v = S754_nan)
  /\ (is_nan (vx v) || is_nan (vy v) || is_nan (vz v) = false ->
      nonneg (norm ieee v) = true).
Proof.
  destruct v as [x y z]. unfold norm. cbn [vx vy vz fadd fmul fsqrt ieee].
  split; intros H.
  - apply orb_true_iff in H. destruct H as [H|H];
      [apply orb_true_iff in H; destruct H as [H|H]|].
    + destruct x; try discriminate. reflexivity.
    + destruct y; try discriminate.
      change (B32.mul S754_nan S754_nan) with S754_nan.
      rewrite Sign.add_nan_r. reflexivity.
    + destruct z; try discriminate.
      change (B32.mul S754_nan S754_nan) with S754_nan.
      rewrite Sign.add_nan_r. reflexivity.
  - apply orb_false_iff in H. destruct H as [H Hz].
    apply orb_false_iff in H. destruct H as [Hx Hy].
    apply Sign.sqrt_nonneg.
    repeat apply Sign.add_nonneg; apply Sign.mul_self_nonneg; assumption.
Qed.

Lemma norm_sign_witness :
  norm ieee (mk_vec3 S754_nan (B32.of_Z 1) (B32.of_Z 2)) = S754_nan
  /\ nonneg (norm ieee (vec3_of_Z ieee 3 (-4) 0)) = true.
Proof.
  split.
  - apply (proj1 (norm_sign _)). reflexivity.
  - apply (proj2 (norm_sign _)). reflexivity.
Defined.

(** X12.  On binary32, when the norm of v is +0 (the zero vector, or a
    vector so small that its squared length underflows), normalized(v)
    is no unit vector: 1/norm is +inf, so a zero component becomes NaN
    and a nonzero finite component becomes an infinity of its sign. *)
Theorem normalized_zero_norm (v : vec3 (F ieee)) :
  norm ieee v = S754_zero false ->
  forall q, In q [vx; vy; vz] ->
    (is_zero (q v) = true -> q (normalized ieee v) = S754_nan)
    /\ (forall s m e, q v = S754_finite s m e ->
          q (normalized ieee v) = S754_infinity s).
Proof.
  intros Hn q Hq. unfold normalized. rewrite Hn.
  cbn [fdiv f_of_Z ieee].
  change (B32.div (B32.of_Z 1) (S754_zero false)) with (S754_infinity false).
  unfold vscale. cbn [fmul ieee].
  destruct Hq as [<-|[<-|[<-|[]]]]; cbn [vx vy vz];
    (split; [intros Hz|intros s m e E]).
  all: try (rewrite E; destruct s; reflexivity).
  all: match goal with
       | H : is_zero ?x = true |- _ => destruct x; try discriminate H
       end; reflexivity.
Qed.

Lemma normalized_zero_norm_witness :
  normalized ieee tiny_vec
  = mk_vec3 (S754_infinity false) S754_nan S754_nan.
Proof.
  assert (Hn : norm ieee tiny_vec = S754_zero false) by reflexivity.
  destruct (normalized_zero_norm tiny_vec Hn vx ltac:(simpl; auto))
    as [_ Hx].
  destruct (normalized_zero_norm tiny_vec Hn vy ltac:(simpl; auto))
    as [Hy _].
  destruct (normalized_zero_norm tiny_vec Hn vz ltac:(simpl; auto))
    as [Hz _].
  specialize (Hx false 8388608%positive (-103) eq_refl).
  specialize (Hy eq_refl). specialize (Hz eq_refl).
  destruct (normalized ieee tiny_vec) as [a b c]. cbn [vx vy vz] in *.
  subst. reflexivity.
Defined.

(** X13.  On binary32, reflect(I, -N) and reflect(I, N) are the same
    vector up to the sign of a zero component, for all I and N: the
    reflected direction does not depend on the side to which the normal
    points. *)
Theorem reflect_normal_sign (I Nrm : vec3 (F ieee)) :
  vzeq (reflect ieee I (vneg ieee Nrm)) (reflect ieee I Nrm).
Proof.
  assert (G : forall a n,
    zeq (B32.sub a (B32.mul (B32.mul (SFopp n) (B32.of_Z 2))
                            (dot ieee I (vneg ieee Nrm))))
        (B32.sub a (B32.mul (B32.mul n (B32.of_Z 2)) (dot ieee I Nrm)))).
  { intros a n. apply Alg.sub_zeq_r. rewrite Alg.mul_opp_l.
    eapply Sym.zeq_trans; [apply Alg.mul_zeq_r, Sym.dot_opp|].
    rewrite Sym.mul_opp_r, Alg.mul_opp_l, Alg.opp_involutive.
    apply Sym.zeq_refl. }
  unfold vzeq, reflect, vsub, vscale.
  cbn [vx vy vz fsub fmul f_of_Z ieee].
  change (vx (vneg ieee Nrm)) with (SFopp (vx Nrm)).
  change (vy (vneg ieee Nrm)) with (SFopp (vy Nrm)).
  change (vz (vneg ieee Nrm)) with (SFopp (vz Nrm)).
  repeat split; apply G.
Qed.

(** X14.  On binary32, cross(w, v) is the negation of cross(v, w) up to
    the sign of a zero component, for all v and w. *)
Theorem cross_antisym (v w : vec3 (F ieee)) :
  vzeq (cross ieee w v) (vneg ieee (cross ieee v w)).
Proof.
  unfold vzeq, cross, vneg. cbn [vx vy vz fsub fmul fopp ieee].
  rewrite (Alg.mul_comm (vy w)), (Alg.mul_comm (vz w) (vy v)),
          (Alg.mul_comm (vz w) (vx v)), (Alg.mul_comm (vx w)),
          (Alg.mul_comm (vx w) (vy v)), (Alg.mul_comm (vy w) (vx v)).
  repeat split; apply Alg.sub_swap.
Qed.

(** X15.  On binary32, the clamped cosine of refract,
    cosi = -max(-1, min(1, I . N)), lies in [-1, 1] and is never NaN,
    whatever I and N are; when I . N is NaN it is -1. *)
Theorem refract_cosi_range (I Nrm : vec3 (F ieee)) :
  SFleb (B32.of_Z (-1)) (refract_cosi ieee I Nrm) = true
  /\ SFleb (refract_cosi ieee I Nrm) (B32.of_Z 1) = true
  /\ (is_nan (dot ieee I Nrm) = true ->
      refract_cosi ieee I Nrm = B32.of_Z (-1)).
Proof.
  unfold refract_cosi, std_max, std_min. cbn [flt fopp f_of_Z ieee].
  unfold B32.ltb. set (d := dot ieee I Nrm). clearbody d.
  destruct (SFltb d (B32.of_Z 1)) eqn:E1.
  - destruct (SFltb (B32.of_Z (-1)) d) eqn:E2.
    + repeat split.
      * apply Cmp.ltb_leb.
        change (B32.of_Z (-1)) with (SFopp (B32.of_Z 1)).
        rewrite Alg.ltb_opp. exact E1.
      * apply Cmp.ltb_leb.
        change (B32.of_Z 1) with (SFopp (B32.of_Z (-1))).
        rewrite Alg.ltb_opp. exact E2.
      * intros Hn. destruct d; discriminate.
    + repeat split. intros Hn. destruct d; discriminate.
  - change (SFltb (B32.of_Z (-1)) (B32.of_Z 1)) with true. cbv iota.
    repeat split.
Qed.

(* ================================================================== *)
(** ** Further properties: scene_intersect, cast_ray and main on binary32 *)

Lemma plane_hit_from_plane (orig dir : vec3 (F ieee)) :
  vy orig = B32.of_Z (-3) -> plane_hit ieee orig dir = None.
Proof.
  intros Hy. unfold plane_hit.
  destruct (gt_dlit ieee (fabs ieee (vy dir)) 1 1000); [|reflexivity].
  cbv zeta.
  assert (E : gt_dlit ieee (plane_dist ieee orig dir) 1 1000 = false).
  { unfold plane_dist. rewrite Hy. cbn [fadd fopp fdiv f_of_Z ieee].
    change (SFopp (B32.add (B32.of_Z (-3)) (B32.of_Z 3)))
      with (S754_zero true).
    unfold gt_dlit. cbn [dlt d_lit d_of_f ieee].
    destruct (vy dir) as [s|s| |s m e]; reflexivity. }
  rewrite E. reflexivity.
Qed.

(** X16.  On binary32, a ray whose origin has y = -3 exactly never passes
    the ground-plane test of scene_intersect, whatever its direction: the
    plane distance is a zero or NaN, which is not above 0.001, and the
    test leaves the running nearest hit as it was. *)
Theorem plane_no_self_hit (orig dir : vec3 (F ieee))
    (st : scene_state (F ieee)) :
  vy orig = B32.of_Z (-3) ->
  plane_hit ieee orig dir = None /\ plane_step ieee orig dir st = st.
Proof.
  intros Hy. split; [exact (plane_hit_from_plane orig dir Hy)|].
  rewrite plane_step_hit, (plane_hit_from_plane orig dir Hy). reflexivity.
Qed.

Lemma plane_no_self_hit_witness :
  plane_step ieee down_point (vec3_of_Z ieee 0 (-1) 0) (scene_init ieee)
  = scene_init ieee.
Proof.
  apply (plane_no_self_hit down_point (vec3_of_Z ieee 0 (-1) 0)
           (scene_init ieee)).
  reflexivity.
Defined.

Lemma light_step_nonneg powf (point Nrm dir : vec3 (F ieee)) m acc light :
  nonneg (fst acc) = true ->
  nonneg (fst (light_step ieee powf point Nrm dir m acc light)) = true.
Proof.
  intros H. unfold light_step. cbv zeta.
  destruct (scene_intersect ieee point _) as [[[hit shadow_pt] ?] ?].
  destruct (hit && _); [exact H|].
  cbn [fst fadd ieee]. apply Sign.add_nonneg; [exact H|].
  apply Alg.std_max_zero_nonneg.
Qed.

(** X17.  On binary32, the diffuse light intensity that the loop over
    the lights of cast_ray accumulates is never NaN and never negative (its
    sign bit is clear), for every hit point, normal, direction and
    material, also when these hold NaN: each light adds max(0, .), which
    turns a NaN or negative dot product into 0. *)
Theorem diffuse_light_nonneg (powf : spec_float -> spec_float -> spec_float)
    (point Nrm dir : vec3 (F ieee)) (m : Material (F ieee)) :
  nonneg (fst (fold_left (light_step ieee powf point Nrm dir m) (lights ieee)
                         (B32.of_Z 0, B32.of_Z 0))) = true.
Proof.
  assert (G : forall l acc, nonneg (fst acc) = true ->
    nonneg (fst (fold_left (light_step ieee powf point Nrm dir m) l acc))
    = true).
  { induction l as [|light l IH]; intros acc H; [exact H|].
    apply IH, light_step_nonneg, H. }
  apply G. reflexivity.
Qed.

(** X18.  On binary32, the scale by which main divides the channels of a
    pixel, max(1, max(r, max(g, b))), is at least 1 and never NaN for every
    colour, so that the division is never by zero; and when no channel is
    NaN it is at least every channel. *)
Theorem pixel_max_scale (color : vec3 (F ieee)) :
  SFleb (B32.of_Z 1) (pixel_max ieee color) = true
  /\ (is_nan (vx color) = false -> is_nan (vy color) = false ->
      is_nan (vz color) = false ->
      SFleb (vx color) (pixel_max ieee color) = true
      /\ SFleb (vy color) (pixel_max ieee color) = true
      /\ SFleb (vz color) (pixel_max ieee color) = true).
Proof.
  unfold pixel_max. change (vec3_index ieee color 0) with (vx color).
  change (vec3_index ieee color 1) with (vy color).
  change (vec3_index ieee color 2) with (vz color).
  split; [apply Alg.std_max_ge_l; reflexivity|].
  intros Hx Hy Hz.
  set (m3 := std_max ieee (vy color) (vz color)).
  set (m2 := std_max ieee (vx color) m3).
  assert (N3 : is_nan m3 = false) by (apply Alg.std_max_not_nan, Hy).
  assert (N2 : is_nan m2 = false) by (apply Alg.std_max_not_nan, Hx).
  assert (L : SFleb m2 (std_max ieee (B32.of_Z 1) m2) = true)
    by (apply Alg.std_max_ge_r; [reflexivity|exact N2]).
  assert (L3 : SFleb m3 m2 = true) by (apply Alg.std_max_ge_r; assumption).
  repeat split.
  - eapply Cmp.leb_trans; [|exact L]. apply Alg.std_max_ge_l, Hx.
  - eapply Cmp.leb_trans; [|exact L]. eapply Cmp.leb_trans; [|exact L3].
    apply Alg.std_max_ge_l, Hy.
  - eapply Cmp.leb_trans; [|exact L]. eapply Cmp.leb_trans; [|exact L3].
    apply Alg.std_max_ge_r; assumption.
Qed.

Lemma pixel_max_scale_witness :
  SFleb (vz (mk_vec3 (flit ieee 25 100) (B32.of_Z 0) (B32.of_Z 3)))
        (pixel_max ieee (mk_vec3 (flit ieee 25 100) (B32.of_Z 0) (B32.of_Z 3)))
  = true.
Proof.
  apply (proj2 (pixel_max_scale
                  (mk_vec3 (flit ieee 25 100) (B32.of_Z 0) (B32.of_Z 3))));
    reflexivity.
Defined.

(** *** The grid of camera rays *)

Lemma pixel_dir_x_col (row col : Z) :
  0 <= row -> 0 <= col < width ->
  pixel_dir_x ieee (row * width + col) = pixel_dir_x ieee col.
Proof.
  intros Hr Hc. unfold pixel_dir_x.
  destruct (pixel_index_row_col row col Hr Hc) as [_ ->].
  destruct (pixel_index_row_col 0 col (Z.le_refl 0) Hc) as [_ E].
  simpl in E. rewrite E. reflexivity.
Qed.

Lemma pixel_dir_y_row (row col : Z) :
  0 <= row -> 0 <= col < width ->
  pixel_dir_y ieee (row * width + col) = pixel_dir_y ieee (row * width).
Proof.
  intros Hr Hc. unfold pixel_dir_y.
  destruct (pixel_index_row_col row col Hr Hc) as [-> _].
  assert (H0 : 0 <= 0 < width) by (unfold width; lia).
  destruct (pixel_index_row_col row 0 Hr H0) as [E _].
  rewrite Z.add_0_r in E. rewrite E. reflexivity.
Qed.

(** Every column, and every row, checked by evaluation. *)
Lemma columns_exact :
  forallb (fun c =>
             sf_same (B32.mul (pixel_dir_x ieee (Z.of_nat c)) (B32.of_Z 2))
                     (B32.of_Z (2 * Z.of_nat c - (width - 1)))
             && sf_same (pixel_dir_x ieee (width - 1 - Z.of_nat c))
                        (SFopp (pixel_dir_x ieee (Z.of_nat c))))
          (seq 0 1024) = true.
Proof. vm_compute. reflexivity. Qed.

Lemma rows_exact :
  forallb (fun r =>
             sf_same (B32.mul (pixel_dir_y ieee (Z.of_nat r * width))
                              (B32.of_Z 2))
                     (B32.of_Z (height - 1 - 2 * Z.of_nat r))
             && sf_same (pixel_dir_y ieee ((height - 1 - Z.of_nat r) * width))
                        (SFopp (pixel_dir_y ieee (Z.of_nat r * width))))
          (seq 0 768) = true.
Proof. vm_compute. reflexivity. Qed.

(** X19.  For the pixel of row [row] and column [col], the x and y
    components of the camera ray that main computes in double and narrows
    to float are exact: twice dir_x is the odd integer 2 col - 1023 and
    twice dir_y is the odd integer 767 - 2 row, so neither is ever zero;
    and the grid is symmetric: the mirrored column has the opposite dir_x
    and the mirrored row the opposite dir_y. *)
Theorem pixel_grid (row col : Z) :
  0 <= row < height -> 0 <= col < width ->
  let pix := row * width + col in
  B32.mul (pixel_dir_x ieee pix) (B32.of_Z 2) = B32.of_Z (2 * col - (width - 1))
  /\ B32.mul (pixel_dir_y ieee pix) (B32.of_Z 2)
     = B32.of_Z (height - 1 - 2 * row)
  /\ pixel_dir_x ieee (row * width + (width - 1 - col))
     = SFopp (pixel_dir_x ieee pix)
  /\ pixel_dir_y ieee ((height - 1 - row) * width + col)
     = SFopp (pixel_dir_y ieee pix).
Proof.
  intros Hr Hc pix. unfold pix.
  assert (Hw : width = 1024) by reflexivity.
  assert (Hh : height = 768) by reflexivity.
  rewrite !pixel_dir_x_col, !pixel_dir_y_row by lia.
  pose proof (proj1 (forallb_forall _ _) columns_exact (Z.to_nat col)) as C.
  pose proof (proj1 (forallb_forall _ _) rows_exact (Z.to_nat row)) as R.
  cbv beta in C, R. rewrite Z2Nat.id in C, R by lia.
  destruct (proj1 (andb_true_iff _ _) (C ltac:(apply in_seq; lia))) as [C1 C2].
  destruct (proj1 (andb_true_iff _ _) (R ltac:(apply in_seq; lia))) as [R1 R2].
  repeat split; apply Alg.sf_same_eq; assumption.
Qed.

Lemma pixel_grid_witness :
  B32.mul (pixel_dir_x ieee (10 * width + 3)) (B32.of_Z 2)
  = B32.of_Z (2 * 3 - (width - 1)).
Proof.
  apply (pixel_grid 10 3); unfold height, width; lia.
Defined.

(* ================================================================== *)
(** ** Further properties: rays with NaN *)

Module Nan.

Lemma is_nan_eq x : is_nan x = true -> x = S754_nan.
Proof. destruct x; try discriminate; reflexivity. Qed.

Lemma mul_nan_r x : B32.mul x S754_nan = S754_nan.
Proof. destruct x; reflexivity. Qed.

Lemma sub_nan_r x : B32.sub x S754_nan = S754_nan.
Proof. destruct x; reflexivity. Qed.

Lemma div_nan_r x : B32.div x S754_nan = S754_nan.
Proof. destruct x; reflexivity. Qed.

Lemma ltb_nan_r x : SFltb x S754_nan = false.
Proof. destruct x; reflexivity. Qed.

Lemma gt_dlit_nan n d : gt_dlit ieee S754_nan n d = false.
Proof.
  unfold gt_dlit. cbn [dlt d_lit d_of_f ieee].
  change (B64.of_b32 S754_nan) with S754_nan. apply ltb_nan_r.
Qed.

(** A NaN component in either vector makes the dot product NaN. *)
Lemma dot_has_nan (v w : vec3 (F ieee)) :
  has_nan v || has_nan w = true -> dot ieee v w = S754_nan.
Proof.
  unfold has_nan, dot. cbn [fadd fmul ieee]. intros H.
  repeat (apply orb_true_iff in H; destruct H as [H|H]);
    apply is_nan_eq in H; rewrite H;
    change (B32.mul S754_nan ?x) with S754_nan;
    rewrite ?mul_nan_r, ?Sign.add_nan_r; reflexivity.
Qed.

Lemma vsub_has_nan (v w : vec3 (F ieee)) :
  has_nan w = true -> has_nan (vsub ieee v w) = true.
Proof.
  unfold has_nan, vsub. cbn [vx vy vz fsub ieee]. intros H.
  repeat (apply orb_true_iff in H; destruct H as [H|H]);
    apply is_nan_eq in H; rewrite H, sub_nan_r; cbn [is_nan];
    rewrite ?orb_true_r; reflexivity.
Qed.

Lemma ray_sphere_nan (orig dir : vec3 (F ieee)) (s : Sphere (F ieee)) :
  has_nan orig || has_nan dir = true ->
  ray_sphere_intersect ieee orig dir s = (false, B32.of_Z 0).
Proof.
  intros H. unfold ray_sphere_intersect. cbv zeta.
  assert (E : dot ieee (vsub ieee (s_center s) orig) dir = S754_nan).
  { apply dot_has_nan. apply orb_true_iff in H. destruct H as [H|H].
    - rewrite (vsub_has_nan _ _ H). reflexivity.
    - rewrite H. apply orb_true_r. }
  rewrite E. unfold fgt. cbn [flt fsub fadd fmul fsqrt f_of_Z ieee].
  change (B32.mul S754_nan S754_nan) with S754_nan.
  rewrite !sub_nan_r. unfold B32.ltb. rewrite ltb_nan_r.
  change (B32.sqrt S754_nan) with S754_nan.
  change (B32.sub S754_nan S754_nan) with S754_nan.
  change (B32.add S754_nan S754_nan) with S754_nan.
  rewrite gt_dlit_nan. reflexivity.
Qed.

Lemma plane_hit_nan (orig dir : vec3 (F ieee)) :
  has_nan orig || has_nan dir = true -> plane_hit ieee orig dir = None.
Proof.
  intros H. unfold plane_hit.
  destruct (gt_dlit ieee (fabs ieee (vy dir)) 1 1000) eqn:G; [|reflexivity].
  cbv zeta.
  set (d := plane_dist ieee orig dir).
  destruct (gt_dlit ieee d 1 1000) eqn:Gd; [|reflexivity].
  cbn [andb].
  assert (Hy : is_nan (vy orig) = false /\ is_nan (vy dir) = false).
  { split.
    - destruct (is_nan (vy orig)) eqn:E; [|reflexivity].
      apply is_nan_eq in E. unfold d, plane_dist in Gd. rewrite E in Gd.
      cbn [fadd fopp fdiv f_of_Z ieee] in Gd.
      change (SFopp (B32.add S754_nan (B32.of_Z 3))) with S754_nan in Gd.
      change (B32.div S754_nan (vy dir)) with S754_nan in Gd.
      rewrite gt_dlit_nan in Gd. inversion Gd.
    - destruct (is_nan (vy dir)) eqn:E; [|reflexivity].
      apply is_nan_eq in E. rewrite E in G. cbn [fabs ieee] in G.
      change (SFabs S754_nan) with S754_nan in G.
      rewrite gt_dlit_nan in G. inversion G. }
  destruct Hy as [Hoy Hdy].
  unfold has_nan in H. rewrite Hoy, Hdy, !orb_false_r in H.
  unfold vadd, vscale, fgt. cbn [vx vy vz fadd fmul fabs flt f_of_Z ieee].
  unfold B32.ltb.
  assert (Hx : is_nan (vx orig) || is_nan (vx dir) = true ->
               SFltb (SFabs (B32.add (vx orig) (B32.mul (vx dir) d)))
                     (B32.of_Z 12) = false).
  { intros E. apply orb_true_iff in E. destruct E as [E|E];
      apply is_nan_eq in E; rewrite E.
    - reflexivity.
    - change (B32.mul S754_nan d) with S754_nan. rewrite Sign.add_nan_r.
      reflexivity. }
  assert (Hz : is_nan (vz orig) || is_nan (vz dir) = true ->
               SFltb (B32.add (vz orig) (B32.mul (vz dir) d))
                     (B32.of_Z (-12)) = false).
  { intros E. apply orb_true_iff in E. destruct E as [E|E];
      apply is_nan_eq in E; rewrite E.
    - reflexivity.
    - change (B32.mul S754_nan d) with S754_nan. rewrite Sign.add_nan_r.
      reflexivity. }
  destruct (is_nan (vx orig) || is_nan (vx dir)) eqn:Ex.
  - rewrite (Hx eq_refl). reflexivity.
  - destruct (is_nan (vz orig) || is_nan (vz dir)) eqn:Ez.
    + rewrite (Hz eq_refl), andb_false_r. reflexivity.
    + apply orb_false_iff in Ex. apply orb_false_iff in Ez.
      destruct Ex as [E1 E2], Ez as [E3 E4].
      rewrite E1, E2, E3, E4 in H. inversion H.
Qed.

Lemma ray_cube_nan_vec (orig : vec3 (F ieee)) (c : Cube (F ieee)) :
  ray_cube_intersect ieee orig nan_vec c = cube_miss ieee.
Proof.
  unfold ray_cube_intersect, slab_lo, slab_hi, nan_vec.
  cbn [vx vy vz fdiv ieee]. rewrite !div_nan_r. reflexivity.
Qed.

(** With a NaN in the ray, only the box test can change the state. *)
Lemma scene_final_nan (orig dir : vec3 (F ieee)) :
  has_nan orig || has_nan dir = true ->
  scene_final ieee orig dir = cube_step ieee orig dir (scene_init ieee).
Proof.
  intros H. unfold scene_final.
  rewrite plane_step_hit, (plane_hit_nan orig dir H).
  rewrite spheres_fold_farther; [reflexivity|].
  intros s _. left. rewrite (ray_sphere_nan orig dir s H). reflexivity.
Qed.

End Nan.

(** X22.  On binary32, when a component of the ray origin or of the ray
    direction is NaN, the ground-plane test of scene_intersect accepts
    nothing and ray_sphere_intersect reports no hit for any sphere: the
    result of scene_intersect is decided by the box alone. *)
Theorem nan_ray_box_only (orig dir : vec3 (F ieee)) :
  has_nan orig || has_nan dir = true ->
  plane_hit ieee orig dir = None
  /\ (forall s, ray_sphere_intersect ieee orig dir s = (false, B32.of_Z 0))
  /\ scene_final ieee orig dir = cube_step ieee orig dir (scene_init ieee).
Proof.
  intros H. split; [exact (Nan.plane_hit_nan orig dir H)|].
  split; [intros s; exact (Nan.ray_sphere_nan orig dir s H)|].
  exact (Nan.scene_final_nan orig dir H).
Qed.

Lemma nan_ray_box_only_witness :
  scene_final ieee nan_orig nan_dir
  = cube_step ieee nan_orig nan_dir (scene_init ieee).
Proof.
  apply (nan_ray_box_only nan_orig nan_dir). reflexivity.
Defined.

(** X23.  On binary32, a ray whose direction is NaN in all three
    components hits nothing, from every origin: scene_intersect returns
    no hit with the default point, normal and material, and cast_ray
    returns the background colour at every depth.  This is the direction
    that normalized() makes of a zero vector. *)
Theorem nan_direction_background
    (powf : spec_float -> spec_float -> spec_float)
    (orig : vec3 (F ieee)) (depth : Z) (sx sy sz : bool) :
  scene_intersect ieee orig nan_vec
  = (false, vec3_zero ieee, vec3_zero ieee, Material_default ieee)
  /\ cast_ray ieee powf orig nan_vec depth = Some (background ieee)
  /\ normalized ieee (mk_vec3 (S754_zero sx) (S754_zero sy) (S754_zero sz))
     = nan_vec.
Proof.
  assert (E : scene_final ieee orig nan_vec = scene_init ieee).
  { rewrite Nan.scene_final_nan by apply orb_true_r.
    apply cube_step_not_nearer. left.
    rewrite Nan.ray_cube_nan_vec. reflexivity. }
  assert (S : scene_intersect ieee orig nan_vec
              = (false, vec3_zero ieee, vec3_zero ieee,
                 Material_default ieee)).
  { unfold scene_intersect. rewrite E. reflexivity. }
  split; [exact S|]. split.
  - unfold cast_ray. apply cast_ray_base. right. rewrite S. reflexivity.
  - destruct sx, sy, sz; reflexivity.
Qed.

(* ================================================================== *)
(** ** Further properties: the hit that scene_intersect reports *)

(** X24.  On binary32, whenever scene_intersect reports a hit, with d the
    nearest distance that its three tests kept: the point it returns is
    orig + dir * d; 0 < d < 1000; d is the distance that the plane test, the
    test of a sphere of the scene or the box test returned for this ray;
    and d is no larger than the distance of any hit that these tests
    return for this ray. *)
Theorem scene_hit_on_ray (orig dir : vec3 (F ieee)) :
  fst (fst (fst (scene_intersect ieee orig dir))) = true ->
  let d := nearest_dist (scene_final ieee orig dir) in
  snd (fst (fst (scene_intersect ieee orig dir))) = ray_at ieee orig dir d
  /\ SFltb (B32.of_Z 0) d = true
  /\ SFltb d (B32.of_Z 1000) = true
  /\ ((exists p, plane_hit ieee orig dir = Some (d, p))
      \/ (exists s, In s (spheres ieee)
                    /\ ray_sphere_intersect ieee orig dir s = (true, d))
      \/ (exists n, ray_cube_intersect ieee orig dir (cube ieee)
                    = (true, d, n)))
  /\ (forall d' p, plane_hit ieee orig dir = Some (d', p) ->
                   SFleb d d' = true)
  /\ (forall s d', In s (spheres ieee) ->
                   ray_sphere_intersect ieee orig dir s = (true, d') ->
                   SFleb d d' = true)
  /\ (forall d' n, ray_cube_intersect ieee orig dir (cube ieee)
                   = (true, d', n) ->
                   SFleb d d' = true).
Proof.
  unfold scene_intersect. cbn [fst snd flt f_of_Z ieee]. unfold B32.ltb.
  intros Hhit. cbv zeta.
  destruct (Nearest.keeps_final orig dir) as (_ & _ & _ & Hmin).
  assert (Hcase :
    pt (scene_final ieee orig dir)
    = ray_at ieee orig dir (nearest_dist (scene_final ieee orig dir))
    /\ SFltb (B32.of_Z 0) (nearest_dist (scene_final ieee orig dir)) = true
    /\ ((exists p, plane_hit ieee orig dir
                   = Some (nearest_dist (scene_final ieee orig dir), p))
        \/ (exists s, In s (spheres ieee)
               /\ ray_sphere_intersect ieee orig dir s
                  = (true, nearest_dist (scene_final ieee orig dir)))
        \/ (exists n, ray_cube_intersect ieee orig dir (cube ieee)
               = (true, nearest_dist (scene_final ieee orig dir), n)))).
  { destruct (scene_final_cases orig dir)
      as [E|[(d & p & E1 & E2)|[(s & d & Hin & E1 & E2)|(d & n & E1 & E2)]]].
    - rewrite E in Hhit. vm_compute in Hhit. inversion Hhit.
    - rewrite E2. cbn [nearest_dist pt plane_record].
      pose proof (plane_hit_inv _ _ _ _ _ E1) as (_ & Ep & _ & G & _).
      split; [exact Ep|]. split; [exact (gt_dlit_positive _ G)|].
      left. exists p. exact E1.
    - rewrite E2. cbn [nearest_dist pt sphere_record].
      split; [reflexivity|].
      split; [exact (gt_dlit_positive _ (ray_sphere_hit_inv _ _ _ _ _ E1))|].
      right; left. exists s. split; assumption.
    - rewrite E2. cbn [nearest_dist pt cube_record].
      split; [reflexivity|].
      split; [exact (Nearest.cube_hit_positive _ _ _ _ _ E1)|].
      right; right. exists n. exact E1. }
  destruct Hcase as (Hpt & Hpos & Hwhich).
  split; [exact Hpt|]. split; [exact Hpos|]. split; [exact Hhit|].
  split; [exact Hwhich|]. split; [|split].
  - intros d' p H. apply (Hmin (plane_record ieee d' p)).
    unfold candidates, plane_candidates. rewrite H.
    apply in_or_app. left. left. reflexivity.
  - intros s d' Hin H. apply (Hmin (sphere_record ieee orig dir s d')).
    unfold candidates. apply in_or_app. right. apply in_or_app. left.
    apply (proj2 (in_flat_map _ _ _)). exists s. split; [exact Hin|].
    unfold sphere_candidate. rewrite H. left. reflexivity.
  - intros d' n H. apply (Hmin (cube_record ieee orig dir d' n)).
    unfold candidates, cube_candidates. rewrite H.
    apply in_or_app. right. apply in_or_app. right. left. reflexivity.
Qed.

Lemma scene_hit_on_ray_witness :
  snd (fst (fst (scene_intersect ieee down_orig down_dir)))
  = ray_at ieee down_orig down_dir
      (nearest_dist (scene_final ieee down_orig down_dir)).
Proof.
  apply (scene_hit_on_ray down_orig down_dir). vm_compute. reflexivity.
Defined.
